(** * Lab 3: an AVL tree and a hash table of AVL buckets

    A shallow embedding of [Lab_3-1.cpp] (AVL tree of doubles: its
    printing path in [Lab3_1], its operations in [Lab3_1_AVL]) and
    [Lab_3-2.cpp] (AVL tree of [person] records keyed by the phone
    number, two-level hash table sized by [next_prime], FNV hash),
    followed by the properties of the specification and by further
    properties of the code, each stated over these definitions.

    Conventions of the embedding.
    - A [tNode*] that owns its subtree is a value of the inductive type
      [tNode]; [nullptr] is its empty constructor.  Every node is owned by
      exactly one parent, so the in-place updates of the source are
      rebuilt nodes here.
    - [int] is [Z]; the heights of a tree are far below [2^31], so no
      wrap-around is involved there.  [unsigned long long] is [Z] reduced
      modulo [2^64] after each operation that can leave the range.
    - [std::string] is [string]; [operator<] on [std::string] compares the
      characters as unsigned bytes and then the lengths, which is
      [String.compare].
    - [double] is the binary64 float [PrimFloat.float]; [<] and [==] on
      it are [PrimFloat.ltb] and [PrimFloat.eqb], and [NAN] is
      [PrimFloat.nan].
    - A [const string&] parameter is the value of the string wherever
      the string cannot change during the call.  In the inner call of
      [removeRecFL] it can: there the node that holds the two strings
      is followed through the tree.
    - What a function writes to [cout] is returned next to its result, as
      the list of the lines written. *)

From Stdlib Require Import ZArith List String Ascii Bool Lia Sorted Zdivisibility.
From Stdlib Require Uint63.
From Stdlib Require Floats.
Import ListNotations.
Local Open Scope Z_scope.

(** ** The order of [std::string] *)

Module StrOrd.

Definition ltb (a b : string) : bool := String.ltb a b.
Definition lt (a b : string) : Prop := ltb a b = true.

Lemma ascii_compare_refl (a : ascii) : Ascii.compare a a = Eq.
Proof. unfold Ascii.compare. apply N.compare_refl. Qed.

Lemma ascii_compare_lt_trans (a b c : ascii) :
  Ascii.compare a b = Lt -> Ascii.compare b c = Lt -> Ascii.compare a c = Lt.
Proof.
  unfold Ascii.compare. rewrite !N.compare_lt_iff. apply N.lt_trans.
Qed.

Lemma compare_refl (s : string) : String.compare s s = Eq.
Proof.
  induction s as [|a s IH]; simpl; [reflexivity|].
  now rewrite ascii_compare_refl.
Qed.

Lemma compare_lt_trans (a b c : string) :
  String.compare a b = Lt -> String.compare b c = Lt -> String.compare a c = Lt.
Proof.
  revert b c. induction a as [|x a IH]; intros [|y b] [|z c]; simpl;
    try discriminate; try reflexivity.
  destruct (Ascii.compare x y) eqn:Exy; try discriminate.
  - apply Ascii.compare_eq_iff in Exy. subst y.
    destruct (Ascii.compare x z) eqn:Exz; try discriminate; auto.
    apply IH.
  - intros _. destruct (Ascii.compare y z) eqn:Eyz; try discriminate.
    + apply Ascii.compare_eq_iff in Eyz. subst z. now rewrite Exy.
    + now rewrite (ascii_compare_lt_trans _ _ _ Exy Eyz).
Qed.

Lemma ltb_irrefl (a : string) : ltb a a = false.
Proof. unfold ltb, String.ltb. now rewrite compare_refl. Qed.

Lemma lt_irrefl (a : string) : ~ lt a a.
Proof. unfold lt. now rewrite ltb_irrefl. Qed.

Lemma lt_trans (a b c : string) : lt a b -> lt b c -> lt a c.
Proof.
  unfold lt, ltb, String.ltb. intros H1 H2.
  destruct (String.compare a b) eqn:E1; try discriminate.
  destruct (String.compare b c) eqn:E2; try discriminate.
  now rewrite (compare_lt_trans _ _ _ E1 E2).
Qed.

Lemma lt_asym (a b : string) : lt a b -> ltb b a = false.
Proof.
  intros H. destruct (ltb b a) eqn:E; [|reflexivity].
  exfalso. apply (lt_irrefl a). now apply lt_trans with b.
Qed.

(** Neither [a < b] nor [b < a]: the two strings are the same. *)
Lemma ltb_total (a b : string) : ltb a b = false -> ltb b a = false -> a = b.
Proof.
  unfold ltb, String.ltb. rewrite (String.compare_antisym b a).
  destruct (String.compare a b) eqn:E; simpl; try discriminate.
  intros _ _. now apply String.compare_eq_iff.
Qed.

Lemma lt_neq (a b : string) : lt a b -> a <> b.
Proof. intros H ->. now apply (lt_irrefl b). Qed.

End StrOrd.

Notation "a <s b" := (StrOrd.ltb a b) (at level 70, no associativity).

(** ** [Lab_3-2.cpp]: the record and the tree *)

(** [struct person]; the default arguments of its constructor give the
    record [person()] that [retrieve] returns for a key that is absent. *)
Record person : Type := mkPerson {
  first_name : string;
  last_name : string;
  number : string
}.

Definition NONE : string := "NONE"%string.
Definition person_default : person := mkPerson NONE NONE NONE.

(** [struct tNode], fields in the order of the source. *)
Inductive tNode : Type :=
| nullptr : tNode
| Node (left right : tNode) (val : person) (height : Z) : tNode.

(** [tNode(person p)]: a leaf of height 1. *)
Definition new_tNode (p : person) : tNode := Node nullptr nullptr p 1.

(** [node->val] of a node that is known not to be null. *)
Definition val_of (node : tNode) : person :=
  match node with
  | nullptr => person_default
  | Node _ _ v _ => v
  end.

(** [AVL::height]: the cached height, 0 for the null pointer. *)
Definition height (node : tNode) : Z :=
  match node with
  | nullptr => 0
  | Node _ _ _ h => h
  end.

(** [AVL::getBalance]. *)
Definition getBalance (node : tNode) : Z :=
  match node with
  | nullptr => 0
  | Node l r _ _ => height l - height r
  end.

(** [(hl > hr ? hl : hr)]. *)
Definition larger (hl hr : Z) : Z := if hl >? hr then hl else hr.

(** [AVL::rotateRight].  [x = y->left] becomes the root.  The height of
    [y] is recomputed first, from its two final children, and the height
    of [x] after it.

    The source reads [y->left->right]: on a node without a left child it
    has no result, it reads through a null pointer.  The function is the
    rotation of the nodes that have the child ([has_left]) and gives the
    node back elsewhere, where nothing below relies on it: [balance]
    rotates only a node with the child present as soon as the two
    subtrees of the node cache heights of at least 1 (lemma
    [balance_derefs_nodes]), and every node that the operations of the
    class hand to [balance] has such subtrees. *)
Definition rotateRight (y : tNode) : tNode :=
  match y with
  | Node (Node xl T2 xv xh) yr yv yh =>
      let y' := Node T2 yr yv (larger (height T2) (height yr) + 1) in
      Node xl y' xv (larger (height xl) (height y') + 1)
  | _ => y
  end.

(** [AVL::rotateLeft].  [y = x->right] becomes the root.  As in the
    source the height of [y] is assigned first: at that moment
    [y->left] is already [x], whose cached height is still the one it had
    on entry ([xh]); the height of [x] is recomputed only afterwards.

    The source reads [x->right->left]; as for [rotateRight], the
    function is the rotation of the nodes that have the right child
    ([has_right]) and is relied on for those only. *)
Definition rotateLeft (x : tNode) : tNode :=
  match x with
  | Node xl (Node T2 yr yv yh) xv xh =>
      let yh' := larger xh (height yr) + 1 in
      let x' := Node xl T2 xv (larger (height xl) (height T2) + 1) in
      Node x' yr yv yh'
  | _ => x
  end.

(** [AVL::balance]. *)
Definition balance (node : tNode) : tNode :=
  match node with
  | nullptr => nullptr
  | Node l r v h =>
      let balanceFactor := getBalance node in
      if balanceFactor >? 1 then
        if getBalance l >=? 0 then rotateRight node
        else rotateRight (Node (rotateLeft l) r v h)
      else if balanceFactor <? -1 then
        if getBalance r <=? 0 then rotateLeft node
        else rotateLeft (Node l (rotateRight r) v h)
      else node
  end.

(** The three closing lines shared by [insertRec], [removeRec] and
    [removeRecFL]: [node->height = 1 + max(hl, hr); return balance(node);]. *)
Definition updateAndBalance (node : tNode) : tNode :=
  match node with
  | nullptr => nullptr
  | Node l r v _ => balance (Node l r v (1 + larger (height l) (height r)))
  end.

Definition already_present : string := "Already present, no insert."%string.
Definition node_not_found : string := "Node not found!"%string.

(** [AVL::insertRec]: the new subtree and the lines written to [cout]. *)
Fixpoint insertRec (node : tNode) (v : person) : tNode * list string :=
  match node with
  | nullptr => (new_tNode v, [])
  | Node l r val h =>
      if number v <s number val then
        let (l', out) := insertRec l v in
        (updateAndBalance (Node l' r val h), out)
      else if number val <s number v then
        let (r', out) := insertRec r v in
        (updateAndBalance (Node l r' val h), out)
      else (node, [already_present])
  end.

(** [AVL::retrieveRec]. *)
Fixpoint retrieveRec (node : tNode) (v : string) : person :=
  match node with
  | nullptr => person_default
  | Node l r val _ =>
      if String.eqb v (number val) then val
      else if v <s number val then retrieveRec l v
      else retrieveRec r v
  end.

(** [AVL::findMin]: the leftmost node of a non-null subtree. *)
Fixpoint findMin (node : tNode) : tNode :=
  match node with
  | Node (Node _ _ _ _ as l) _ _ _ => findMin l
  | _ => node
  end.

(** [AVL::removeRec].  With at most one child the node takes over the
    content of that child ([*node = *temp]) and the closing lines then
    run on it; with two children the value of the in-order successor is
    copied and the successor removed from the right subtree by its key. *)
Fixpoint removeRec (node : tNode) (v : string) : tNode * list string :=
  match node with
  | nullptr => (nullptr, [node_not_found])
  | Node l r val h =>
      if v <s number val then
        let (l', out) := removeRec l v in
        (updateAndBalance (Node l' r val h), out)
      else if number val <s v then
        let (r', out) := removeRec r v in
        (updateAndBalance (Node l r' val h), out)
      else
        match l, r with
        | nullptr, _ => (updateAndBalance r, [])
        | _, nullptr => (updateAndBalance l, [])
        | _, _ =>
            let temp := findMin r in
            let (r', out) := removeRec r (number (val_of temp)) in
            (updateAndBalance (Node l r' (val_of temp) h), out)
        end
  end.

(** The public interface of [class AVL]; the tree is its [head]. *)
Definition insert (head : tNode) (v : person) : tNode * list string :=
  insertRec head v.
Definition retrieve (head : tNode) (t : string) : person :=
  retrieveRec head t.
Definition remove (head : tNode) (t : string) : tNode * list string :=
  removeRec head t.

(** ** In-order content, ordering and the positivity of cached heights *)

(** Left subtree, node, right subtree: the order in which [printHelp]
    visits the nodes. *)
Fixpoint inorder (node : tNode) : list person :=
  match node with
  | nullptr => []
  | Node l r v _ => inorder l ++ v :: inorder r
  end.

Definition keys (node : tNode) : list string := map number (inorder node).

(** The keys of a list of records increase strictly. *)
Definition sorted (l : list person) : Prop :=
  StronglySorted StrOrd.lt (map number l).

(** Search-tree ordering: the in-order keys increase strictly. *)
Definition bst (node : tNode) : Prop := sorted (inorder node).

(** Every node caches a height of at least 1, as [tNode(person)] and the
    height updates of the source establish.  It is what lets [balance]
    conclude from the cached heights that the child it is about to
    rotate around exists. *)
Fixpoint hpos (node : tNode) : Prop :=
  match node with
  | nullptr => True
  | Node l r _ h => hpos l /\ hpos r /\ 1 <= h
  end.

(** The representation invariant of [class AVL] that the lookup and
    update properties rely on. *)
Definition tree_ok (node : tNode) : Prop := bst node /\ hpos node.

(** The balance invariant of the specification, on the cached heights. *)
Fixpoint avl (node : tNode) : Prop :=
  match node with
  | nullptr => True
  | Node l r _ h =>
      avl l /\ avl r /\
      Z.abs (height l - height r) <= 1 /\
      h = 1 + Z.max (height l) (height r)
  end.

Fixpoint avlb (node : tNode) : bool :=
  match node with
  | nullptr => true
  | Node l r _ h =>
      avlb l && avlb r &&
      (Z.abs (height l - height r) <=? 1) &&
      (h =? 1 + Z.max (height l) (height r))
  end.

(** The height of the tree as a shape, whatever the nodes cache. *)
Fixpoint depth (node : tNode) : Z :=
  match node with
  | nullptr => 0
  | Node l r _ _ => 1 + Z.max (depth l) (depth r)
  end.

Fixpoint size (node : tNode) : nat :=
  match node with
  | nullptr => O
  | Node l r _ _ => S (size l + size r)
  end.

(** *** Sorted lists of records: insertion, deletion and lookup by key *)

Fixpoint ins_list (v : person) (l : list person) : list person :=
  match l with
  | [] => [v]
  | a :: l' =>
      if number v <s number a then v :: l
      else if number a <s number v then a :: ins_list v l'
      else l
  end.

Definition del_list (k : string) (l : list person) : list person :=
  filter (fun p => negb (String.eqb k (number p))) l.

Definition lookup_list (k : string) (l : list person) : person :=
  match find (fun p => String.eqb k (number p)) l with
  | Some p => p
  | None => person_default
  end.

Section SortedLists.

Implicit Types (l : list person) (v a : person) (k : string).

Lemma larger_max (hl hr : Z) : larger hl hr = Z.max hl hr.
Proof. unfold larger. destruct (Z.gtb_spec hl hr); lia. Qed.

Lemma sorted_nil : sorted [].
Proof. constructor. Qed.

Lemma sorted_cons_iff a l :
  sorted (a :: l) <->
  sorted l /\ Forall (fun p => StrOrd.lt (number a) (number p)) l.
Proof.
  unfold sorted. simpl. split.
  - intros H. inversion H; subst. split; [assumption|].
    now rewrite Forall_map in *.
  - intros [H1 H2]. constructor; [assumption|]. now rewrite Forall_map.
Qed.

Lemma sorted_app_iff l1 a l2 :
  sorted (l1 ++ a :: l2) <->
  sorted l1 /\ sorted l2 /\
  Forall (fun p => StrOrd.lt (number p) (number a)) l1 /\
  Forall (fun p => StrOrd.lt (number a) (number p)) l2.
Proof.
  induction l1 as [|b l1 IH]; simpl.
  - rewrite sorted_cons_iff. split.
    + intros [H1 H2]. repeat split; auto using sorted_nil.
    + intros (_ & H1 & _ & H2). auto.
  - rewrite !sorted_cons_iff, IH, Forall_app, !Forall_cons_iff. split.
    + intros ((H1 & H2 & H3 & H4) & H5 & H6 & H7). repeat split; auto.
    + intros ((H1 & H2) & H3 & (H4 & H5) & H6). repeat split; auto.
      eapply Forall_impl; [|exact H6]. simpl. intros p Hp.
      now apply StrOrd.lt_trans with (number a).
Qed.

Lemma sorted_app l1 l2 :
  sorted (l1 ++ l2) -> sorted l1 /\ sorted l2.
Proof.
  destruct l2 as [|a l2].
  - rewrite app_nil_r. auto using sorted_nil.
  - rewrite sorted_app_iff. intros (H1 & H2 & H3 & H4). split; [assumption|].
    now apply sorted_cons_iff.
Qed.

Lemma ins_list_In v l p : In p (ins_list v l) -> p = v \/ In p l.
Proof.
  induction l as [|a l IH]; simpl.
  - intuition.
  - destruct (number v <s number a); [simpl; intuition|].
    destruct (number a <s number v); simpl; intuition.
Qed.

Lemma sorted_ins_list v l : sorted l -> sorted (ins_list v l).
Proof.
  induction l as [|a l IH]; simpl; intros Hs.
  - apply sorted_cons_iff. split; [apply sorted_nil|constructor].
  - destruct (number v <s number a) eqn:E1.
    + apply sorted_cons_iff. split; [assumption|].
      apply sorted_cons_iff in Hs. destruct Hs as [_ Hs].
      constructor; [exact E1|].
      eapply Forall_impl; [|exact Hs]. simpl. intros p Hp.
      now apply StrOrd.lt_trans with (number a).
    + destruct (number a <s number v) eqn:E2; [|assumption].
      apply sorted_cons_iff in Hs. destruct Hs as [Hs Ha].
      apply sorted_cons_iff. split; [auto|].
      apply Forall_forall. intros p Hp.
      apply ins_list_In in Hp. destruct Hp as [->|Hp]; [exact E2|].
      rewrite Forall_forall in Ha. auto.
Qed.

Lemma ins_list_below v l :
  Forall (fun p => StrOrd.lt (number p) (number v)) l ->
  ins_list v l = l ++ [v].
Proof.
  induction l as [|a l IH]; simpl; [reflexivity|].
  intros H. apply Forall_cons_iff in H. destruct H as [Ha Hl].
  rewrite (StrOrd.lt_asym _ _ Ha), Ha, IH; auto.
Qed.

Lemma ins_list_app_lt v l1 a l2 :
  sorted (l1 ++ a :: l2) -> (number v <s number a) = true ->
  ins_list v (l1 ++ a :: l2) = ins_list v l1 ++ a :: l2.
Proof.
  induction l1 as [|b l1 IH]; simpl; intros Hs Hlt.
  - now rewrite Hlt.
  - apply sorted_cons_iff in Hs. destruct Hs as [Hs _].
    destruct (number v <s number b); [reflexivity|].
    destruct (number b <s number v); [|reflexivity].
    simpl. now rewrite IH.
Qed.

Lemma ins_list_app_gt v l1 a l2 :
  sorted (l1 ++ a :: l2) -> (number a <s number v) = true ->
  ins_list v (l1 ++ a :: l2) = l1 ++ a :: ins_list v l2.
Proof.
  induction l1 as [|b l1 IH]; simpl; intros Hs Hlt.
  - now rewrite (StrOrd.lt_asym _ _ Hlt), Hlt.
  - apply sorted_cons_iff in Hs. destruct Hs as [Hs Hb].
    assert (Hba : StrOrd.lt (number b) (number a)).
    { rewrite Forall_forall in Hb. apply Hb. apply in_or_app. right. now left. }
    assert (Hbv : StrOrd.lt (number b) (number v))
      by now apply StrOrd.lt_trans with (number a).
    rewrite (StrOrd.lt_asym _ _ Hbv), Hbv, IH; auto.
Qed.

Lemma ins_list_app_eq v l1 a l2 :
  sorted (l1 ++ a :: l2) ->
  (number v <s number a) = false -> (number a <s number v) = false ->
  ins_list v (l1 ++ a :: l2) = l1 ++ a :: l2.
Proof.
  intros Hs H1 H2.
  assert (E : number v = number a) by now apply StrOrd.ltb_total.
  induction l1 as [|b l1 IH]; simpl.
  - now rewrite H1, H2.
  - simpl in Hs. apply sorted_cons_iff in Hs. destruct Hs as [Hs Hb].
    assert (Hba : StrOrd.lt (number b) (number v)).
    { rewrite E. rewrite Forall_forall in Hb. apply Hb.
      apply in_or_app. right. now left. }
    rewrite (StrOrd.lt_asym _ _ Hba), Hba, IH; auto.
Qed.

Lemma del_list_app k l1 l2 :
  del_list k (l1 ++ l2) = del_list k l1 ++ del_list k l2.
Proof. apply filter_app. Qed.

Lemma del_list_absent k l :
  ~ In k (map number l) -> del_list k l = l.
Proof.
  induction l as [|a l IH]; simpl; intros H; [reflexivity|].
  destruct (String.eqb_spec k (number a)) as [->|Hne]; simpl.
  - exfalso. apply H. now left.
  - rewrite IH; auto.
Qed.

Lemma del_list_not_In k l : ~ In k (map number (del_list k l)).
Proof.
  unfold del_list. rewrite in_map_iff. intros (p & Hp & Hin).
  apply filter_In in Hin. destruct Hin as [_ Hin].
  subst k. now rewrite String.eqb_refl in Hin.
Qed.

Lemma Forall_lt_not_In k l :
  Forall (fun p => StrOrd.lt k (number p)) l -> ~ In k (map number l).
Proof.
  rewrite Forall_forall, in_map_iff. intros H (p & Hp & Hin).
  apply (StrOrd.lt_irrefl k). rewrite <- Hp at 2. auto.
Qed.

Lemma Forall_gt_not_In k l :
  Forall (fun p => StrOrd.lt (number p) k) l -> ~ In k (map number l).
Proof.
  rewrite Forall_forall, in_map_iff. intros H (p & Hp & Hin).
  apply (StrOrd.lt_irrefl k). rewrite <- Hp at 1. auto.
Qed.

Lemma Forall_lt_trans k k' l :
  StrOrd.lt k k' ->
  Forall (fun p => StrOrd.lt k' (number p)) l ->
  Forall (fun p => StrOrd.lt k (number p)) l.
Proof.
  intros Hk H. eapply Forall_impl; [|exact H]. simpl. intros p Hp.
  now apply StrOrd.lt_trans with k'.
Qed.

Lemma Forall_gt_trans k k' l :
  StrOrd.lt k' k ->
  Forall (fun p => StrOrd.lt (number p) k') l ->
  Forall (fun p => StrOrd.lt (number p) k) l.
Proof.
  intros Hk H. eapply Forall_impl; [|exact H]. simpl. intros p Hp.
  now apply StrOrd.lt_trans with k'.
Qed.

Lemma lookup_list_absent k l :
  ~ In k (map number l) -> lookup_list k l = person_default.
Proof.
  unfold lookup_list. intros H.
  destruct (find _ l) as [p|] eqn:E; [|reflexivity].
  apply find_some in E. destruct E as [Hin E].
  apply String.eqb_eq in E. exfalso. apply H. subst k. now apply in_map.
Qed.

Lemma lookup_list_app_l k l1 l2 :
  ~ In k (map number l2) -> lookup_list k (l1 ++ l2) = lookup_list k l1.
Proof.
  intros H. unfold lookup_list. induction l1 as [|a l1 IH]; simpl.
  - now apply lookup_list_absent.
  - destruct (String.eqb k (number a)); auto.
Qed.

Lemma lookup_list_app_r k l1 l2 :
  ~ In k (map number l1) -> lookup_list k (l1 ++ l2) = lookup_list k l2.
Proof.
  unfold lookup_list. induction l1 as [|a l1 IH]; simpl; intros H; [reflexivity|].
  destruct (String.eqb_spec k (number a)) as [->|Hne].
  - exfalso. apply H. now left.
  - apply IH. tauto.
Qed.

Lemma lookup_list_here k a l : k = number a -> lookup_list k (a :: l) = a.
Proof. intros ->. unfold lookup_list. simpl. now rewrite String.eqb_refl. Qed.

End SortedLists.

(** ** Rotations and rebalancing *)

Section Rebalancing.

Implicit Types (node l r : tNode) (v : person) (h : Z).

(** Rotations move subtrees around a node and keep the in-order
    sequence. *)
Lemma inorder_rotateRight y : inorder (rotateRight y) = inorder y.
Proof.
  destruct y as [|[|xl T2 xv xh] yr yv yh]; simpl; try reflexivity.
  now rewrite <- app_assoc.
Qed.

Lemma inorder_rotateLeft x : inorder (rotateLeft x) = inorder x.
Proof.
  destruct x as [|xl [|T2 yr yv yh] xv xh]; simpl; try reflexivity.
  now rewrite <- app_assoc.
Qed.

Lemma inorder_balance node : inorder (balance node) = inorder node.
Proof.
  destruct node as [|l r v h]; [reflexivity|]. unfold balance.
  destruct (getBalance (Node l r v h) >? 1).
  - destruct (getBalance l >=? 0); rewrite inorder_rotateRight; [reflexivity|].
    simpl. now rewrite inorder_rotateLeft.
  - destruct (getBalance (Node l r v h) <? -1); [|reflexivity].
    destruct (getBalance r <=? 0); rewrite inorder_rotateLeft; [reflexivity|].
    simpl. now rewrite inorder_rotateRight.
Qed.

Lemma inorder_updateAndBalance node :
  inorder (updateAndBalance node) = inorder node.
Proof.
  destruct node as [|l r v h]; [reflexivity|].
  unfold updateAndBalance. now rewrite inorder_balance.
Qed.

Lemma height_nonneg node : hpos node -> 0 <= height node.
Proof. destruct node; simpl; lia. Qed.

Lemma hpos_rotateRight y : hpos y -> hpos (rotateRight y).
Proof.
  destruct y as [|[|xl T2 xv xh] yr yv yh]; simpl; auto.
  intros ((Hxl & HT2 & Hxh) & Hyr & Hyh).
  pose proof (height_nonneg _ Hxl). pose proof (height_nonneg _ HT2).
  pose proof (height_nonneg _ Hyr). rewrite !larger_max.
  repeat split; auto; lia.
Qed.

Lemma hpos_rotateLeft x : hpos x -> hpos (rotateLeft x).
Proof.
  destruct x as [|xl [|T2 yr yv yh] xv xh]; simpl; auto.
  intros (Hxl & (HT2 & Hyr & Hyh) & Hxh).
  pose proof (height_nonneg _ Hxl). pose proof (height_nonneg _ HT2).
  pose proof (height_nonneg _ Hyr). rewrite !larger_max.
  repeat split; auto; lia.
Qed.

Lemma hpos_balance node : hpos node -> hpos (balance node).
Proof.
  destruct node as [|l r v h]; [auto|]. intros H. unfold balance.
  destruct (getBalance (Node l r v h) >? 1).
  - destruct (getBalance l >=? 0); apply hpos_rotateRight; [assumption|].
    simpl in *. intuition auto using hpos_rotateLeft.
  - destruct (getBalance (Node l r v h) <? -1); [|assumption].
    destruct (getBalance r <=? 0); apply hpos_rotateLeft; [assumption|].
    simpl in *. intuition auto using hpos_rotateRight.
Qed.

(** The height update needs only the children: the height it
    overwrites may be anything. *)
Lemma hpos_updateAndBalance l r v h :
  hpos l -> hpos r -> hpos (updateAndBalance (Node l r v h)).
Proof.
  intros Hl Hr. unfold updateAndBalance. apply hpos_balance. cbn [hpos].
  pose proof (height_nonneg _ Hl). pose proof (height_nonneg _ Hr).
  rewrite larger_max. repeat split; auto; lia.
Qed.

Lemma hpos_updateAndBalance_node node :
  hpos node -> hpos (updateAndBalance node).
Proof.
  destruct node as [|l r v h]; [auto|].
  intros (Hl & Hr & _). now apply hpos_updateAndBalance.
Qed.

(** *** No null pointer is dereferenced while rebalancing *)

(** [rotateRight(y)] reads [y->left->right], [rotateLeft(x)] reads
    [x->right->left]. *)
Definition has_left (y : tNode) : Prop :=
  match y with
  | Node (Node _ _ _ _) _ _ _ => True
  | _ => False
  end.

Definition has_right (x : tNode) : Prop :=
  match x with
  | Node _ (Node _ _ _ _) _ _ => True
  | _ => False
  end.

(** The rotations that [balance(node)] performs, each with the child
    it dereferences. *)
Definition balance_derefs (node : tNode) : Prop :=
  match node with
  | nullptr => False
  | Node l r v h =>
      if getBalance node >? 1 then
        if getBalance l >=? 0 then has_left node
        else has_right l /\ has_left (Node (rotateLeft l) r v h)
      else if getBalance node <? -1 then
        if getBalance r <=? 0 then has_right node
        else has_left r /\ has_right (Node l (rotateRight r) v h)
      else True
  end.

Lemma balance_derefs_nodes l r v h :
  hpos l -> hpos r -> balance_derefs (Node l r v h).
Proof.
  intros Hl Hr. unfold balance_derefs.
  pose proof (height_nonneg _ Hl) as Gl. pose proof (height_nonneg _ Hr) as Gr.
  destruct (Z.gtb_spec (getBalance (Node l r v h)) 1) as [Hb|Hb].
  - destruct l as [|ll lr lv lh]; simpl in *; [lia|].
    destruct Hl as (Hll & Hlr & Hlh).
    destruct (Z.geb_spec (height ll - height lr) 0) as [Hc|Hc]; [exact I|].
    pose proof (height_nonneg _ Hll).
    destruct lr as [|lrl lrr lrv lrh]; simpl in *; [lia|]. auto.
  - destruct (Z.ltb_spec (getBalance (Node l r v h)) (-1)) as [Hd|Hd]; [|exact I].
    destruct r as [|rl rr rv rh]; simpl in *; [lia|].
    destruct Hr as (Hrl & Hrr & Hrh).
    destruct (Z.leb_spec (height rl - height rr) 0) as [Hc|Hc]; [exact I|].
    pose proof (height_nonneg _ Hrr).
    destruct rl as [|rll rlr rlv rlh]; simpl in *; [lia|]. auto.
Qed.

End Rebalancing.

(** ** Insertion, lookup and removal against the sorted in-order list *)

Arguments balance : simpl never.
Arguments updateAndBalance : simpl never.

Section TreeOperations.

Implicit Types (node l r : tNode) (v : person) (k : string).

Lemma bst_node l r v h :
  bst (Node l r v h) <->
  bst l /\ bst r /\
  Forall (fun p => StrOrd.lt (number p) (number v)) (inorder l) /\
  Forall (fun p => StrOrd.lt (number v) (number p)) (inorder r).
Proof. unfold bst. simpl. apply sorted_app_iff. Qed.

Lemma inorder_insertRec node v :
  bst node -> inorder (fst (insertRec node v)) = ins_list v (inorder node).
Proof.
  induction node as [|l IHl r IHr val h]; intros Hb; [reflexivity|].
  pose proof Hb as Hs. apply bst_node in Hb. destruct Hb as (Hl & Hr & _ & _).
  simpl. destruct (number v <s number val) eqn:E1.
  - destruct (insertRec l v) as [l' out] eqn:El. simpl.
    rewrite inorder_updateAndBalance. simpl.
    specialize (IHl Hl). simpl in IHl.
    now rewrite IHl, ins_list_app_lt.
  - destruct (number val <s number v) eqn:E2.
    + destruct (insertRec r v) as [r' out] eqn:Er. simpl.
      rewrite inorder_updateAndBalance. simpl.
      specialize (IHr Hr). simpl in IHr.
      now rewrite IHr, ins_list_app_gt.
    + simpl. now rewrite ins_list_app_eq.
Qed.

Lemma bst_insertRec node v : bst node -> bst (fst (insertRec node v)).
Proof.
  intros H. unfold bst. rewrite inorder_insertRec by assumption.
  now apply sorted_ins_list.
Qed.

Lemma hpos_insertRec node v : hpos node -> hpos (fst (insertRec node v)).
Proof.
  induction node as [|l IHl r IHr val h]; intros H.
  - simpl. lia.
  - pose proof H as (Hl & Hr & Hh). simpl.
    destruct (number v <s number val).
    + destruct (insertRec l v) as [l' out]. simpl in *.
      apply hpos_updateAndBalance; auto.
    + destruct (number val <s number v).
      * destruct (insertRec r v) as [r' out]. simpl in *.
        apply hpos_updateAndBalance; auto.
      * exact H.
Qed.

(** What [insertRec] writes: the duplicate notice exactly when the key
    is stored already. *)
Lemma output_insertRec_present node v :
  bst node -> In (number v) (keys node) ->
  snd (insertRec node v) = [already_present].
Proof.
  unfold keys.
  induction node as [|l IHl r IHr val h]; intros Hb Hin; [contradiction|].
  apply bst_node in Hb. destruct Hb as (Hl & Hr & Hlt & Hgt).
  simpl in Hin. rewrite map_app in Hin. simpl in Hin.
  simpl. destruct (number v <s number val) eqn:E1.
  - destruct (insertRec l v) as [l' out] eqn:El. simpl.
    apply IHl; [assumption|].
    apply in_app_or in Hin. destruct Hin as [Hin|[Hin|Hin]]; [assumption| |].
    + rewrite Hin in E1. now rewrite StrOrd.ltb_irrefl in E1.
    + exfalso. apply (Forall_lt_not_In (number v) (inorder r)); [|assumption].
      now apply Forall_lt_trans with (number val).
  - destruct (number val <s number v) eqn:E2; [|reflexivity].
    destruct (insertRec r v) as [r' out] eqn:Er. simpl.
    apply IHr; [assumption|].
    apply in_app_or in Hin. destruct Hin as [Hin|[Hin|Hin]]; [| |assumption].
    + exfalso. apply (Forall_gt_not_In (number v) (inorder l)); [|assumption].
      now apply Forall_gt_trans with (number val).
    + rewrite Hin in E2. now rewrite StrOrd.ltb_irrefl in E2.
Qed.

Lemma output_insertRec_absent node v :
  ~ In (number v) (keys node) -> snd (insertRec node v) = [].
Proof.
  unfold keys.
  induction node as [|l IHl r IHr val h]; intros Hin; [reflexivity|].
  simpl in Hin. rewrite map_app, in_app_iff in Hin. simpl in Hin.
  simpl. destruct (number v <s number val) eqn:E1.
  - destruct (insertRec l v) as [l' out] eqn:El. simpl.
    apply IHl. tauto.
  - destruct (number val <s number v) eqn:E2.
    + destruct (insertRec r v) as [r' out] eqn:Er. simpl.
      apply IHr. tauto.
    + exfalso. apply Hin. right. left. symmetry. now apply StrOrd.ltb_total.
Qed.

Lemma retrieveRec_lookup node k :
  bst node -> retrieveRec node k = lookup_list k (inorder node).
Proof.
  induction node as [|l IHl r IHr val h]; intros Hb; [reflexivity|].
  apply bst_node in Hb. destruct Hb as (Hl & Hr & Hlt & Hgt).
  simpl. destruct (String.eqb_spec k (number val)) as [E|E].
  - rewrite lookup_list_app_r, lookup_list_here; auto.
    subst k. now apply Forall_gt_not_In.
  - destruct (k <s number val) eqn:E1.
    + rewrite IHl by assumption. symmetry. apply lookup_list_app_l.
      simpl. intros [H|H]; [congruence|].
      apply (Forall_lt_not_In k (inorder r)); [|assumption].
      now apply Forall_lt_trans with (number val).
    + assert (E2 : StrOrd.lt (number val) k).
      { unfold StrOrd.lt. destruct (number val <s k) eqn:E2; [reflexivity|].
        exfalso. apply E. now apply StrOrd.ltb_total. }
      rewrite IHr by assumption. symmetry.
      rewrite lookup_list_app_r.
      * unfold lookup_list. simpl.
        destruct (String.eqb_spec k (number val)); [contradiction|reflexivity].
      * apply Forall_gt_not_In. now apply Forall_gt_trans with (number val).
Qed.

End TreeOperations.

Section Removal.

Implicit Types (node l r : tNode) (v : person) (k : string).

Lemma removeRec_node l r val h k :
  removeRec (Node l r val h) k =
  if k <s number val then
    let (l', out) := removeRec l k in
    (updateAndBalance (Node l' r val h), out)
  else if number val <s k then
    let (r', out) := removeRec r k in
    (updateAndBalance (Node l r' val h), out)
  else
    match l, r with
    | nullptr, _ => (updateAndBalance r, [])
    | _, nullptr => (updateAndBalance l, [])
    | _, _ =>
        let temp := findMin r in
        let (r', out) := removeRec r (number (val_of temp)) in
        (updateAndBalance (Node l r' (val_of temp) h), out)
    end.
Proof. reflexivity. Qed.

Lemma inorder_node l r val h :
  inorder (Node l r val h) = inorder l ++ val :: inorder r.
Proof. reflexivity. Qed.

(** The in-order successor found by [findMin] is the first record of
    the subtree. *)
Lemma findMin_inorder r :
  r <> nullptr -> exists tl, inorder r = val_of (findMin r) :: tl.
Proof.
  induction r as [|l IHl r' _ v h]; intros H; [contradiction|].
  destruct l as [|ll lr lv lh].
  - simpl. eauto.
  - destruct IHl as [tl Htl]; [discriminate|].
    change (findMin (Node (Node ll lr lv lh) r' v h))
      with (findMin (Node ll lr lv lh)).
    rewrite inorder_node, Htl. simpl. eauto.
Qed.

Lemma del_list_head (a : person) (tl : list person) :
  sorted (a :: tl) -> del_list (number a) (a :: tl) = tl.
Proof.
  intros H. apply sorted_cons_iff in H. destruct H as [_ H].
  unfold del_list. simpl. rewrite String.eqb_refl. simpl.
  apply del_list_absent. now apply Forall_lt_not_In.
Qed.

Lemma del_list_node k (l1 : list person) (a : person) (l2 : list person) :
  sorted (l1 ++ a :: l2) -> k = number a ->
  del_list k (l1 ++ a :: l2) = l1 ++ l2.
Proof.
  intros Hs ->. apply sorted_app_iff in Hs. destruct Hs as (_ & _ & H1 & H2).
  rewrite del_list_app. unfold del_list at 2. simpl.
  rewrite String.eqb_refl. simpl. f_equal.
  - apply del_list_absent. now apply Forall_gt_not_In.
  - apply del_list_absent. now apply Forall_lt_not_In.
Qed.

Lemma inorder_removeRec node k :
  bst node -> inorder (fst (removeRec node k)) = del_list k (inorder node).
Proof.
  revert k. induction node as [|l IHl r IHr val h]; intros k Hb; [reflexivity|].
  pose proof Hb as Hs. unfold bst in Hs. rewrite inorder_node in Hs.
  apply bst_node in Hb. destruct Hb as (Hl & Hr & Hlt & Hgt).
  rewrite removeRec_node. destruct (k <s number val) eqn:E1.
  - specialize (IHl k Hl). destruct (removeRec l k) as [l' out]. cbn [fst] in *.
    rewrite inorder_updateAndBalance, !inorder_node, del_list_app, IHl.
    f_equal. symmetry. apply del_list_absent. simpl. intros [H|H].
    + rewrite <- H in E1. now rewrite StrOrd.ltb_irrefl in E1.
    + apply (Forall_lt_not_In k (inorder r)); [|assumption].
      now apply Forall_lt_trans with (number val).
  - destruct (number val <s k) eqn:E2.
    + specialize (IHr k Hr). destruct (removeRec r k) as [r' out]. cbn [fst] in *.
      rewrite inorder_updateAndBalance, !inorder_node, del_list_app, IHr.
      f_equal.
      * symmetry. apply del_list_absent. apply Forall_gt_not_In.
        now apply Forall_gt_trans with (number val).
      * unfold del_list at 2. simpl.
        destruct (String.eqb_spec k (number val)) as [E|E]; [|reflexivity].
        rewrite E in E2. now rewrite StrOrd.ltb_irrefl in E2.
    + assert (E : k = number val) by now apply StrOrd.ltb_total.
      rewrite inorder_node, (del_list_node k _ _ _ Hs E).
      destruct l as [|ll lr lv lh].
      * cbn [fst]. now rewrite inorder_updateAndBalance.
      * remember (Node ll lr lv lh) as L eqn:EL.
        destruct r as [|rl rr rv rh].
        -- rewrite EL. cbn [fst]. rewrite inorder_updateAndBalance.
           simpl. now rewrite app_nil_r.
        -- remember (Node rl rr rv rh) as R eqn:ER. rewrite EL. rewrite <- EL.
           cbv zeta. destruct (findMin_inorder R) as [tl Htl]; [subst R; discriminate|].
           specialize (IHr (number (val_of (findMin R))) Hr).
           destruct (removeRec R (number (val_of (findMin R)))) as [r' out].
           cbn [fst] in *.
           rewrite inorder_updateAndBalance, inorder_node, IHr, Htl.
           rewrite del_list_head; [reflexivity|].
           unfold bst in Hr. now rewrite Htl in Hr.
Qed.

Lemma bst_removeRec node k : bst node -> bst (fst (removeRec node k)).
Proof.
  intros H. unfold bst. rewrite inorder_removeRec by assumption.
  unfold bst, sorted in H. unfold sorted, del_list.
  induction (inorder node) as [|a l IH]; simpl; [constructor|].
  simpl in H. inversion H as [|? ? Hl Ha]; subst.
  destruct (negb (String.eqb k (number a))); [|auto].
  simpl. constructor; [auto|].
  rewrite Forall_map in *. rewrite Forall_forall in *.
  intros p Hp. apply Ha. apply filter_In in Hp. tauto.
Qed.

Lemma hpos_removeRec node k : hpos node -> hpos (fst (removeRec node k)).
Proof.
  revert k. induction node as [|l IHl r IHr val h]; intros k H; [exact I|].
  pose proof H as (Hl & Hr & Hh). rewrite removeRec_node.
  destruct (k <s number val).
  - specialize (IHl k Hl). destruct (removeRec l k) as [l' out].
    cbn [fst] in *. now apply hpos_updateAndBalance.
  - destruct (number val <s k).
    + specialize (IHr k Hr). destruct (removeRec r k) as [r' out].
      cbn [fst] in *. now apply hpos_updateAndBalance.
    + destruct l as [|ll lr lv lh].
      * cbn [fst]. now apply hpos_updateAndBalance_node.
      * destruct r as [|rl rr rv rh].
        -- cbn [fst]. now apply hpos_updateAndBalance_node.
        -- cbv zeta.
           specialize (IHr (number (val_of (findMin (Node rl rr rv rh)))) Hr).
           destruct (removeRec (Node rl rr rv rh) _) as [r' out].
           cbn [fst] in *. now apply hpos_updateAndBalance.
Qed.

(** What [removeRec] writes: the not-found notice exactly when the key
    is absent. *)
Lemma output_removeRec_absent node k :
  ~ In k (keys node) -> snd (removeRec node k) = [node_not_found].
Proof.
  unfold keys.
  induction node as [|l IHl r IHr val h]; intros Hin; [reflexivity|].
  rewrite inorder_node, map_app, in_app_iff in Hin. simpl in Hin.
  rewrite removeRec_node. destruct (k <s number val) eqn:E1.
  - destruct (removeRec l k) as [l' out]. cbn [snd] in *. apply IHl. tauto.
  - destruct (number val <s k) eqn:E2.
    + destruct (removeRec r k) as [r' out]. cbn [snd] in *. apply IHr. tauto.
    + exfalso. apply Hin. right. left. symmetry. now apply StrOrd.ltb_total.
Qed.

Lemma output_removeRec_present node k :
  bst node -> In k (keys node) -> snd (removeRec node k) = [].
Proof.
  unfold keys. revert k.
  induction node as [|l IHl r IHr val h]; intros k Hb Hin; [contradiction|].
  apply bst_node in Hb. destruct Hb as (Hl & Hr & Hlt & Hgt).
  rewrite inorder_node, map_app, in_app_iff in Hin. simpl in Hin.
  rewrite removeRec_node. destruct (k <s number val) eqn:E1.
  - specialize (IHl k Hl). destruct (removeRec l k) as [l' out].
    cbn [snd] in *. apply IHl.
    destruct Hin as [Hin|[Hin|Hin]]; [assumption| |].
    + rewrite <- Hin in E1. now rewrite StrOrd.ltb_irrefl in E1.
    + exfalso. apply (Forall_lt_not_In k (inorder r)); [|assumption].
      now apply Forall_lt_trans with (number val).
  - destruct (number val <s k) eqn:E2.
    + specialize (IHr k Hr). destruct (removeRec r k) as [r' out].
      cbn [snd] in *. apply IHr.
      destruct Hin as [Hin|[Hin|Hin]]; [| |assumption].
      * exfalso. apply (Forall_gt_not_In k (inorder l)); [|assumption].
        now apply Forall_gt_trans with (number val).
      * rewrite <- Hin in E2. now rewrite StrOrd.ltb_irrefl in E2.
    + destruct l as [|ll lr lv lh]; [reflexivity|].
      destruct r as [|rl rr rv rh]; [reflexivity|].
      cbv zeta. remember (Node rl rr rv rh) as R eqn:ER.
      destruct (findMin_inorder R) as [tl Htl]; [subst R; discriminate|].
      specialize (IHr (number (val_of (findMin R))) Hr).
      destruct (removeRec R (number (val_of (findMin R)))) as [r' out].
      cbn [snd] in *. apply IHr. rewrite Htl. now left.
Qed.

(** On a node that obeys the balance invariant the closing lines of
    the update functions change nothing. *)
Lemma updateAndBalance_avl node : avl node -> updateAndBalance node = node.
Proof.
  destruct node as [|l r v h]; [reflexivity|].
  cbn [avl]. intros (_ & _ & Hb & Hh).
  unfold updateAndBalance, balance. rewrite larger_max, <- Hh.
  cbn [getBalance].
  destruct (Z.gtb_spec (height l - height r) 1); [lia|].
  destruct (Z.ltb_spec (height l - height r) (-1)); [lia|reflexivity].
Qed.

Lemma insertRec_present_avl node v :
  bst node -> avl node -> In (number v) (keys node) ->
  fst (insertRec node v) = node.
Proof.
  unfold keys.
  induction node as [|l IHl r IHr val h]; intros Hb Ha Hin; [contradiction|].
  pose proof Ha as (Hal & Har & _). pose proof Hb as Hb'.
  apply bst_node in Hb'. destruct Hb' as (Hl & Hr & Hlt & Hgt).
  rewrite inorder_node, map_app, in_app_iff in Hin. simpl in Hin.
  simpl. destruct (number v <s number val) eqn:E1.
  - destruct (insertRec l v) as [l' out]. cbn [fst] in *.
    rewrite IHl; auto using updateAndBalance_avl.
    destruct Hin as [Hin|[Hin|Hin]]; [assumption| |].
    + rewrite Hin in E1. now rewrite StrOrd.ltb_irrefl in E1.
    + exfalso. apply (Forall_lt_not_In (number v) (inorder r)); [|assumption].
      now apply Forall_lt_trans with (number val).
  - destruct (number val <s number v) eqn:E2; [|reflexivity].
    destruct (insertRec r v) as [r' out]. cbn [fst] in *.
    rewrite IHr; auto using updateAndBalance_avl.
    destruct Hin as [Hin|[Hin|Hin]]; [| |assumption].
    + exfalso. apply (Forall_gt_not_In (number v) (inorder l)); [|assumption].
      now apply Forall_gt_trans with (number val).
    + rewrite Hin in E2. now rewrite StrOrd.ltb_irrefl in E2.
Qed.

Lemma removeRec_absent_avl node k :
  avl node -> ~ In k (keys node) -> fst (removeRec node k) = node.
Proof.
  unfold keys.
  induction node as [|l IHl r IHr val h]; intros Ha Hin; [reflexivity|].
  pose proof Ha as (Hal & Har & _).
  rewrite inorder_node, map_app, in_app_iff in Hin. simpl in Hin.
  rewrite removeRec_node. destruct (k <s number val) eqn:E1.
  - destruct (removeRec l k) as [l' out]. cbn [fst] in *.
    rewrite IHl; auto using updateAndBalance_avl.
  - destruct (number val <s k) eqn:E2.
    + destruct (removeRec r k) as [r' out]. cbn [fst] in *.
      rewrite IHr; auto using updateAndBalance_avl.
    + exfalso. apply Hin. right. left. symmetry. now apply StrOrd.ltb_total.
Qed.

End Removal.

(** ** Runs that leave the model *)

(** A run of the source can end outside what the embedding describes:
    by dereferencing a null pointer, by reading a string through a
    reference whose node has been deleted in the meantime, or, for the
    loops and the nested recursion modelled with fuel, by exhausting the
    fuel given to the model. *)
Inductive fault : Type :=
| NullDereference
| StaleReference
| FuelExhausted.

Inductive outcome (A : Type) : Type :=
| Done (a : A)
| Fault (f : fault).

Arguments Done {A} a.
Arguments Fault {A} f.

Definition bind {A B : Type} (m : outcome A) (k : A -> outcome B) : outcome B :=
  match m with
  | Done a => k a
  | Fault f => Fault f
  end.

Notation "x <- m ;; k" := (bind m (fun x => k))
  (at level 61, m at next level, right associativity).

(** ** Removal by first and last name *)

Definition same_name (fn ln : string) (p : person) : bool :=
  String.eqb fn (first_name p) && String.eqb ln (last_name p).

(** *** The node behind a reference

    [removeRecFL] takes its two names by reference, and in its inner
    call the two strings are members of a node of the very subtree the
    call works on.  A node is followed through the tree by its path from
    the root of the subtree. *)
Inductive direction : Type := GoLeft | GoRight.

Definition path : Type := list direction.

Fixpoint subtree_at (node : tNode) (p : path) : tNode :=
  match p, node with
  | [], _ => node
  | GoLeft :: q, Node l _ _ _ => subtree_at l q
  | GoRight :: q, Node _ r _ _ => subtree_at r q
  | _ :: _, nullptr => nullptr
  end.

(** Where [rotateRight(y)] leaves the node that was at [p]: [y] itself
    goes below its left child [x], the right subtree of [x] goes below
    [y]. *)
Definition rotateRight_path (y : tNode) (p : path) : path :=
  match y with
  | Node (Node _ _ _ _) _ _ _ =>
      match p with
      | [] => [GoRight]
      | [GoLeft] => []
      | GoLeft :: GoLeft :: q => GoLeft :: q
      | GoLeft :: GoRight :: q => GoRight :: GoLeft :: q
      | GoRight :: q => GoRight :: GoRight :: q
      end
  | _ => p
  end.

(** Where [rotateLeft(x)] leaves the node that was at [p]. *)
Definition rotateLeft_path (x : tNode) (p : path) : path :=
  match x with
  | Node _ (Node _ _ _ _) _ _ =>
      match p with
      | [] => [GoLeft]
      | [GoRight] => []
      | GoRight :: GoRight :: q => GoRight :: q
      | GoRight :: GoLeft :: q => GoLeft :: GoRight :: q
      | GoLeft :: q => GoLeft :: GoLeft :: q
      end
  | _ => p
  end.

(** Where [balance(node)] leaves the node that was at [p]; the tests are
    those of [balance]. *)
Definition balance_path (node : tNode) (p : path) : path :=
  match node with
  | nullptr => p
  | Node l r v h =>
      let balanceFactor := getBalance node in
      if balanceFactor >? 1 then
        if getBalance l >=? 0 then rotateRight_path node p
        else rotateRight_path (Node (rotateLeft l) r v h)
               match p with
               | GoLeft :: q => GoLeft :: rotateLeft_path l q
               | _ => p
               end
      else if balanceFactor <? -1 then
        if getBalance r <=? 0 then rotateLeft_path node p
        else rotateLeft_path (Node l (rotateRight r) v h)
               match p with
               | GoRight :: q => GoRight :: rotateRight_path r q
               | _ => p
               end
      else p
  end.

(** The same for the closing lines [node->height = ...; return
    balance(node);]. *)
Definition updateAndBalance_path (node : tNode) (p : path) : path :=
  match node with
  | nullptr => p
  | Node l r v _ =>
      balance_path (Node l r v (1 + larger (height l) (height r))) p
  end.

(** What has become of the node whose strings a call of [removeRecFL]
    received by reference, when the call returns: it is a node of the
    subtree returned, or it has been deleted. *)
Inductive referent : Type :=
| At (p : path)
| Deleted.

(** [AVL::removeRecFL].  Both subtrees are processed first, then the
    node itself.  For a matching node with two children the value of the
    in-order successor [temp] is copied into the node and [removeRecFL]
    is called again on the right subtree, with the two names of [temp]
    passed by reference.  That inner call is not on a subterm, hence the
    fuel.

    [removeRecFL fuel node fn ln] is a call whose two strings live
    outside the subtree [node]: the call of [removeFL], and every call
    below it that hands its own [fn] and [ln] on.

    [removeRecFL_ref fuel node] is the inner call
    [removeRecFL(node, temp->val.first_name, temp->val.last_name)] with
    [temp = findMin(node)]: the two strings are those of the leftmost
    node of [node].  The body is the same; what differs is that the
    strings change when their node is overwritten and are gone when it
    is deleted.
    - On the way down the left spine nothing is compared.
    - At [temp] (no left child) the right subtree is processed with the
      names of [temp], which that does not touch; then [temp] is
      compared with itself and matches.  Without a right child left it
      is deleted (lines 198-200, 205).  Otherwise it takes over the
      content of its right child (line 203) and that child is deleted:
      from then on the two strings are the names of that child's record.
    - Each node above [temp] then processes its right subtree and
      compares itself, through the reference.  If the node behind it has
      been deleted, this reads a deleted string: [StaleReference].  If
      the node above matches and has no right child left, its left
      child is copied into it and deleted (lines 203, 205), which
      deletes the node behind the reference exactly when that node is
      the left child itself.
    The node behind the reference is followed by its path; the caller of
    the inner call uses its own strings again and ignores it.  Every
    path reported leads to a node (lemma [removeRecFL_ref_referent]), so
    the one [StaleReference] of the function that is ever returned is
    the read after the deletion. *)
Fixpoint removeRecFL (fuel : nat) (node : tNode) (fn ln : string)
  : outcome tNode :=
  match fuel with
  | O => Fault FuelExhausted
  | S fuel' =>
      match node with
      | nullptr => Done nullptr
      | Node l r val h =>
          l' <- removeRecFL fuel' l fn ln ;;
          r' <- removeRecFL fuel' r fn ln ;;
          if same_name fn ln val then
            match l', r' with
            | nullptr, _ => Done (updateAndBalance r')
            | _, nullptr => Done (updateAndBalance l')
            | _, _ =>
                let temp := findMin r' in
                inner <- removeRecFL_ref fuel' r' ;;
                Done (updateAndBalance (Node l' (fst inner) (val_of temp) h))
            end
          else Done (updateAndBalance (Node l' r' val h))
      end
  end
with removeRecFL_ref (fuel : nat) (node : tNode)
  : outcome (tNode * referent) :=
  match fuel with
  | O => Fault FuelExhausted
  | S fuel' =>
      match node with
      | nullptr => Fault NullDereference
      | Node nullptr r val h =>
          r' <- removeRecFL fuel' r (first_name val) (last_name val) ;;
          match r' with
          | nullptr => Done (nullptr, Deleted)
          | Node _ _ _ _ =>
              Done (updateAndBalance r', At (updateAndBalance_path r' []))
          end
      | Node (Node _ _ _ _ as l) r val h =>
          left <- removeRecFL_ref fuel' l ;;
          match left with
          | (_, Deleted) => Fault StaleReference
          | (l', At p) =>
              match subtree_at l' p with
              | nullptr => Fault StaleReference
              | Node _ _ ref _ =>
                  let fn := first_name ref in
                  let ln := last_name ref in
                  r' <- removeRecFL fuel' r fn ln ;;
                  if same_name fn ln val then
                    match r' with
                    | nullptr =>
                        match p with
                        | [] => Done (updateAndBalance l', Deleted)
                        | _ :: _ =>
                            Done (updateAndBalance l',
                                  At (updateAndBalance_path l' p))
                        end
                    | Node _ _ _ _ =>
                        let temp := findMin r' in
                        inner <- removeRecFL_ref fuel' r' ;;
                        let node' := Node l' (fst inner) (val_of temp) h in
                        Done (updateAndBalance node',
                              At (updateAndBalance_path node' (GoLeft :: p)))
                    end
                  else
                    let node' := Node l' r' val h in
                    Done (updateAndBalance node',
                          At (updateAndBalance_path node' (GoLeft :: p)))
              end
          end
      end
  end.

(** [AVL::removeFL]; the depth of the recursion is bounded by the number
    of nodes (lemma [removeRecFL_fuel]). *)
Definition removeFL (head : tNode) (fn ln : string) : outcome tNode :=
  removeRecFL (S (size head)) head fn ln.

(** ** Printing *)

(** [AVL::printHelp] of [Lab_3-2.cpp].  The result lists the records
    written to [cout], in the order written; the single space is the
    default argument that selects every record.  The function reads
    [node->left] before any test. *)
Fixpoint printHelp (node : tNode) (first : string) : outcome (list person) :=
  match node with
  | nullptr => Fault NullDereference
  | Node l r val _ =>
      before <- match l with
                | nullptr => Done []
                | Node _ _ _ _ => printHelp l first
                end ;;
      after <- match r with
               | nullptr => Done []
               | Node _ _ _ _ => printHelp r first
               end ;;
      Done (before
            ++ (if String.eqb first " " || String.eqb first (first_name val)
                then [val] else [])
            ++ after)
  end.

(** [AVL::printAll] and [AVL::printFN]: both test [head] first. *)
Definition printAll (head : tNode) : outcome (list person) :=
  match head with
  | nullptr => Done []
  | Node _ _ _ _ => printHelp head " "
  end.

Definition printFN (head : tNode) (first : string) : outcome (list person) :=
  match head with
  | nullptr => Done []
  | Node _ _ _ _ => printHelp head first
  end.

(** ** [Lab_3-1.cpp]: the printing path of the tree of doubles *)

Module Lab3_1.

Section Printing.

(** The values are [double]s; printing never inspects them. *)
Variable double : Type.

Inductive tNode : Type :=
| nullptr : tNode
| Node (left right : tNode) (val : double) (height : Z) : tNode.

Fixpoint inorder (node : tNode) : list double :=
  match node with
  | nullptr => []
  | Node l r v _ => inorder l ++ v :: inorder r
  end.

(** [AVL::printHelp]: reads [node->left] of whatever it is given. *)
Fixpoint printHelp (node : tNode) : outcome (list double) :=
  match node with
  | nullptr => Fault NullDereference
  | Node l r val _ =>
      before <- match l with
                | nullptr => Done []
                | Node _ _ _ _ => printHelp l
                end ;;
      after <- match r with
               | nullptr => Done []
               | Node _ _ _ _ => printHelp r
               end ;;
      Done (before ++ val :: after)
  end.

(** [AVL::printInOrder]: hands [head] to the helper as it is. *)
Definition printInOrder (head : tNode) : outcome (list double) :=
  printHelp head.

End Printing.

Arguments nullptr {double}.
Arguments Node {double} left right val height.
Arguments inorder {double} node.
Arguments printHelp {double} node.
Arguments printInOrder {double} head.

End Lab3_1.

(** ** The prime sizing utility *)

(** The inner loop of [generate_small_primes]: the flag [is_prime] after
    the ascending list [primes] has been tried on [i]. *)
Fixpoint is_prime_flag (primes : list Z) (i : Z) : bool :=
  match primes with
  | [] => true
  | prime :: rest =>
      if prime * prime >? i then true
      else if Z.rem i prime =? 0 then false
      else is_prime_flag rest i
  end.

(** [for (int i = ...; i <= limit; i += 2)], one iteration per unit of
    fuel. *)
Fixpoint generate_loop (fuel : nat) (limit i : Z) (primes : list Z) : list Z :=
  match fuel with
  | O => primes
  | S fuel' =>
      if i <=? limit then
        generate_loop fuel' limit (i + 2)
          (if is_prime_flag primes i then primes ++ [i] else primes)
      else primes
  end.

(** [generate_small_primes].  The loop leaves before [limit] iterations
    (lemma [generate_loop_fuel]).

    The [int]s of the source are unbounded here.  The source computes
    [prime * prime] and [i += 2] in [int]: the first stays in range as
    long as the primes tried are at most 46337, the second as long as
    [limit] is below [INT_MAX].  Both hold for the limits up to
    [small_limit_max], the largest that [next_prime] passes on an
    [int]; what is stated of this function on its own is stated for
    those limits, or, as for the 2 that is pushed before the loop, holds
    of whatever list the source returns. *)
Definition generate_small_primes (limit : Z) : list Z :=
  generate_loop (Z.to_nat limit) limit 3 [2].

(** [std::sqrt(INT_MAX) + 1], converted to [int]. *)
Definition small_limit_max : Z := 46341.

(** The loop of [is_prime] over the list of small primes. *)
Fixpoint is_prime_scan (primes : list Z) (limit num : Z) : bool :=
  match primes with
  | [] => true
  | prime :: rest =>
      if prime >? limit then true
      else if Z.rem num prime =? 0 then false
      else is_prime_scan rest limit num
  end.

(** [is_prime].  [int limit = std::sqrt(num)] is the integer square
    root: for an [int] the correctly rounded double square root lies on
    the same side of every integer as the exact one. *)
Definition is_prime (num : Z) (primes : list Z) : bool :=
  if num <=? 1 then false
  else if num =? 2 then true
  else if Z.rem num 2 =? 0 then false
  else is_prime_scan primes (Z.sqrt num) num.

(** [while (!is_prime(n, small_primes)) n += 2;] *)
Fixpoint next_prime_loop (fuel : nat) (n : Z) (small_primes : list Z)
  : outcome Z :=
  match fuel with
  | O => Fault FuelExhausted
  | S fuel' =>
      if is_prime n small_primes then Done n
      else next_prime_loop fuel' (n + 2) small_primes
  end.

(** [next_prime]; [fuel] bounds the iterations of its loop. *)
Definition next_prime (fuel : nat) (n : Z) : outcome Z :=
  if n <=? 2 then Done 2
  else
    let n := if Z.rem n 2 =? 0 then n + 1 else n in
    let small_primes := generate_small_primes (Z.sqrt n + 1) in
    next_prime_loop fuel n small_primes.

(** ** The hash table *)

Definition INT_MAX : Z := 2147483647.
Definition INT_MIN : Z := -2147483648.

(** The [int] argument that the constructor passes to [next_prime]:
    the double [expElementCt / 0.75 + 1], truncated towards zero by the
    conversion.  The exact value is [(4 * expElementCt + 3) / 3], whose
    fractional part is 0, 1/3 or 2/3, while the two roundings of the
    double computation move it by less than [2^-20] for an [int]
    operand; so the truncated double is the truncated exact quotient.
    The conversion has a result only when that quotient is an [int]
    (for a count above 1610612735 it is not): what is stated of the
    constructor assumes it. *)
Definition sizing_argument (expElementCt : Z) : Z :=
  Z.quot (4 * expElementCt + 3) 3.

(** [class hashTable]: the array of buckets and its length. *)
Record hashTable (cldManage : Type) : Type := mkHashTable {
  table : list cldManage;
  len : Z
}.

Arguments mkHashTable {cldManage} table len.
Arguments table {cldManage} h.
Arguments len {cldManage} h.

(** [hashTable::hashTable(int expElementCt)]; [new cldManage[len]]
    default-constructs [len] buckets.  The constructor has no other
    statement. *)
Definition hashTable_new {cldManage : Type} (bucket : cldManage)
    (fuel : nat) (expElementCt : Z) : outcome (hashTable cldManage) :=
  n <- next_prime fuel (sizing_argument expElementCt) ;;
  Done (mkHashTable (repeat bucket (Z.to_nat n)) n).

(** *** [hashTable::hash] *)

Definition fnv_prime : Z := 1099511628211.
Definition fnv_offset_basis : Z := 14695981039346656037.
Definition ULL : Z := 2 ^ 64.

(** Whether plain [char] is a signed type is fixed by the platform
    (signed on x86 and x86-64 with GCC, Clang and MSVC). *)
Inductive char_type : Type := SignedChar | UnsignedChar.

Definition byte_of (c : ascii) : Z := Z.of_N (N_of_ascii c).

(** The operand of [hash ^= c]: [c] promoted to [int] and converted to
    [unsigned long long].  A signed [char] holding a byte of 128 or more
    is negative and the conversion adds [2^64]. *)
Definition ull_of_char (ct : char_type) (c : ascii) : Z :=
  match ct with
  | UnsignedChar => byte_of c
  | SignedChar =>
      if byte_of c <? 128 then byte_of c else byte_of c - 256 + ULL
  end.

(** The loop of [hash] with its accumulator. *)
Fixpoint hash_loop (ct : char_type) (key : string) (hash : Z) : Z :=
  match key with
  | EmptyString => hash
  | String c rest =>
      hash_loop ct rest ((Z.lxor hash (ull_of_char ct c) * fnv_prime) mod ULL)
  end.

Definition hash (ct : char_type) (key : string) : Z :=
  hash_loop ct key fnv_offset_basis.

(** [hash(key) % len], the index used by [hashTable::retrieve]. *)
Definition bucket_index {cldManage : Type} (ct : char_type)
    (h : hashTable cldManage) (key : string) : Z :=
  hash ct key mod len h.

(** FNV-1a over 64 bits as the specification words it: start from the
    offset basis; for each byte, XOR it into the accumulator, then
    multiply by the prime. *)
Definition fnv1a_64 (bytes : list Z) : Z :=
  fold_left (fun acc b => (Z.lxor acc b * fnv_prime) mod ULL)
            bytes fnv_offset_basis.

Definition raw_bytes (key : string) : list Z :=
  map byte_of (list_ascii_of_string key).

Definition string_of_bytes (l : list N) : string :=
  string_of_list_ascii (map ascii_of_N l).

(** ** Trees built through the public interface *)

Definition insert_all (l : list person) : tNode :=
  fold_left (fun head v => fst (insert head v)) l nullptr.

Section Printing.

Definition selected (first : string) (p : person) : bool :=
  String.eqb first " " || String.eqb first (first_name p).

Lemma printHelp_node l r val h first :
  printHelp (Node l r val h) first =
  (before <- match l with
             | nullptr => Done []
             | Node _ _ _ _ => printHelp l first
             end ;;
   after <- match r with
            | nullptr => Done []
            | Node _ _ _ _ => printHelp r first
            end ;;
   Done (before ++ (if selected first val then [val] else []) ++ after)).
Proof. reflexivity. Qed.

(** On a node the helper writes the selected records in in-order. *)
Lemma printHelp_inorder node first :
  node <> nullptr ->
  printHelp node first = Done (filter (selected first) (inorder node)).
Proof.
  induction node as [|l IHl r IHr val h]; intros Hne; [contradiction|].
  assert (Hl : match l with
               | nullptr => Done []
               | Node _ _ _ _ => printHelp l first
               end = Done (filter (selected first) (inorder l))).
  { destruct l; [reflexivity|]. apply IHl. discriminate. }
  assert (Hr : match r with
               | nullptr => Done []
               | Node _ _ _ _ => printHelp r first
               end = Done (filter (selected first) (inorder r))).
  { destruct r; [reflexivity|]. apply IHr. discriminate. }
  rewrite printHelp_node, Hl, Hr. cbn [bind].
  rewrite inorder_node, filter_app. cbn [filter].
  now destruct (selected first val).
Qed.

Lemma filter_all (l : list person) : filter (selected " ") l = l.
Proof.
  induction l as [|a l IH]; simpl; [reflexivity|]. now rewrite IH.
Qed.

Lemma printAll_inorder head : printAll head = Done (inorder head).
Proof.
  destruct head as [|l r v h]; [reflexivity|].
  unfold printAll. rewrite printHelp_inorder by discriminate.
  now rewrite filter_all.
Qed.

Lemma printFN_inorder head first :
  printFN head first = Done (filter (selected first) (inorder head)).
Proof.
  destruct head as [|l r v h]; [reflexivity|].
  unfold printFN. now rewrite printHelp_inorder by discriminate.
Qed.

End Printing.

Module Lab3_1_facts.

Import Lab3_1.

Lemma printHelp_completes_on_a_node {double : Type} (node : tNode double) :
  node <> nullptr -> printHelp node = Done (inorder node).
Proof.
  induction node as [|l IHl r IHr val h]; intros Hne; [contradiction|].
  assert (Hl : match l with
               | nullptr => Done []
               | Node _ _ _ _ => printHelp l
               end = Done (inorder l)).
  { destruct l; [reflexivity|]. apply IHl. discriminate. }
  assert (Hr : match r with
               | nullptr => Done []
               | Node _ _ _ _ => printHelp r
               end = Done (inorder r)).
  { destruct r; [reflexivity|]. apply IHr. discriminate. }
  change (printHelp (Node l r val h))
    with (before <- match l with
                    | nullptr => Done []
                    | Node _ _ _ _ => printHelp l
                    end ;;
          after <- match r with
                   | nullptr => Done []
                   | Node _ _ _ _ => printHelp r
                   end ;;
          Done (before ++ val :: after)).
  now rewrite Hl, Hr.
Qed.

End Lab3_1_facts.

(** ** Removal by name: what is removed and what is kept *)

(** [sublist l1 l2]: [l1] is [l2] with some of its elements left out. *)
Inductive sublist {A : Type} : list A -> list A -> Prop :=
| sublist_nil : sublist [] []
| sublist_skip a l1 l2 : sublist l1 l2 -> sublist l1 (a :: l2)
| sublist_keep a l1 l2 : sublist l1 l2 -> sublist (a :: l1) (a :: l2).

Section Sublists.

Context {A : Type}.
Implicit Types (l : list A) (a : A).

Lemma sublist_refl l : sublist l l.
Proof. induction l; constructor; assumption. Qed.

Lemma sublist_nil_l l : sublist [] l.
Proof. induction l; constructor; assumption. Qed.

Lemma sublist_trans l1 l2 l3 : sublist l1 l2 -> sublist l2 l3 -> sublist l1 l3.
Proof.
  intros H12 H23. revert l1 H12.
  induction H23 as [|a l2 l3 H IH|a l2 l3 H IH]; intros l1 H12.
  - assumption.
  - apply sublist_skip. auto.
  - inversion H12; subst.
    + apply sublist_skip. auto.
    + apply sublist_keep. auto.
Qed.

Lemma sublist_app l1 l1' l2 l2' :
  sublist l1 l1' -> sublist l2 l2' -> sublist (l1 ++ l2) (l1' ++ l2').
Proof.
  intros H1 H2. induction H1; simpl; try constructor; assumption.
Qed.

Lemma sublist_app_l l l' : sublist l (l ++ l').
Proof.
  rewrite <- (app_nil_r l) at 1.
  apply sublist_app; [apply sublist_refl|apply sublist_nil_l].
Qed.

Lemma sublist_app_r l l' : sublist l' (l ++ l').
Proof. apply (sublist_app [] l l' l'); [apply sublist_nil_l|apply sublist_refl]. Qed.

Lemma sublist_In l1 l2 a : sublist l1 l2 -> In a l1 -> In a l2.
Proof.
  induction 1 as [|b l1 l2 H IH|b l1 l2 H IH]; simpl; intuition.
Qed.

Lemma sublist_Forall (P : A -> Prop) l1 l2 :
  sublist l1 l2 -> Forall P l2 -> Forall P l1.
Proof.
  intros H HP. rewrite Forall_forall in *. eauto using sublist_In.
Qed.

Lemma sublist_cons_absent l a l2 :
  sublist l (a :: l2) -> ~ In a l -> sublist l l2.
Proof.
  intros H Hn. inversion H; subst; [assumption|].
  exfalso. apply Hn. now left.
Qed.

Lemma sublist_length l1 l2 : sublist l1 l2 -> (List.length l1 <= List.length l2)%nat.
Proof. induction 1; simpl; lia. Qed.

End Sublists.

Lemma sublist_sorted (l1 l2 : list person) :
  sublist l1 l2 -> sorted l2 -> sorted l1.
Proof.
  induction 1 as [|a l1 l2 H IH|a l1 l2 H IH]; intros Hs.
  - assumption.
  - apply sorted_cons_iff in Hs. tauto.
  - apply sorted_cons_iff in Hs. destruct Hs as [Hs Ha].
    apply sorted_cons_iff. split; [auto|].
    eapply sublist_Forall; eassumption.
Qed.

Section RemovalByName.

Implicit Types (node l r : tNode) (fn ln : string) (fuel : nat).

Lemma size_inorder node : size node = List.length (inorder node).
Proof.
  induction node as [|l IHl r IHr v h]; [reflexivity|].
  simpl. rewrite length_app. simpl. lia.
Qed.

Lemma size_updateAndBalance node : size (updateAndBalance node) = size node.
Proof. now rewrite !size_inorder, inorder_updateAndBalance. Qed.

Lemma same_name_refl (p : person) :
  same_name (first_name p) (last_name p) p = true.
Proof. unfold same_name. now rewrite !String.eqb_refl. Qed.

Lemma removeRecFL_node fuel l r val h fn ln :
  removeRecFL (S fuel) (Node l r val h) fn ln =
  (l' <- removeRecFL fuel l fn ln ;;
   r' <- removeRecFL fuel r fn ln ;;
   if same_name fn ln val then
     match l', r' with
     | nullptr, _ => Done (updateAndBalance r')
     | _, nullptr => Done (updateAndBalance l')
     | _, _ =>
         let temp := findMin r' in
         inner <- removeRecFL_ref fuel r' ;;
         Done (updateAndBalance (Node l' (fst inner) (val_of temp) h))
     end
   else Done (updateAndBalance (Node l' r' val h))).
Proof. reflexivity. Qed.

Lemma removeRecFL_ref_leftmost fuel r val h :
  removeRecFL_ref (S fuel) (Node nullptr r val h) =
  (r' <- removeRecFL fuel r (first_name val) (last_name val) ;;
   match r' with
   | nullptr => Done (nullptr, Deleted)
   | Node _ _ _ _ =>
       Done (updateAndBalance r', At (updateAndBalance_path r' []))
   end).
Proof. reflexivity. Qed.

Lemma removeRecFL_ref_above fuel ll lr lv lh r val h :
  removeRecFL_ref (S fuel) (Node (Node ll lr lv lh) r val h) =
  (left <- removeRecFL_ref fuel (Node ll lr lv lh) ;;
   match left with
   | (_, Deleted) => Fault StaleReference
   | (l', At p) =>
       match subtree_at l' p with
       | nullptr => Fault StaleReference
       | Node _ _ ref _ =>
           let fn := first_name ref in
           let ln := last_name ref in
           r' <- removeRecFL fuel r fn ln ;;
           if same_name fn ln val then
             match r' with
             | nullptr =>
                 match p with
                 | [] => Done (updateAndBalance l', Deleted)
                 | _ :: _ =>
                     Done (updateAndBalance l',
                           At (updateAndBalance_path l' p))
                 end
             | Node _ _ _ _ =>
                 let temp := findMin r' in
                 inner <- removeRecFL_ref fuel r' ;;
                 let node' := Node l' (fst inner) (val_of temp) h in
                 Done (updateAndBalance node',
                       At (updateAndBalance_path node' (GoLeft :: p)))
             end
           else
             let node' := Node l' r' val h in
             Done (updateAndBalance node',
                   At (updateAndBalance_path node' (GoLeft :: p)))
       end
   end).
Proof. reflexivity. Qed.

(** The shape of a completed inner call above the leftmost node: the
    left subtree, the right subtree and, for a match with two children
    left, the inner call of its own. *)
Lemma removeRecFL_ref_above_done fuel ll lr lv lh r val h node' st :
  removeRecFL_ref (S fuel) (Node (Node ll lr lv lh) r val h) = Done (node', st) ->
  exists l' p fn ln r',
    removeRecFL_ref fuel (Node ll lr lv lh) = Done (l', At p) /\
    removeRecFL fuel r fn ln = Done r' /\
    ((r' = nullptr /\ node' = updateAndBalance l') \/
     (exists inner,
        r' <> nullptr /\ removeRecFL_ref fuel r' = Done inner /\
        node' = updateAndBalance
                  (Node l' (fst inner) (val_of (findMin r')) h)) \/
     node' = updateAndBalance (Node l' r' val h)).
Proof.
  rewrite removeRecFL_ref_above. intros H.
  destruct (removeRecFL_ref fuel (Node ll lr lv lh)) as [[l' [p|]]|f] eqn:El;
    cbn [bind] in H; try discriminate.
  destruct (subtree_at l' p) as [|sl sr ref sh]; [discriminate|].
  cbv zeta in H.
  destruct (removeRecFL fuel r (first_name ref) (last_name ref))
    as [r'|f] eqn:Er; cbn [bind] in H; [|discriminate].
  exists l', p, (first_name ref), (last_name ref), r'.
  split; [reflexivity|]. split; [assumption|].
  destruct (same_name (first_name ref) (last_name ref) val).
  - destruct r' as [|r1 r2 r3 r4].
    + left. split; [reflexivity|]. destruct p; now inversion H.
    + right. left.
      destruct (removeRecFL_ref fuel (Node r1 r2 r3 r4)) as [inner|f] eqn:En;
        cbn [bind] in H; [|discriminate].
      exists inner. split; [discriminate|]. split; [reflexivity|].
      now inversion H.
  - right. right. now inversion H.
Qed.

Lemma inorder_nonempty node :
  node <> nullptr -> exists a tl, inorder node = a :: tl.
Proof.
  intros H. destruct (findMin_inorder node H) as [tl E]. eauto.
Qed.

(** A completed removal by name leaves a subsequence of the records,
    none of which carries the two names; a completed inner call leaves a
    subsequence of the records after the first, whose node it deleted or
    overwrote. *)
Lemma removeRecFL_both fuel :
  (forall node fn ln node',
     removeRecFL fuel node fn ln = Done node' ->
     sublist (inorder node') (inorder node) /\
     Forall (fun p => same_name fn ln p = false) (inorder node')) /\
  (forall node node' st,
     removeRecFL_ref fuel node = Done (node', st) ->
     sublist (inorder node') (List.tl (inorder node))).
Proof.
  induction fuel as [|fuel [IH IHref]]; [split; intros; discriminate|].
  assert (Hinner : forall r' inner,
            r' <> nullptr -> removeRecFL_ref fuel r' = Done inner ->
            sublist (val_of (findMin r') :: inorder (fst inner)) (inorder r')).
  { intros r' [r'' st] Hne En. apply IHref in En.
    destruct (findMin_inorder r' Hne) as [rest Erest]. rewrite Erest in *.
    cbn [List.tl fst] in *. now apply sublist_keep. }
  split.
  - intros node fn ln node' H.
    destruct node as [|l r val h].
    { inversion H; subst. split; constructor. }
    rewrite removeRecFL_node in H.
    destruct (removeRecFL fuel l fn ln) as [l'|f] eqn:El; [|discriminate].
    destruct (removeRecFL fuel r fn ln) as [r'|f] eqn:Er; [|discriminate].
    cbn [bind] in H.
    apply IH in El. destruct El as [Sl Fl].
    apply IH in Er. destruct Er as [Sr Fr].
    rewrite inorder_node.
    destruct (same_name fn ln val) eqn:Em.
    + destruct l' as [|ll' lr' lv' lh'].
      * inversion H; subst. rewrite inorder_updateAndBalance. split; [|assumption].
        apply sublist_trans with (val :: inorder r).
        -- now apply sublist_skip.
        -- apply (sublist_app_r (inorder l) (val :: inorder r)).
      * destruct r' as [|rl' rr' rv' rh'].
        -- inversion H; subst node'.
           rewrite inorder_updateAndBalance. split; [|assumption].
           apply sublist_trans with (inorder l); [assumption|apply sublist_app_l].
        -- cbv zeta in H.
           destruct (removeRecFL_ref fuel (Node rl' rr' rv' rh'))
             as [inner|f] eqn:En; [|discriminate].
           cbn [bind] in H. inversion H; subst node'.
           assert (Hne : Node rl' rr' rv' rh' <> nullptr) by discriminate.
           pose proof (Hinner _ _ Hne En) as Sn.
           rewrite inorder_updateAndBalance, inorder_node.
           split.
           ++ apply sublist_app; [assumption|]. apply sublist_skip.
              eapply sublist_trans; eassumption.
           ++ apply Forall_app. split; [assumption|].
              eapply sublist_Forall; eassumption.
    + inversion H; subst node'. rewrite inorder_updateAndBalance, inorder_node.
      split.
      * apply sublist_app; [assumption|]. now apply sublist_keep.
      * apply Forall_app. split; [assumption|]. now constructor.
  - intros node node' st H.
    destruct node as [|[|ll lr lv lh] r val h]; [discriminate| |].
    + rewrite removeRecFL_ref_leftmost in H.
      destruct (removeRecFL fuel r (first_name val) (last_name val))
        as [r'|f] eqn:Er; [|discriminate].
      cbn [bind] in H. apply IH in Er. destruct Er as [Sr _].
      cbn [inorder app List.tl].
      destruct r' as [|rl' rr' rv' rh']; inversion H; subst.
      * apply sublist_nil_l.
      * now rewrite inorder_updateAndBalance.
    + apply removeRecFL_ref_above_done in H.
      destruct H as (l' & p & fn & ln & r' & El & Er & Hcases).
      apply IHref in El. apply IH in Er. destruct Er as [Sr _].
      destruct (inorder_nonempty (Node ll lr lv lh)) as (a & tl0 & Ea);
        [discriminate|].
      rewrite (inorder_node (Node ll lr lv lh)), Ea in *. cbn [List.tl app] in *.
      destruct Hcases as [[-> ->]|[(inner & Hne & En & ->)| ->]];
        rewrite inorder_updateAndBalance.
      * apply sublist_trans with tl0; [assumption|apply sublist_app_l].
      * rewrite inorder_node. apply sublist_app; [assumption|].
        apply sublist_skip. eapply sublist_trans; [|eassumption].
        now apply Hinner.
      * rewrite inorder_node. apply sublist_app; [assumption|].
        now apply sublist_keep.
Qed.

Lemma removeRecFL_done fuel node fn ln node' :
  removeRecFL fuel node fn ln = Done node' ->
  sublist (inorder node') (inorder node) /\
  Forall (fun p => same_name fn ln p = false) (inorder node').
Proof. apply removeRecFL_both. Qed.

Lemma removeRecFL_ref_done fuel node node' st :
  removeRecFL_ref fuel node = Done (node', st) ->
  sublist (inorder node') (List.tl (inorder node)).
Proof. apply removeRecFL_both. Qed.

Lemma removeRecFL_size fuel node fn ln node' :
  removeRecFL fuel node fn ln = Done node' -> (size node' <= size node)%nat.
Proof.
  intros H. apply removeRecFL_done in H. destruct H as [H _].
  rewrite !size_inorder. now apply sublist_length.
Qed.

(** Every subtree that a removal by name returns comes out of the
    closing lines, whose height update reads nothing of the node but its
    two subtrees.  So a property of trees that holds of the empty tree
    and of what the closing lines return for two subtrees that have it,
    holds of everything a removal by name returns, whatever tree it was
    given. *)
Lemma removeRecFL_returns (Q : tNode -> Prop) :
  Q nullptr ->
  (forall l r v h, Q l -> Q r -> Q (updateAndBalance (Node l r v h))) ->
  (forall node, Q node -> Q (updateAndBalance node)) ->
  forall fuel,
    (forall node fn ln node',
       removeRecFL fuel node fn ln = Done node' -> Q node') /\
    (forall node node' st,
       removeRecFL_ref fuel node = Done (node', st) -> Q node').
Proof.
  intros Qnull Qnode Qsame.
  induction fuel as [|fuel [IH IHref]]; [split; intros; discriminate|].
  split.
  - intros node fn ln node' H.
    destruct node as [|l r val h].
    { inversion H; subst. exact Qnull. }
    rewrite removeRecFL_node in H.
    destruct (removeRecFL fuel l fn ln) as [l'|f] eqn:El; [|discriminate].
    destruct (removeRecFL fuel r fn ln) as [r'|f] eqn:Er; [|discriminate].
    cbn [bind] in H. apply IH in El. apply IH in Er.
    destruct (same_name fn ln val).
    + destruct l' as [|ll' lr' lv' lh'].
      * inversion H; subst. now apply Qsame.
      * destruct r' as [|rl' rr' rv' rh'].
        -- inversion H; subst node'. now apply Qsame.
        -- cbv zeta in H.
           destruct (removeRecFL_ref fuel (Node rl' rr' rv' rh'))
             as [[r'' st]|f] eqn:En; [|discriminate].
           cbn [bind fst] in H. inversion H; subst node'.
           apply IHref in En. now apply Qnode.
    + inversion H; subst node'. now apply Qnode.
  - intros node node' st H.
    destruct node as [|[|ll lr lv lh] r val h]; [discriminate| |].
    + rewrite removeRecFL_ref_leftmost in H.
      destruct (removeRecFL fuel r (first_name val) (last_name val))
        as [r'|f] eqn:Er; [|discriminate].
      cbn [bind] in H. apply IH in Er.
      destruct r' as [|rl' rr' rv' rh']; inversion H; subst.
      * exact Qnull.
      * now apply Qsame.
    + apply removeRecFL_ref_above_done in H.
      destruct H as (l' & p & fn & ln & r' & El & Er & Hcases).
      apply IHref in El. apply IH in Er.
      destruct Hcases as [[-> ->]|[([r'' st'] & Hne & En & ->)| ->]].
      * now apply Qsame.
      * apply IHref in En. now apply Qnode.
      * now apply Qnode.
Qed.

(** In particular every node of the result caches a height of at least
    1, so that the rotations of the closing lines find their child
    (lemma [balance_derefs_nodes]) whatever heights the given tree
    cached. *)
Lemma removeRecFL_hpos fuel node fn ln node' :
  removeRecFL fuel node fn ln = Done node' -> hpos node'.
Proof.
  apply (removeRecFL_returns hpos).
  - exact I.
  - intros l r v h. apply hpos_updateAndBalance.
  - apply hpos_updateAndBalance_node.
Qed.

Lemma hpos_removeRecFL fuel node fn ln node' :
  hpos node -> removeRecFL fuel node fn ln = Done node' -> hpos node'.
Proof. intros _. apply removeRecFL_hpos. Qed.

(** *** The paths follow the node *)

(** The node at [p'] of [t'] is there and holds the record of the node at
    [p] of [t]. *)
Definition follows (t : tNode) (p : path) (t' : tNode) (p' : path) : Prop :=
  subtree_at t' p' <> nullptr /\
  val_of (subtree_at t' p') = val_of (subtree_at t p).

Lemma follows_refl (t : tNode) (p : path) :
  subtree_at t p <> nullptr -> follows t p t p.
Proof. now split. Qed.

Lemma follows_trans (t t' t'' : tNode) (p p' p'' : path) :
  follows t p t' p' -> follows t' p' t'' p'' -> follows t p t'' p''.
Proof. intros [_ H1] [H2 H3]. split; [assumption|congruence]. Qed.

Lemma rotateRight_path_follows (y : tNode) (p : path) :
  subtree_at y p <> nullptr ->
  follows y p (rotateRight y) (rotateRight_path y p).
Proof.
  intros H.
  destruct y as [|[|xl T2 xv xh] yr yv yh]; try now apply follows_refl.
  destruct p as [|[|] [|[|] q]]; split; cbn in *;
    try assumption; try reflexivity; discriminate.
Qed.

Lemma rotateLeft_path_follows (x : tNode) (p : path) :
  subtree_at x p <> nullptr ->
  follows x p (rotateLeft x) (rotateLeft_path x p).
Proof.
  intros H.
  destruct x as [|xl [|T2 yr yv yh] xv xh]; try now apply follows_refl.
  destruct p as [|[|] [|[|] q]]; split; cbn in *;
    try assumption; try reflexivity; discriminate.
Qed.

Lemma balance_path_follows (node : tNode) (p : path) :
  subtree_at node p <> nullptr ->
  follows node p (balance node) (balance_path node p).
Proof.
  intros H. destruct node as [|l r v h]; [now apply follows_refl|].
  unfold balance, balance_path.
  destruct (getBalance (Node l r v h) >? 1).
  - destruct (getBalance l >=? 0); [now apply rotateRight_path_follows|].
    assert (G : follows (Node l r v h) p (Node (rotateLeft l) r v h)
                        match p with
                        | GoLeft :: q => GoLeft :: rotateLeft_path l q
                        | _ => p
                        end).
    { destruct p as [|[|] q].
      - split; [discriminate|reflexivity].
      - apply (rotateLeft_path_follows l q). exact H.
      - split; [exact H|reflexivity]. }
    eapply follows_trans; [exact G|].
    apply rotateRight_path_follows. apply G.
  - destruct (getBalance (Node l r v h) <? -1); [|now apply follows_refl].
    destruct (getBalance r <=? 0); [now apply rotateLeft_path_follows|].
    assert (G : follows (Node l r v h) p (Node l (rotateRight r) v h)
                        match p with
                        | GoRight :: q => GoRight :: rotateRight_path r q
                        | _ => p
                        end).
    { destruct p as [|[|] q].
      - split; [discriminate|reflexivity].
      - split; [exact H|reflexivity].
      - apply (rotateRight_path_follows r q). exact H. }
    eapply follows_trans; [exact G|].
    apply rotateLeft_path_follows. apply G.
Qed.

Lemma updateAndBalance_path_follows (node : tNode) (p : path) :
  subtree_at node p <> nullptr ->
  follows node p (updateAndBalance node) (updateAndBalance_path node p).
Proof.
  intros H. destruct node as [|l r v h]; [now apply follows_refl|].
  unfold updateAndBalance, updateAndBalance_path.
  assert (G : follows (Node l r v h) p
                      (Node l r v (1 + larger (height l) (height r))) p).
  { destruct p as [|[|] q]; split; try exact H; try reflexivity; discriminate. }
  eapply follows_trans; [exact G|].
  apply balance_path_follows. apply G.
Qed.

(** The path that a completed inner call reports leads to a node of the
    subtree it returns: the name comparisons above the leftmost node
    read the strings of a node that is there. *)
Lemma removeRecFL_ref_referent fuel node node' (p : path) :
  removeRecFL_ref fuel node = Done (node', At p) ->
  subtree_at node' p <> nullptr.
Proof.
  revert node node' p.
  induction fuel as [|fuel IH]; intros node node' p H; [discriminate|].
  destruct node as [|[|ll lr lv lh] r val h]; [discriminate| |].
  - rewrite removeRecFL_ref_leftmost in H.
    destruct (removeRecFL fuel r (first_name val) (last_name val))
      as [r'|f]; [|discriminate].
    cbn [bind] in H. destruct r' as [|r1 r2 r3 r4]; [discriminate|].
    injection H as <- <-.
    apply (updateAndBalance_path_follows (Node r1 r2 r3 r4) []). discriminate.
  - rewrite removeRecFL_ref_above in H.
    destruct (removeRecFL_ref fuel (Node ll lr lv lh)) as [[l' [q|]]|f] eqn:El;
      cbn [bind] in H; try discriminate.
    destruct (subtree_at l' q) as [|sl sr ref sh] eqn:Eq; [discriminate|].
    cbv zeta in H.
    destruct (removeRecFL fuel r (first_name ref) (last_name ref))
      as [r'|f]; cbn [bind] in H; [|discriminate].
    destruct (same_name (first_name ref) (last_name ref) val).
    + destruct r' as [|r1 r2 r3 r4].
      * destruct q as [|d q']; [discriminate|]. injection H as <- <-.
        apply (updateAndBalance_path_follows l' (d :: q')).
        rewrite Eq. discriminate.
      * destruct (removeRecFL_ref fuel (Node r1 r2 r3 r4)) as [inner|f];
          cbn [bind] in H; [|discriminate].
        injection H as <- <-.
        apply (updateAndBalance_path_follows
                 (Node l' (fst inner)
                       (val_of (findMin (Node r1 r2 r3 r4))) h) (GoLeft :: q)).
        change (subtree_at l' q <> nullptr).
        rewrite Eq. discriminate.
    + injection H as <- <-.
      apply (updateAndBalance_path_follows (Node l' r' val h) (GoLeft :: q)).
      change (subtree_at l' q <> nullptr).
      rewrite Eq. discriminate.
Qed.

(** The fuel [removeFL] passes is never the reason a run stops. *)
Lemma removeRecFL_fuel_both fuel :
  (forall node fn ln,
     (size node < fuel)%nat -> removeRecFL fuel node fn ln <> Fault FuelExhausted) /\
  (forall node,
     (size node < fuel)%nat -> removeRecFL_ref fuel node <> Fault FuelExhausted).
Proof.
  induction fuel as [|fuel [IH IHref]]; [split; intros; lia|].
  split.
  - intros node fn ln Hs.
    destruct node as [|l r val h]; [discriminate|].
    simpl in Hs. rewrite removeRecFL_node.
    destruct (removeRecFL fuel l fn ln) as [l'|f] eqn:El.
    2:{ cbn [bind]. intros E. inversion E; subst. apply (IH l fn ln); [lia|assumption]. }
    destruct (removeRecFL fuel r fn ln) as [r'|f] eqn:Er.
    2:{ cbn [bind]. intros E. inversion E; subst. apply (IH r fn ln); [lia|assumption]. }
    cbn [bind]. apply removeRecFL_size in Er.
    destruct (same_name fn ln val); [|discriminate].
    destruct l' as [|ll' lr' lv' lh']; [discriminate|].
    destruct r' as [|rl' rr' rv' rh']; [discriminate|].
    cbv zeta.
    destruct (removeRecFL_ref fuel (Node rl' rr' rv' rh')) as [inner|f] eqn:En;
      [discriminate|].
    cbn [bind]. intros E. inversion E; subst.
    apply (IHref (Node rl' rr' rv' rh')); [lia|assumption].
  - intros node Hs.
    destruct node as [|[|ll lr lv lh] r val h]; [discriminate| |].
    + simpl in Hs. rewrite removeRecFL_ref_leftmost.
      destruct (removeRecFL fuel r (first_name val) (last_name val))
        as [r'|f] eqn:Er.
      * cbn [bind]. destruct r'; discriminate.
      * cbn [bind]. intros E. inversion E; subst.
        apply (IH r (first_name val) (last_name val)); [lia|assumption].
    + cbn [size] in Hs. rewrite removeRecFL_ref_above.
      destruct (removeRecFL_ref fuel (Node ll lr lv lh)) as [[l' [p|]]|f] eqn:El;
        cbn [bind].
      * destruct (subtree_at l' p) as [|sl sr ref sh]; [discriminate|].
        cbv zeta.
        destruct (removeRecFL fuel r (first_name ref) (last_name ref))
          as [r'|f] eqn:Er; cbn [bind].
        -- apply removeRecFL_size in Er.
           destruct (same_name (first_name ref) (last_name ref) val);
             [|discriminate].
           destruct r' as [|r1 r2 r3 r4]; [destruct p; discriminate|].
           destruct (removeRecFL_ref fuel (Node r1 r2 r3 r4)) as [inner|f] eqn:En;
             cbn [bind]; [discriminate|].
           intros E. inversion E; subst.
           apply (IHref (Node r1 r2 r3 r4)); [lia|assumption].
        -- intros E. inversion E; subst.
           apply (IH r (first_name ref) (last_name ref)); [lia|assumption].
      * discriminate.
      * intros E. inversion E; subst.
        apply (IHref (Node ll lr lv lh)); [cbn [size]; lia|assumption].
Qed.

Lemma removeRecFL_fuel fuel node fn ln :
  (size node < fuel)%nat -> removeRecFL fuel node fn ln <> Fault FuelExhausted.
Proof. apply removeRecFL_fuel_both. Qed.

End RemovalByName.

(** ** The trees the class can hold *)

(** Every tree is obtained from the empty one through [insert],
    [remove] and [removeFL]. *)
Inductive reachable : tNode -> Prop :=
| reach_empty : reachable nullptr
| reach_insert head v : reachable head -> reachable (fst (insert head v))
| reach_remove head k : reachable head -> reachable (fst (remove head k))
| reach_removeFL head fn ln head' :
    reachable head -> removeFL head fn ln = Done head' -> reachable head'.

Lemma reachable_tree_ok (head : tNode) : reachable head -> tree_ok head.
Proof.
  unfold tree_ok.
  induction 1 as [|head v H [Hb Hp]|head k H [Hb Hp]|head fn ln head' H [Hb Hp] E].
  - split; [apply sorted_nil|exact I].
  - split; [now apply bst_insertRec|now apply hpos_insertRec].
  - split; [now apply bst_removeRec|now apply hpos_removeRec].
  - unfold removeFL in E. split.
    + apply removeRecFL_done in E. destruct E as [E _].
      unfold bst. eapply sublist_sorted; eassumption.
    + eapply hpos_removeRecFL; eassumption.
Qed.

Lemma insert_all_reachable (l : list person) : reachable (insert_all l).
Proof.
  unfold insert_all.
  assert (G : forall head, reachable head ->
            reachable (fold_left (fun head v => fst (insert head v)) l head)).
  { induction l as [|v l IH]; intros head H; simpl; [assumption|].
    apply IH. now constructor. }
  apply G. constructor.
Qed.

Lemma sorted_NoDup (l : list person) : sorted l -> NoDup (map number l).
Proof.
  induction l as [|a l IH]; intros H; simpl; [constructor|].
  apply sorted_cons_iff in H. destruct H as [Hs Ha].
  constructor; [|auto]. now apply Forall_lt_not_In.
Qed.

(** ** Lookup after an update, on sorted lists *)

Section LookupAfterUpdate.

Implicit Types (l : list person) (v a : person) (k : string).

Lemma lookup_ins_list v l :
  sorted l -> ~ In (number v) (map number l) ->
  lookup_list (number v) (ins_list v l) = v.
Proof.
  induction l as [|a l IH]; intros Hs Hn.
  - now apply lookup_list_here.
  - apply sorted_cons_iff in Hs. destruct Hs as [Hs _].
    simpl in Hn. simpl. destruct (number v <s number a) eqn:E1.
    + now apply lookup_list_here.
    + destruct (number a <s number v) eqn:E2.
      * unfold lookup_list. simpl.
        destruct (String.eqb_spec (number v) (number a)) as [E|E];
          [exfalso; apply Hn; left; now symmetry|].
        apply IH; tauto.
      * exfalso. apply Hn. left. symmetry. now apply StrOrd.ltb_total.
Qed.

Lemma ins_list_present v l :
  sorted l -> In (number v) (map number l) -> ins_list v l = l.
Proof.
  induction l as [|a l IH]; intros Hs Hin; [contradiction|].
  apply sorted_cons_iff in Hs. destruct Hs as [Hs Ha].
  simpl in Hin. simpl. destruct (number v <s number a) eqn:E1.
  - exfalso. destruct Hin as [Hin|Hin].
    + rewrite Hin in E1. now rewrite StrOrd.ltb_irrefl in E1.
    + apply (Forall_lt_not_In (number v) l); [|assumption].
      now apply Forall_lt_trans with (number a).
  - destruct (number a <s number v) eqn:E2; [|reflexivity].
    f_equal. apply IH; [assumption|].
    destruct Hin as [Hin|Hin]; [|assumption].
    rewrite Hin in E2. now rewrite StrOrd.ltb_irrefl in E2.
Qed.

End LookupAfterUpdate.

Lemma avlb_iff (node : tNode) : avlb node = true <-> avl node.
Proof.
  induction node as [|l IHl r IHr v h]; simpl; [tauto|].
  rewrite !andb_true_iff, IHl, IHr, Z.leb_le, Z.eqb_eq. tauto.
Qed.

(** ** Primes: the facts the sizing utility rests on *)

Section PrimeFacts.

Lemma divide_dec (d n : Z) : (d | n) \/ ~ (d | n).
Proof.
  destruct (Z.eq_dec d 0) as [->|Hd].
  - destruct (Z.eq_dec n 0) as [->|Hn].
    + left. apply Z.divide_0_r.
    + right. intros H. apply Z.divide_0_l in H. contradiction.
  - destruct (Z.BoolSpec_divide_nz d n Hd); auto.
Qed.

(** Below a bound either no number divides [n], or one does. *)
Lemma divisor_below (n : Z) (k : nat) :
  (forall d, 1 < d < Z.of_nat k -> ~ (d | n)) \/
  (exists d, 1 < d < Z.of_nat k /\ (d | n)).
Proof.
  induction k as [|k [IH|IH]].
  - left. intros d Hd. lia.
  - destruct (divide_dec (Z.of_nat k) n) as [H|H].
    + destruct (Z_lt_dec 1 (Z.of_nat k)) as [Hk|Hk].
      * right. exists (Z.of_nat k). split; [lia|assumption].
      * left. intros d Hd. lia.
    + left. intros d Hd.
      destruct (Z.eq_dec d (Z.of_nat k)) as [->|Hne]; [assumption|].
      apply IH. lia.
  - right. destruct IH as (d & Hd & Hdiv). exists d. split; [lia|assumption].
Qed.

Lemma prime_or_divisor (n : Z) :
  1 < n -> Z.prime n \/ exists d, 1 < d < n /\ (d | n).
Proof.
  intros Hn. destruct (divisor_below n (Z.to_nat n)) as [H|H];
    rewrite Z2Nat.id in H by lia.
  - left. split; assumption.
  - right. assumption.
Qed.

Lemma prime_divisor (n : Z) : 1 < n -> exists p, Z.prime p /\ (p | n).
Proof.
  intros Hn.
  assert (G : forall k : nat, forall m, 1 < m -> m <= Z.of_nat k ->
              exists p, Z.prime p /\ (p | m)).
  { induction k as [|k IH]; intros m Hm Hk; [lia|].
    destruct (prime_or_divisor m Hm) as [Hp|(d & Hd & Hdiv)].
    - exists m. split; [assumption|apply Z.divide_refl].
    - destruct (IH d) as (p & Hp & Hpd); [lia|lia|].
      exists p. split; [assumption|]. now apply Z.divide_trans with d. }
  apply (G (Z.to_nat n)); lia.
Qed.

Lemma divide_le_pos (d n : Z) : 0 < n -> (d | n) -> d <= n.
Proof.
  intros Hn [q Hq]. destruct (Z_le_gt_dec d n) as [H|H]; [assumption|].
  exfalso. assert (0 < q) by nia. nia.
Qed.

(** A number above 1 that is not prime has a prime divisor below its
    square root. *)
Lemma small_prime_divisor (n : Z) :
  1 < n -> ~ Z.prime n -> exists p, Z.prime p /\ (p | n) /\ p * p <= n.
Proof.
  intros Hn Hnp.
  destruct (prime_or_divisor n Hn) as [Hp|(d & Hd & [e He])]; [contradiction|].
  assert (He1 : 1 < e) by nia.
  destruct (Z_le_gt_dec d e) as [Hle|Hgt].
  - destruct (prime_divisor d) as (p & Hp & Hpd); [lia|].
    exists p. split; [assumption|]. split.
    + apply Z.divide_trans with d; [assumption|]. exists e. lia.
    + assert (p <= d) by (apply divide_le_pos; [lia|assumption]).
      pose proof (Z.prime_ge_2 p Hp). nia.
  - destruct (prime_divisor e He1) as (p & Hp & Hpe).
    exists p. split; [assumption|]. split.
    + apply Z.divide_trans with e; [assumption|]. exists d. lia.
    + assert (p <= e) by (apply divide_le_pos; [lia|assumption]).
      pose proof (Z.prime_ge_2 p Hp). nia.
Qed.

(** Trial division by the primes up to the square root decides
    primality. *)
Lemma prime_by_trial (n : Z) :
  1 < n ->
  (forall p, Z.prime p -> p * p <= n -> ~ (p | n)) -> Z.prime n.
Proof.
  intros Hn H. destruct (prime_or_divisor n Hn) as [Hp|(d & Hd & Hdiv)];
    [assumption|].
  assert (Hnp : ~ Z.prime n).
  { intros [_ Hp]. apply (Hp d Hd Hdiv). }
  destruct (small_prime_divisor n Hn Hnp) as (p & Hp & Hpn & Hpp).
  exfalso. apply (H p); assumption.
Qed.

Lemma prime_no_small_divisor (n p : Z) :
  Z.prime n -> 1 < p -> p < n -> ~ (p | n).
Proof. intros [_ H] H1 H2. apply H. lia. Qed.

Lemma even_not_prime (n : Z) : 2 < n -> Z.even n = true -> ~ Z.prime n.
Proof.
  intros Hn He [_ Hp]. apply (Hp 2); [lia|].
  apply Z.even_spec in He. destruct He as [k Hk]. exists k. lia.
Qed.

Lemma rem_zero_divide (n p : Z) : 0 < p -> (Z.rem n p =? 0) = true <-> (p | n).
Proof.
  intros Hp. rewrite Z.eqb_eq. apply Z.rem_divide. lia.
Qed.

End PrimeFacts.

(** ** The sizing utility computes primes *)

(** [P] lists the primes up to [L] in ascending order. *)
Definition primes_upto (L : Z) (P : list Z) : Prop :=
  StronglySorted Z.lt P /\ forall p, In p P <-> (Z.prime p /\ p <= L).

(** [q] is the smallest prime that is at least [n]. *)
Definition smallest_prime_geq (n q : Z) : Prop :=
  Z.prime q /\ n <= q /\ forall p, Z.prime p -> n <= p -> q <= p.

Section SmallPrimes.

Implicit Types (P : list Z) (i n m p L : Z).

Lemma sorted_head_le P p0 p :
  StronglySorted Z.lt (p0 :: P) -> In p (p0 :: P) -> p0 <= p.
Proof.
  intros H [->|Hin]; [lia|].
  inversion H as [|? ? _ Hall]; subst.
  rewrite Forall_forall in Hall. apply Hall in Hin. lia.
Qed.

Lemma is_prime_flag_true P i :
  StronglySorted Z.lt P -> (forall p, In p P -> 1 < p) ->
  is_prime_flag P i = true ->
  forall p, In p P -> p * p <= i -> ~ (p | i).
Proof.
  induction P as [|p0 P IH]; intros Hs Hpos Hf p Hin Hpp; [contradiction|].
  simpl in Hf. pose proof (Hpos p0 (or_introl eq_refl)) as Hp0.
  destruct (Z.gtb_spec (p0 * p0) i) as [Hgt|Hle].
  - pose proof (sorted_head_le _ _ _ Hs Hin). nia.
  - destruct (Z.rem i p0 =? 0) eqn:Er; [discriminate|].
    destruct Hin as [<-|Hin].
    + rewrite <- rem_zero_divide by lia. now rewrite Er.
    + inversion Hs; subst. apply IH; auto. intros p' Hp'. apply Hpos. now right.
Qed.

Lemma is_prime_flag_false P i :
  (forall p, In p P -> 1 < p) ->
  is_prime_flag P i = false ->
  exists p, In p P /\ p * p <= i /\ (p | i).
Proof.
  induction P as [|p0 P IH]; intros Hpos Hf; [discriminate|].
  simpl in Hf. pose proof (Hpos p0 (or_introl eq_refl)) as Hp0.
  destruct (Z.gtb_spec (p0 * p0) i) as [Hgt|Hle]; [discriminate|].
  destruct (Z.rem i p0 =? 0) eqn:Er.
  - exists p0. split; [now left|]. split; [assumption|].
    now apply rem_zero_divide; [lia|].
  - destruct IH as (p & Hin & Hpp & Hd); auto.
    + intros p' Hp'. apply Hpos. now right.
    + exists p. split; [now right|]. auto.
Qed.

Lemma primes_upto_gt1 L P p : primes_upto L P -> In p P -> 1 < p.
Proof.
  intros [_ H] Hin. apply H in Hin. destruct Hin as [Hp _].
  pose proof (Z.prime_ge_2 p Hp). lia.
Qed.

(** With every prime below [i] in the list, the flag says whether [i]
    is prime. *)
Lemma is_prime_flag_prime L P i :
  primes_upto L P -> 0 <= L -> 1 < i -> i < (L + 1) * (L + 1) ->
  (is_prime_flag P i = true <-> Z.prime i).
Proof.
  intros HP HL0 Hi HL. pose proof HP as [Hs Hin]. split.
  - intros Hf. apply prime_by_trial; [assumption|].
    intros p Hp Hpp. pose proof (Z.prime_ge_2 p Hp).
    apply (is_prime_flag_true P i); auto.
    + intros p'. apply (primes_upto_gt1 L P p' HP).
    + apply Hin. split; [assumption|].
      destruct (Z_le_gt_dec p L) as [Hle|Hgt]; [assumption|].
      exfalso. assert (L + 1 <= p) by lia. nia.
  - intros Hp. destruct (is_prime_flag P i) eqn:Hf; [reflexivity|].
    apply is_prime_flag_false in Hf.
    + destruct Hf as (p & Hp1 & Hpp & Hd).
      pose proof (primes_upto_gt1 L P p HP Hp1).
      exfalso. apply (prime_no_small_divisor i p); auto. nia.
    + intros p'. apply (primes_upto_gt1 L P p' HP).
Qed.

Lemma sorted_snoc P i :
  StronglySorted Z.lt P -> (forall p, In p P -> p < i) ->
  StronglySorted Z.lt (P ++ [i]).
Proof.
  induction P as [|p0 P IH]; intros Hs Hlt; simpl.
  - repeat constructor.
  - inversion Hs as [|? ? Hs' Hall]; subst. constructor.
    + apply IH; auto. intros p Hp. apply Hlt. now right.
    + apply Forall_app. split; [assumption|].
      constructor; [|constructor]. apply Hlt. now left.
Qed.

Lemma odd_succ_not_prime i : Z.odd i = true -> 1 < i -> ~ Z.prime (i + 1).
Proof.
  intros Ho Hi. apply even_not_prime; [lia|].
  now rewrite Z.even_add, <- Z.negb_odd, Ho.
Qed.

(** One iteration of the outer loop keeps the list exact. *)
Lemma primes_upto_step P i :
  Z.odd i = true -> 3 <= i -> primes_upto (i - 1) P ->
  primes_upto (i + 1) (if is_prime_flag P i then P ++ [i] else P).
Proof.
  intros Ho Hi HP. pose proof HP as [Hs Hin].
  pose proof (is_prime_flag_prime (i - 1) P i HP) as Hflag.
  pose proof (odd_succ_not_prime i Ho) as Hsucc.
  destruct (is_prime_flag P i) eqn:Hf.
  - assert (Hpi : Z.prime i) by (apply Hflag; [lia|lia|nia|reflexivity]).
    split.
    + apply sorted_snoc; [assumption|]. intros p Hp. apply Hin in Hp. lia.
    + intros p. rewrite in_app_iff, Hin. simpl. split.
      * intros [[Hp Hle]|[<-|[]]]; split; auto; lia.
      * intros [Hp Hle].
        destruct (Z.eq_dec p i) as [->|Hne]; [right; now left|].
        destruct (Z.eq_dec p (i + 1)) as [->|Hne1];
          [exfalso; apply Hsucc; [lia|assumption]|].
        left. split; [assumption|lia].
  - assert (Hnp : ~ Z.prime i).
    { intros Hp. apply Hflag in Hp; [congruence|lia|lia|nia]. }
    split; [assumption|]. intros p. rewrite Hin. split.
    + intros [Hp Hle]. split; [assumption|lia].
    + intros [Hp Hle]. split; [assumption|].
      destruct (Z.eq_dec p i) as [->|Hne]; [contradiction|].
      destruct (Z.eq_dec p (i + 1)) as [->|Hne1];
        [exfalso; apply Hsucc; [lia|assumption]|].
      lia.
Qed.

Lemma generate_loop_spec L fuel i P :
  2 <= L -> Z.odd i = true -> 3 <= i -> i <= L + 2 ->
  primes_upto (i - 1) P ->
  L - i < 2 * Z.of_nat fuel ->
  primes_upto L (generate_loop fuel L i P).
Proof.
  intros HL. revert i P.
  induction fuel as [|fuel IH]; intros i P Ho Hi HiL HP Hfuel.
  - simpl. assert (L = i - 1 \/ L = i - 2) as [->| ->] by lia; [assumption|].
    destruct HP as [Hs Hin]. split; [assumption|]. intros p. rewrite Hin.
    split; intros [Hp Hle]; (split; [assumption|]); [|lia].
    destruct (Z.eq_dec p (i - 1)) as [->|Hne]; [|lia].
    exfalso. destruct (Z.eq_dec i 3) as [->|Hi3]; [lia|].
    replace (i - 1) with ((i - 2) + 1) in Hp by lia.
    apply (odd_succ_not_prime (i - 2)); [|lia|assumption].
    rewrite Z.odd_sub, Ho. reflexivity.
  - simpl. destruct (Z.leb_spec i L) as [Hle|Hgt].
    + apply IH.
      * rewrite Z.odd_add, Ho. reflexivity.
      * lia.
      * lia.
      * replace (i + 2 - 1) with (i + 1) by lia. now apply primes_upto_step.
      * lia.
    + assert (L = i - 1 \/ L = i - 2) as [->| ->] by lia; [assumption|].
      destruct HP as [Hs Hin]. split; [assumption|]. intros p. rewrite Hin.
      split; intros [Hp Hle']; (split; [assumption|]); [|lia].
      destruct (Z.eq_dec p (i - 1)) as [->|Hne]; [|lia].
      exfalso. destruct (Z.eq_dec i 3) as [->|Hi3]; [lia|].
      replace (i - 1) with ((i - 2) + 1) in Hp by lia.
      apply (odd_succ_not_prime (i - 2)); [|lia|assumption].
      rewrite Z.odd_sub, Ho. reflexivity.
Qed.

Lemma primes_upto_2 : primes_upto 2 [2].
Proof.
  split; [repeat constructor|]. intros p. simpl. split.
  - intros [<-|[]]. split; [apply Z.prime_2|lia].
  - intros [Hp Hle]. pose proof (Z.prime_ge_2 p Hp). left. lia.
Qed.

(** [generate_small_primes] lists the primes up to its limit. *)
Lemma generate_small_primes_spec L :
  2 <= L -> primes_upto L (generate_small_primes L).
Proof.
  intros HL. unfold generate_small_primes.
  apply generate_loop_spec; try reflexivity; try lia.
  apply primes_upto_2.
Qed.

End SmallPrimes.

Section NextPrime.

Implicit Types (P : list Z) (n m p q L : Z).

Lemma is_prime_scan_true P limit num :
  StronglySorted Z.lt P -> (forall p, In p P -> 1 < p) ->
  is_prime_scan P limit num = true ->
  forall p, In p P -> p <= limit -> ~ (p | num).
Proof.
  induction P as [|p0 P IH]; intros Hs Hpos Hf p Hin Hpl; [contradiction|].
  simpl in Hf. pose proof (Hpos p0 (or_introl eq_refl)) as Hp0.
  destruct (Z.gtb_spec p0 limit) as [Hgt|Hle].
  - pose proof (sorted_head_le _ _ _ Hs Hin). lia.
  - destruct (Z.rem num p0 =? 0) eqn:Er; [discriminate|].
    destruct Hin as [<-|Hin].
    + rewrite <- rem_zero_divide by lia. now rewrite Er.
    + inversion Hs; subst. apply IH; auto. intros p' Hp'. apply Hpos. now right.
Qed.

Lemma is_prime_scan_false P limit num :
  (forall p, In p P -> 1 < p) ->
  is_prime_scan P limit num = false ->
  exists p, In p P /\ p <= limit /\ (p | num).
Proof.
  induction P as [|p0 P IH]; intros Hpos Hf; [discriminate|].
  simpl in Hf. pose proof (Hpos p0 (or_introl eq_refl)) as Hp0.
  destruct (Z.gtb_spec p0 limit) as [Hgt|Hle]; [discriminate|].
  destruct (Z.rem num p0 =? 0) eqn:Er.
  - exists p0. split; [now left|]. split; [assumption|].
    now apply rem_zero_divide; [lia|].
  - destruct IH as (p & Hin & Hpp & Hd); auto.
    + intros p' Hp'. apply Hpos. now right.
    + exists p. split; [now right|]. auto.
Qed.

Lemma sqrt_lt_self m : 1 < m -> Z.sqrt m < m.
Proof. intros H. apply Z.sqrt_lt_lin. lia. Qed.

(** With the primes up to the square root of [m] in the list,
    [is_prime] decides whether [m] is prime. *)
Lemma is_prime_prime L P m :
  primes_upto L P -> Z.sqrt m <= L ->
  (is_prime m P = true <-> Z.prime m).
Proof.
  intros HP HL. pose proof HP as [Hs Hin]. unfold is_prime.
  destruct (Z.leb_spec m 1) as [H1|H1].
  { split; [discriminate|]. intros Hp. pose proof (Z.prime_ge_2 m Hp). lia. }
  destruct (Z.eqb_spec m 2) as [->|H2].
  { split; [intros _; apply Z.prime_2|reflexivity]. }
  destruct (Z.rem m 2 =? 0) eqn:E2.
  { split; [discriminate|]. intros Hp. exfalso.
    apply (prime_no_small_divisor m 2 Hp); [lia|lia|].
    now apply rem_zero_divide. }
  split.
  - intros Hf. apply prime_by_trial; [assumption|].
    intros p Hp Hpp. pose proof (Z.prime_ge_2 p Hp).
    assert (Hps : p <= Z.sqrt m) by (apply Z.sqrt_le_square; lia).
    apply (is_prime_scan_true P (Z.sqrt m) m); auto.
    + intros p'. apply (primes_upto_gt1 L P p' HP).
    + apply Hin. split; [assumption|lia].
  - intros Hp. destruct (is_prime_scan P (Z.sqrt m) m) eqn:Hf; [reflexivity|].
    apply is_prime_scan_false in Hf.
    + destruct Hf as (p & Hp1 & Hpp & Hd).
      pose proof (primes_upto_gt1 L P p HP Hp1).
      pose proof (sqrt_lt_self m H1).
      exfalso. apply (prime_no_small_divisor m p); auto. lia.
    + intros p'. apply (primes_upto_gt1 L P p' HP).
Qed.

Lemma smallest_prime_geq_unique n q q' :
  smallest_prime_geq n q -> smallest_prime_geq n q' -> q = q'.
Proof.
  intros (Hq & Hn & Hmin) (Hq' & Hn' & Hmin').
  pose proof (Hmin q' Hq' Hn'). pose proof (Hmin' q Hq Hn). lia.
Qed.

(** The loop stops at the first prime, provided [is_prime] is exact on
    the candidates up to some prime. *)
Lemma next_prime_loop_finds P k n :
  (forall m, n <= m <= n + 2 * Z.of_nat k ->
             (is_prime m P = true <-> Z.prime m)) ->
  2 < n -> Z.odd n = true ->
  Z.prime (n + 2 * Z.of_nat k) ->
  exists q, smallest_prime_geq n q /\ q <= n + 2 * Z.of_nat k /\
            forall fuel, (k < fuel)%nat -> next_prime_loop fuel n P = Done q.
Proof.
  revert n. induction k as [|k IH]; intros n Hex Hn Ho Hq.
  - replace (n + 2 * Z.of_nat 0) with n in * by lia.
    exists n. split; [|split; [lia|]].
    + split; [assumption|]. split; [lia|]. intros p _ Hp. exact Hp.
    + intros [|fuel] Hf; [lia|]. simpl.
      assert (E : is_prime n P = true) by (apply Hex; [lia|assumption]).
      now rewrite E.
  - destruct (is_prime n P) eqn:E.
    + assert (Hp : Z.prime n) by (apply Hex; [lia|assumption]).
      exists n. split; [|split; [lia|]].
      * split; [assumption|]. split; [lia|]. intros p _ Hp'. exact Hp'.
      * intros [|fuel] Hf; [lia|]. simpl. now rewrite E.
    + assert (Hnp : ~ Z.prime n).
      { intros Hp. apply Hex in Hp; [congruence|lia]. }
      destruct (IH (n + 2)) as (q & (Hpq & Hnq & Hmin) & Hle & Hrun).
      * intros m Hm. apply Hex. lia.
      * lia.
      * rewrite Z.odd_add, Ho. reflexivity.
      * replace (n + 2 + 2 * Z.of_nat k) with (n + 2 * Z.of_nat (S k)) by lia.
        assumption.
      * exists q. split; [|split; [lia|]].
        -- split; [assumption|]. split; [lia|]. intros p Hp Hnp'.
           apply Hmin; [assumption|].
           destruct (Z.eq_dec p n) as [->|H1]; [contradiction|].
           destruct (Z.eq_dec p (n + 1)) as [->|H2]; [|lia].
           exfalso. apply (odd_succ_not_prime n); [assumption|lia|assumption].
        -- intros [|fuel] Hf; [lia|]. simpl. rewrite E. apply Hrun. lia.
Qed.

Lemma prime_odd q : Z.prime q -> 2 < q -> Z.odd q = true.
Proof.
  intros Hq H2. destruct (Z.odd q) eqn:E; [reflexivity|].
  exfalso. apply (even_not_prime q); [assumption| |assumption].
  now rewrite <- Z.negb_odd, E.
Qed.

(** The value [next_prime] starts its search from. *)
Definition first_candidate (n : Z) : Z :=
  if Z.rem n 2 =? 0 then n + 1 else n.

Lemma first_candidate_odd n : 2 < n -> Z.odd (first_candidate n) = true.
Proof.
  intros Hn. unfold first_candidate.
  rewrite Z.rem_mod_nonneg by lia. rewrite Zmod_odd.
  destruct (Z.odd n) eqn:E; simpl; [assumption|].
  now rewrite Z.odd_add, E.
Qed.

Lemma first_candidate_bounds n : n <= first_candidate n <= n + 1.
Proof. unfold first_candidate. destruct (Z.rem n 2 =? 0); lia. Qed.

(** [next_prime] returns the smallest prime from [n] on, as soon as
    some prime from [n] on has a square root of at most
    [sqrt(first candidate) + 1], the limit of the list of small primes
    it prepares. *)
Lemma next_prime_spec n q0 :
  2 < n -> Z.prime q0 -> n <= q0 ->
  Z.sqrt q0 <= Z.sqrt (first_candidate n) + 1 ->
  exists q, smallest_prime_geq n q /\ q <= q0 /\
            forall fuel, (Z.to_nat (q0 - n) < fuel)%nat ->
                         next_prime fuel n = Done q.
Proof.
  intros Hn Hq0 Hle Hwin.
  pose proof (first_candidate_odd n Hn) as Ho.
  pose proof (first_candidate_bounds n) as Hb.
  set (c := first_candidate n) in *.
  assert (Hq0o : Z.odd q0 = true) by (apply prime_odd; [assumption|lia]).
  assert (Hcq : c <= q0).
  { destruct (Z.eq_dec c q0); [lia|]. destruct (Z.eq_dec n q0) as [->|]; [|lia].
    assert (c = q0 + 1) by lia. subst c. rewrite H in Ho.
    rewrite Z.odd_add, Hq0o in Ho. discriminate. }
  assert (Hk : exists k : nat, q0 = c + 2 * Z.of_nat k).
  { exists (Z.to_nat ((q0 - c) / 2)). rewrite Z2Nat.id by (apply Z.div_pos; lia).
    assert (E : (q0 - c) mod 2 = 0).
    { rewrite Zmod_even, Z.even_sub, <- !Z.negb_odd, Hq0o, Ho. reflexivity. }
    pose proof (Z.div_mod (q0 - c) 2). lia. }
  destruct Hk as [k Hk].
  assert (HL : 2 <= Z.sqrt c + 1).
  { assert (1 <= Z.sqrt c); [|lia]. apply Z.sqrt_le_square; lia. }
  pose proof (generate_small_primes_spec _ HL) as HP.
  destruct (next_prime_loop_finds (generate_small_primes (Z.sqrt c + 1)) k c)
    as (q & (Hpq & Hcq' & Hmin) & Hqle & Hrun).
  - intros m Hm. apply (is_prime_prime _ _ _ HP).
    apply Z.le_trans with (Z.sqrt q0); [|assumption].
    apply Z.sqrt_le_mono. lia.
  - lia.
  - assumption.
  - now rewrite <- Hk.
  - exists q. split; [|split; [lia|]].
    + split; [assumption|]. split; [lia|]. intros p Hp Hnp.
      apply Hmin; [assumption|].
      destruct (Z.eq_dec c n) as [->|Hne]; [assumption|].
      assert (Hc : c = n + 1) by lia.
      destruct (Z.eq_dec p n) as [->|Hpn]; [|lia].
      exfalso. apply (prime_no_small_divisor n 2 Hp); [lia|lia|].
      unfold c, first_candidate in Hc.
      destruct (Z.rem n 2 =? 0) eqn:E; [|lia].
      now apply rem_zero_divide.
    + intros fuel Hfuel. unfold next_prime.
      destruct (Z.leb_spec n 2) as [|_]; [lia|].
      fold (first_candidate n). fold c. cbv zeta. apply Hrun. lia.
Qed.

Lemma next_prime_small fuel n : n <= 2 -> next_prime fuel n = Done 2.
Proof.
  intros Hn. unfold next_prime. destruct (Z.leb_spec n 2); [reflexivity|lia].
Qed.

Lemma smallest_prime_geq_2 n : n <= 2 -> smallest_prime_geq n 2.
Proof.
  intros Hn. split; [apply Z.prime_2|]. split; [assumption|].
  intros p Hp _. now apply Z.prime_ge_2.
Qed.

End NextPrime.

(** ** A prime in every window of square roots, by computation *)

Module Windows.

Abbreviation int := PrimInt63.int.
Abbreviation to_Z := Uint63.to_Z.
Abbreviation of_Z := Uint63.of_Z.

(** [is_prime_flag] on machine integers. *)
Fixpoint flag63 (primes : list int) (i : int) : bool :=
  match primes with
  | [] => true
  | p :: rest =>
      if PrimInt63.ltb i (PrimInt63.mul p p) then true
      else if PrimInt63.eqb (PrimInt63.mod i p) (of_Z 0) then false
      else flag63 rest i
  end.

(** Whether one of the [fuel] numbers from [c] on, below [hi], passes. *)
Fixpoint find63 (primes : list int) (fuel : nat) (c hi : int) : bool :=
  match fuel with
  | O => false
  | S fuel' =>
      if PrimInt63.ltb c hi then
        if flag63 primes c then true
        else find63 primes fuel' (PrimInt63.add c (of_Z 1)) hi
      else false
  end.

Definition square63 (s : int) : int := PrimInt63.mul s s.

(** Whether each of the [count] windows from [s] on holds a number that
    passes: window [s] runs from [(s+1)^2] up to [(s+2)^2]. *)
Fixpoint windows63 (primes : list int) (count : nat) (s : int) : bool :=
  match count with
  | O => true
  | S count' =>
      find63 primes 400
             (square63 (PrimInt63.add s (of_Z 1)))
             (square63 (PrimInt63.add s (of_Z 2)))
      && windows63 primes count' (PrimInt63.add s (of_Z 1))
  end.

Lemma wB_value : Uint63.wB = 9223372036854775808.
Proof. reflexivity. Qed.

Lemma to_Z_of_Z z : 0 <= z < 9223372036854775808 -> to_Z (of_Z z) = z.
Proof.
  intros H. rewrite Uint63.of_Z_spec, wB_value. now apply Z.mod_small.
Qed.

Lemma to_Z_range (x : int) : 0 <= to_Z x < 9223372036854775808.
Proof. rewrite <- wB_value. apply Uint63.to_Z_bounded. Qed.

Lemma ltb63 (x y : int) : PrimInt63.ltb x y = (to_Z x <? to_Z y).
Proof.
  destruct (Z.ltb_spec (to_Z x) (to_Z y)) as [H|H].
  - now apply Uint63.ltb_spec.
  - destruct (PrimInt63.ltb x y) eqn:E; [|reflexivity].
    apply Uint63.ltb_spec in E. lia.
Qed.

Lemma eqb63_zero (x : int) : PrimInt63.eqb x (of_Z 0) = (to_Z x =? 0).
Proof.
  destruct (Z.eqb_spec (to_Z x) 0) as [H|H].
  - apply Uint63.eqb_spec. apply Uint63.to_Z_inj. rewrite H. reflexivity.
  - destruct (PrimInt63.eqb x (of_Z 0)) eqn:E; [|reflexivity].
    apply Uint63.eqb_spec in E. subst x. exfalso. apply H. reflexivity.
Qed.

Lemma flag63_flag (P : list Z) (i : int) :
  (forall p, In p P -> 0 < p < 2147483648) ->
  flag63 (map of_Z P) i = is_prime_flag P (to_Z i).
Proof.
  induction P as [|p P IH]; intros HP; [reflexivity|].
  pose proof (HP p (or_introl eq_refl)) as Hp.
  pose proof (to_Z_range i) as Hi.
  cbn [map flag63 is_prime_flag].
  rewrite ltb63, Uint63.mul_spec, wB_value, to_Z_of_Z by lia.
  rewrite (Z.mod_small (p * p)) by nia.
  rewrite Z.gtb_ltb.
  destruct (to_Z i <? p * p); [reflexivity|].
  rewrite eqb63_zero, Uint63.mod_spec, to_Z_of_Z by lia.
  rewrite Z.rem_mod_nonneg by lia.
  destruct (to_Z i mod p =? 0); [reflexivity|].
  apply IH. intros p' Hp'. apply HP. now right.
Qed.

Section Checked.

(** The list the checks run on: the primes up to 46341. *)
Variable P : list Z.
Hypothesis HP : primes_upto 46341 P.

Lemma small_primes_range p : In p P -> 0 < p < 2147483648.
Proof.
  intros H. destruct HP as [_ Hin]. destruct (proj1 (Hin p) H) as [Hp Hle].
  pose proof (Z.prime_ge_2 p Hp). lia.
Qed.

(** A number below [46342^2] that passes is prime. *)
Lemma flag63_prime (c : int) :
  1 < to_Z c < 2147580964 -> flag63 (map of_Z P) c = true ->
  Z.prime (to_Z c).
Proof.
  intros Hc Hf.
  rewrite flag63_flag in Hf by apply small_primes_range.
  apply (is_prime_flag_prime 46341 P); [exact HP|lia|lia|lia|assumption].
Qed.

Lemma find63_prime (fuel : nat) (c hi : int) :
  1 < to_Z c -> to_Z hi <= 2147580964 ->
  find63 (map of_Z P) fuel c hi = true ->
  exists q, Z.prime q /\ to_Z c <= q < to_Z hi.
Proof.
  revert c. induction fuel as [|fuel IH]; intros c Hc Hhi Hf; [discriminate|].
  cbn [find63] in Hf. rewrite ltb63 in Hf.
  destruct (Z.ltb_spec (to_Z c) (to_Z hi)) as [Hlt|]; [|discriminate].
  destruct (flag63 (map of_Z P) c) eqn:E.
  - exists (to_Z c). split; [apply flag63_prime; [lia|assumption]|lia].
  - assert (Hc1 : to_Z (PrimInt63.add c (of_Z 1)) = to_Z c + 1).
    { rewrite Uint63.add_spec, wB_value, to_Z_of_Z by lia.
      apply Z.mod_small. lia. }
    destruct (IH (PrimInt63.add c (of_Z 1))) as (q & Hq & Hr);
      [lia|assumption|assumption|].
    exists q. split; [assumption|lia].
Qed.

Lemma windows63_prime (count : nat) (s0 : int) :
  1 <= to_Z s0 -> to_Z s0 + Z.of_nat count <= 46340 ->
  windows63 (map of_Z P) count s0 = true ->
  forall s, to_Z s0 <= s < to_Z s0 + Z.of_nat count ->
  exists q, Z.prime q /\ (s + 1) * (s + 1) <= q < (s + 2) * (s + 2).
Proof.
  revert s0. induction count as [|count IH]; intros s0 Hs0 Hb Hw s Hs; [lia|].
  cbn [windows63] in Hw. apply andb_true_iff in Hw. destruct Hw as [Hf Hw].
  assert (H1 : to_Z (PrimInt63.add s0 (of_Z 1)) = to_Z s0 + 1).
  { rewrite Uint63.add_spec, wB_value, to_Z_of_Z by lia. apply Z.mod_small. lia. }
  assert (H2 : to_Z (PrimInt63.add s0 (of_Z 2)) = to_Z s0 + 2).
  { rewrite Uint63.add_spec, wB_value, to_Z_of_Z by lia. apply Z.mod_small. lia. }
  destruct (Z.eq_dec s (to_Z s0)) as [->|Hne].
  - apply find63_prime in Hf.
    + destruct Hf as (q & Hq & Hr). exists q. split; [assumption|].
      unfold square63 in Hr.
      rewrite !Uint63.mul_spec, H1, H2, wB_value in Hr.
      rewrite !Z.mod_small in Hr by nia. exact Hr.
    + unfold square63. rewrite Uint63.mul_spec, H1, wB_value.
      rewrite Z.mod_small by nia. nia.
    + unfold square63. rewrite Uint63.mul_spec, H2, wB_value.
      rewrite Z.mod_small by nia. nia.
  - apply (IH (PrimInt63.add s0 (of_Z 1))); rewrite ?H1; try lia. assumption.
Qed.

End Checked.

Lemma windows_checked :
  windows63 (map of_Z (generate_small_primes 46341)) (Z.to_nat 46338) (of_Z 1)
  = true.
Proof. vm_compute. reflexivity. Qed.

Lemma int_max_checked :
  flag63 (map of_Z (generate_small_primes 46341)) (of_Z 2147483647) = true.
Proof. vm_compute. reflexivity. Qed.

Lemma small_primes_46341 : primes_upto 46341 (generate_small_primes 46341).
Proof. apply generate_small_primes_spec. lia. Qed.

End Windows.

Lemma INT_MAX_prime : Z.prime INT_MAX.
Proof.
  unfold INT_MAX.
  replace 2147483647 with (Uint63.to_Z (Uint63.of_Z 2147483647)) at 1
    by (apply Windows.to_Z_of_Z; lia).
  apply (Windows.flag63_prime _ Windows.small_primes_46341).
  - rewrite Windows.to_Z_of_Z; lia.
  - exact Windows.int_max_checked.
Qed.

(** Between consecutive squares below [2^31] there is a prime. *)
Lemma prime_between_squares (s : Z) :
  1 <= s <= 46338 ->
  exists q, Z.prime q /\ (s + 1) * (s + 1) <= q < (s + 2) * (s + 2).
Proof.
  intros Hs.
  assert (E1 : Uint63.to_Z (Uint63.of_Z 1) = 1) by (apply Windows.to_Z_of_Z; lia).
  assert (E2 : Z.of_nat (Z.to_nat 46338) = 46338) by (apply Z2Nat.id; lia).
  apply (Windows.windows63_prime _ Windows.small_primes_46341
           (Z.to_nat 46338) (Uint63.of_Z 1)).
  - rewrite E1. lia.
  - rewrite E1, E2. lia.
  - exact Windows.windows_checked.
  - rewrite E1, E2. lia.
Qed.

(** From every [int] from 3 on, a prime is reached before the square
    root has grown by more than one, and before [int] overflows. *)
Lemma prime_window (n : Z) :
  3 <= n <= INT_MAX ->
  exists q0, Z.prime q0 /\ n <= q0 <= INT_MAX /\ Z.sqrt q0 <= Z.sqrt n + 1.
Proof.
  unfold INT_MAX. intros Hn.
  assert (Hs : 1 <= Z.sqrt n) by (apply Z.sqrt_le_square; lia).
  pose proof (Z.sqrt_spec n ltac:(lia)) as Hspec. cbv zeta in Hspec.
  destruct (Z_le_gt_dec (Z.sqrt n) 46338) as [Hle|Hgt].
  - destruct (prime_between_squares (Z.sqrt n)) as (q & Hq & Hr); [lia|].
    exists q. split; [assumption|]. split; [nia|].
    assert (Z.sqrt q < Z.sqrt n + 2); [|lia].
    apply Z.sqrt_lt_square; lia.
  - exists 2147483647. split; [apply INT_MAX_prime|]. split; [lia|].
    assert (Z.sqrt 2147483647 = 46340) by reflexivity. lia.
Qed.

(** ** The size of a new table *)

(** The values of an [int]. *)
Definition int_range (z : Z) : Prop := INT_MIN <= z <= INT_MAX.

(** [next_prime] on every [int]: the smallest prime from [n] on, itself
    an [int], once the loop is given enough fuel. *)
Lemma next_prime_correct (n : Z) :
  n <= INT_MAX ->
  exists q, smallest_prime_geq n q /\ q <= INT_MAX /\
            exists fuel0, forall fuel, (fuel0 <= fuel)%nat ->
                                       next_prime fuel n = Done q.
Proof.
  intros Hn. destruct (Z_le_gt_dec n 2) as [H2|H2].
  - exists 2. split; [now apply smallest_prime_geq_2|]. split; [unfold INT_MAX; lia|].
    exists O. intros fuel _. now apply next_prime_small.
  - pose proof (first_candidate_bounds n) as Hb.
    pose proof (first_candidate_odd n ltac:(lia)) as Ho.
    assert (Hc : first_candidate n <= INT_MAX).
    { destruct (Z.eq_dec (first_candidate n) (n + 1)) as [E|E]; [|lia].
      destruct (Z.eq_dec n INT_MAX) as [->|]; [|lia].
      rewrite E in Ho. discriminate Ho. }
    destruct (prime_window (first_candidate n)) as (q0 & Hq0 & Hr & Hw); [lia|].
    destruct (next_prime_spec n q0) as (q & Hq & Hle & Hrun);
      [lia|assumption|lia|assumption|].
    exists q. split; [assumption|]. split; [lia|].
    exists (S (Z.to_nat (q0 - n))). intros fuel Hf. apply Hrun. lia.
Qed.

Lemma sizing_argument_nonneg (e : Z) :
  0 <= e -> sizing_argument e = 4 * e / 3 + 1.
Proof.
  intros He. unfold sizing_argument.
  rewrite Z.quot_div_nonneg by lia.
  replace (4 * e + 3) with (4 * e + 1 * 3) by lia.
  rewrite Z.div_add by lia. reflexivity.
Qed.


(** ** The hash against FNV-1a *)

Lemma hash_loop_fnv1a (ct : char_type) (key : string) (acc : Z) :
  (ct = UnsignedChar \/ Forall (fun b => b < 128) (raw_bytes key)) ->
  hash_loop ct key acc =
  fold_left (fun a b => (Z.lxor a b * fnv_prime) mod ULL) (raw_bytes key) acc.
Proof.
  revert acc. induction key as [|c key IH]; intros acc H; [reflexivity|].
  cbn [hash_loop raw_bytes list_ascii_of_string map fold_left].
  assert (E : ull_of_char ct c = byte_of c).
  { destruct H as [->|H]; [reflexivity|]. unfold ull_of_char.
    destruct ct; [|reflexivity].
    cbn [raw_bytes list_ascii_of_string map] in H. inversion H; subst.
    destruct (Z.ltb_spec (byte_of c) 128); [reflexivity|lia]. }
  rewrite E. apply IH. destruct H as [H|H]; [now left|right].
  cbn [raw_bytes list_ascii_of_string map] in H. now inversion H.
Qed.

(** * The properties of the specification *)

(** Records of the examples. *)
Definition liam (num : string) : person := mkPerson "Liam" "Li" num.
Definition lucas (num : string) : person := mkPerson "Lucas" "Li" num.
Definition isabella (num : string) : person := mkPerson "Isabella" "Anderson" num.

Definition ascending7 : list person :=
  [liam "1"; liam "2"; liam "3"; liam "4"; liam "5"; liam "6"; liam "7"].

Definition shared_bucket : tNode :=
  insert_all [isabella "2"; liam "1"; lucas "3"; lucas "4"].

Definition small_tree : tNode := insert_all [liam "2"; liam "1"; liam "3"].

(** C1, the balance invariant after every public operation: the code
    does not keep it.  Seven inserts with ascending keys, a tree every
    client can build, end in a root whose left subtree is two levels
    higher than the right one, by the cached heights and by the shape
    alike, and whose cached height is 6 where the formula of the
    invariant gives 4.  [rotateLeft] assigns the height of the new root
    before that of the node moved below it, unlike [rotateRight]. *)
Theorem C1_ascending_inserts_break_balance :
  reachable (insert_all ascending7) /\
  ~ avl (insert_all ascending7) /\
  exists l r v h,
    insert_all ascending7 = Node l r v h /\
    height l - height r = 2 /\ depth l - depth r = 2 /\
    h = 6 /\ 1 + Z.max (height l) (height r) = 4.
Proof.
  split; [apply insert_all_reachable|]. split.
  - rewrite <- avlb_iff. now vm_compute.
  - vm_compute. do 4 eexists. repeat split.
Qed.

(** C2, removal by first and last name removes the matching records and
    no other: the code does not keep the second half.  The matching root
    has two children, its successor is Lucas Li, and the inner call
    removes every Lucas Li of the right subtree instead of the successor
    alone: the record of Lucas Li with number 4 matches nothing that was
    asked for and is gone. *)
Theorem C2_removeFL_drops_other_records :
  In (lucas "4") (inorder shared_bucket) /\
  same_name "Isabella" "Anderson" (lucas "4") = false /\
  exists head',
    removeFL shared_bucket "Isabella" "Anderson" = Done head' /\
    inorder head' = [liam "1"; lucas "3"] /\
    ~ In (lucas "4") (inorder head').
Proof.
  split; [vm_compute; tauto|]. split; [reflexivity|].
  eexists. split; [vm_compute; reflexivity|]. split; [reflexivity|].
  simpl. intros [H|[H|[]]]; discriminate.
Qed.

(** C6, round trips: in a tree of the class, a value inserted under a
    key that was absent is what a lookup of that key returns, and after
    the removal of a key that was present a lookup of it returns the
    record [person()] that stands for "not found". *)
Theorem C6_insert_find_remove_find (T : tNode) (HT : tree_ok T) :
  (forall v, ~ In (number v) (keys T) ->
             retrieve (fst (insert T v)) (number v) = v) /\
  (forall k, In k (keys T) ->
             retrieve (fst (remove T k)) k = person_default).
Proof.
  destruct HT as [Hb Hp]. unfold retrieve, insert, remove. split.
  - intros v Hn.
    rewrite retrieveRec_lookup by now apply bst_insertRec.
    rewrite inorder_insertRec by assumption.
    now apply lookup_ins_list.
  - intros k _.
    rewrite retrieveRec_lookup by now apply bst_removeRec.
    rewrite inorder_removeRec by assumption.
    apply lookup_list_absent, del_list_not_In.
Qed.

Lemma small_tree_ok : tree_ok small_tree.
Proof.
  split.
  - unfold bst, sorted. vm_compute. repeat constructor.
  - vm_compute. intuition discriminate.
Qed.

Lemma C6_witness :
  (forall v, ~ In (number v) (keys small_tree) ->
             retrieve (fst (insert small_tree v)) (number v) = v) /\
  (forall k, In k (keys small_tree) ->
             retrieve (fst (remove small_tree k)) k = person_default).
Proof.
  apply (C6_insert_find_remove_find small_tree). split.
  - unfold bst, sorted. vm_compute. repeat constructor.
  - vm_compute. intuition discriminate.
Defined.

(** C7, ordering: whatever records are inserted into the empty tree, in
    whatever order, [printAll] writes the in-order sequence of the tree
    and the keys written increase strictly, so no key is written
    twice. *)
Theorem C7_inserts_print_in_key_order (l : list person) :
  exists out,
    printAll (insert_all l) = Done out /\
    out = inorder (insert_all l) /\
    StronglySorted StrOrd.lt (map number out) /\
    NoDup (map number out).
Proof.
  exists (inorder (insert_all l)).
  destruct (reachable_tree_ok _ (insert_all_reachable l)) as [Hb _].
  split; [apply printAll_inorder|]. split; [reflexivity|].
  split; [exact Hb|now apply sorted_NoDup].
Qed.

(** C8, duplicate insert: inserting a record whose key is stored already
    writes the notice ["Already present, no insert."] and changes neither
    the in-order sequence nor the keys; the record stored under the key
    stays the one a lookup returns; and on a tree that obeys the balance
    invariant the tree is returned as it was, node for node. *)
Theorem C8_duplicate_insert_is_reported_noop (T : tNode) (v : person)
    (HT : tree_ok T) (Hk : In (number v) (keys T)) :
  snd (insert T v) = [already_present] /\
  inorder (fst (insert T v)) = inorder T /\
  keys (fst (insert T v)) = keys T /\
  retrieve (fst (insert T v)) (number v) = retrieve T (number v) /\
  (avl T -> fst (insert T v) = T).
Proof.
  destruct HT as [Hb Hp]. unfold insert, retrieve.
  assert (E : inorder (fst (insertRec T v)) = inorder T).
  { rewrite inorder_insertRec by assumption. now apply ins_list_present. }
  split; [now apply output_insertRec_present|]. split; [exact E|].
  split; [unfold keys; now rewrite E|]. split.
  - rewrite !retrieveRec_lookup; [now rewrite E|assumption|now apply bst_insertRec].
  - intros Ha. now apply insertRec_present_avl.
Qed.

Lemma C8_witness :
  snd (insert small_tree (lucas "3")) = [already_present] /\
  inorder (fst (insert small_tree (lucas "3"))) = inorder small_tree /\
  keys (fst (insert small_tree (lucas "3"))) = keys small_tree /\
  retrieve (fst (insert small_tree (lucas "3"))) (number (lucas "3"))
    = retrieve small_tree (number (lucas "3")) /\
  (avl small_tree -> fst (insert small_tree (lucas "3")) = small_tree).
Proof.
  apply (C8_duplicate_insert_is_reported_noop small_tree (lucas "3")).
  - split.
    + unfold bst, sorted. vm_compute. repeat constructor.
    + vm_compute. intuition discriminate.
  - vm_compute. tauto.
Defined.

(** C9, missing keys: the code keeps the first half of the claim and not
    the second.  On the tree of the seven ascending inserts of C1, which
    every client can build, the key "8" is not stored; [retrieve]
    returns the record [person()] and [remove] writes
    ["Node not found!"], as claimed, and the records stay in their
    order.  But the tree is not left as it was: on the way back from the
    miss [removeRec] recomputes the heights and calls [balance], which
    now sees what the stale height of [rotateLeft] had hidden and
    rotates; the root was "6" and is "4". *)
Theorem C9_missing_key_removal_rebuilds_the_tree :
  reachable (insert_all ascending7) /\
  ~ In "8"%string (keys (insert_all ascending7)) /\
  retrieve (insert_all ascending7) "8" = person_default /\
  snd (remove (insert_all ascending7) "8") = [node_not_found] /\
  inorder (fst (remove (insert_all ascending7) "8"))
  = inorder (insert_all ascending7) /\
  number (val_of (insert_all ascending7)) = "6"%string /\
  number (val_of (fst (remove (insert_all ascending7) "8"))) = "4"%string /\
  fst (remove (insert_all ascending7) "8") <> insert_all ascending7.
Proof.
  split; [apply insert_all_reachable|].
  split; [vm_compute; intuition discriminate|].
  split; [reflexivity|]. split; [reflexivity|]. split; [reflexivity|].
  split; [reflexivity|]. split; [reflexivity|].
  vm_compute. discriminate.
Qed.

(** C10, null safety of printing: [printInOrder] of [Lab_3-1.cpp] on the
    empty tree dereferences the null root, and on a tree with a root it
    completes and writes the in-order sequence; [printAll] and [printFN]
    of [Lab_3-2.cpp] complete on every tree, the empty one included. *)
Theorem C10_printing_and_the_null_root :
  (forall double : Type,
      Lab3_1.printInOrder (@Lab3_1.nullptr double) = Fault NullDereference) /\
  (forall (double : Type) (l r : Lab3_1.tNode double) (v : double) (h : Z),
      Lab3_1.printInOrder (Lab3_1.Node l r v h)
      = Done (Lab3_1.inorder (Lab3_1.Node l r v h))) /\
  (forall head : tNode, printAll head = Done (inorder head)) /\
  (forall (head : tNode) (first : string),
      printFN head first = Done (filter (selected first) (inorder head))).
Proof.
  split; [reflexivity|]. split.
  - intros double l r v h. unfold Lab3_1.printInOrder.
    apply Lab3_1_facts.printHelp_completes_on_a_node. discriminate.
  - split; [apply printAll_inorder|apply printFN_inorder].
Qed.

(** C3, the capacity of a new table.  As stated, with the minimum
    rounded up, the claim fails: [ceiling_minimum] is the minimum it
    names, 3 for one expected element, and the constructor makes a table
    of 2 buckets for every fuel. *)
Definition ceiling_minimum (expElementCt : Z) : Z :=
  (4 * expElementCt + 2) / 3 + 1.

Lemma C3_counterexample :
  ceiling_minimum 1 = 3 /\
  (forall fuel, hashTable_new nullptr fuel 1
                = Done (mkHashTable [nullptr; nullptr] 2)) /\
  ~ smallest_prime_geq (ceiling_minimum 1) 2.
Proof.
  split; [reflexivity|]. split; [reflexivity|].
  intros (_ & H & _). vm_compute in H. now apply H.
Qed.

(** C3 as the code has it: the conversion to [int] truncates, so the
    argument of [next_prime] is [expElementCt / 0.75 + 1] rounded towards
    zero, which is [floor(4 * expElementCt / 3) + 1] for a count that is
    not negative.  For every expected count that is an [int] and whose
    sizing argument is one, the constructor, given enough fuel for the
    loop of [next_prime], builds a table whose length is the smallest
    prime from that argument on; the length is an [int] and the table
    holds that many buckets. *)
Theorem C3_capacity_is_smallest_prime_from_truncated_minimum
    {cldManage : Type} (bucket : cldManage) (e : Z)
    (He : int_range e) (Hs : int_range (sizing_argument e)) :
  (0 <= e -> sizing_argument e = 4 * e / 3 + 1) /\
  exists q,
    smallest_prime_geq (sizing_argument e) q /\ q <= INT_MAX /\
    exists fuel0, forall fuel, (fuel0 <= fuel)%nat ->
      hashTable_new bucket fuel e
      = Done (mkHashTable (repeat bucket (Z.to_nat q)) q).
Proof.
  split; [apply sizing_argument_nonneg|].
  destruct (next_prime_correct (sizing_argument e)) as (q & Hq & Hle & fuel0 & Hrun);
    [apply Hs|].
  exists q. split; [assumption|]. split; [assumption|].
  exists fuel0. intros fuel Hf. unfold hashTable_new.
  now rewrite (Hrun fuel Hf).
Qed.

Lemma C3_witness :
  (0 <= 11 -> sizing_argument 11 = 4 * 11 / 3 + 1) /\
  exists q,
    smallest_prime_geq (sizing_argument 11) q /\ q <= INT_MAX /\
    exists fuel0, forall fuel, (fuel0 <= fuel)%nat ->
      hashTable_new nullptr fuel 11
      = Done (mkHashTable (repeat nullptr (Z.to_nat q)) q).
Proof.
  apply (C3_capacity_is_smallest_prime_from_truncated_minimum nullptr 11).
  - unfold int_range, INT_MIN, INT_MAX. lia.
  - unfold int_range, INT_MIN, INT_MAX. vm_compute. split; discriminate.
Defined.





(** C5, the hash is FNV-1a over the raw bytes of every key: the code
    departs from it where plain [char] is signed.  For the one-byte key
    0xE9 the operand of the XOR is the sign-extended value, the upper 56
    bits of the accumulator are flipped, and the result is not the
    FNV-1a hash of the byte. *)
Theorem C5_hash_sign_extends_high_bytes :
  raw_bytes (string_of_bytes [233%N]) = [233] /\
  hash SignedChar (string_of_bytes [233%N]) = 5808574465339960996 /\
  fnv1a_64 (raw_bytes (string_of_bytes [233%N])) = 12638336734137078692 /\
  hash SignedChar (string_of_bytes [233%N])
    <> fnv1a_64 (raw_bytes (string_of_bytes [233%N])).
Proof.
  split; [reflexivity|]. split; [now vm_compute|]. split; [now vm_compute|].
  now vm_compute.
Qed.

(** * Further properties of the code *)

(** ** Sequences of public operations on a tree *)

(** A call of the public interface of [class AVL] that changes the
    tree. *)
Inductive operation : Type :=
| Insert (v : person)
| Remove (t : string)
| RemoveFL (fn ln : string).

Definition apply_operation (head : tNode) (o : operation) : outcome tNode :=
  match o with
  | Insert v => Done (fst (insert head v))
  | Remove t => Done (fst (remove head t))
  | RemoveFL fn ln => removeFL head fn ln
  end.

(** The calls of [ops] one after the other. *)
Fixpoint apply_operations (head : tNode) (ops : list operation)
  : outcome tNode :=
  match ops with
  | [] => Done head
  | o :: rest =>
      head' <- apply_operation head o ;;
      apply_operations head' rest
  end.

Lemma apply_operations_reachable (ops : list operation) (head head' : tNode) :
  reachable head -> apply_operations head ops = Done head' -> reachable head'.
Proof.
  revert head. induction ops as [|o ops IH]; intros head Hr H.
  - inversion H; subst. assumption.
  - cbn [apply_operations] in H.
    destruct (apply_operation head o) as [h1|f] eqn:E; [|discriminate].
    cbn [bind] in H. apply (IH h1); [|assumption].
    destruct o as [v|t|fn ln]; cbn [apply_operation] in E.
    + inversion E; subst. now constructor.
    + inversion E; subst. now constructor.
    + eapply reach_removeFL; eassumption.
Qed.

(** X1.  Whatever calls of [insert], [remove] and [removeFL] are made on
    the empty tree, if they complete, the keys of the resulting tree
    increase strictly along the in-order traversal, no key occurs twice,
    and every node caches a height of at least 1. *)
Theorem X1_operations_keep_the_search_order
    (ops : list operation) (head : tNode)
    (Hrun : apply_operations nullptr ops = Done head) :
  StronglySorted StrOrd.lt (keys head) /\ NoDup (keys head) /\ hpos head.
Proof.
  assert (Hr : reachable head)
    by (eapply apply_operations_reachable; [constructor|eassumption]).
  destruct (reachable_tree_ok head Hr) as [Hb Hp].
  split; [exact Hb|]. split; [now apply sorted_NoDup|assumption].
Qed.

Definition sample_operations : list operation :=
  [Insert (isabella "2"); Insert (liam "1"); Insert (lucas "3");
   Insert (lucas "4"); Remove "1"; RemoveFL "Lucas" "Li"; Insert (liam "5")].

Definition sample_result : tNode :=
  Node nullptr (Node nullptr nullptr (liam "5") 1) (isabella "2") 2.

Lemma X1_witness :
  StronglySorted StrOrd.lt (keys sample_result) /\
  NoDup (keys sample_result) /\ hpos sample_result.
Proof.
  apply (X1_operations_keep_the_search_order sample_operations sample_result).
  vm_compute. reflexivity.
Defined.

(** X2.  Rebalancing a node whose subtrees cache positive heights never
    reads through a null pointer: whenever [balance] rotates, the child
    that the rotation dereferences is there, in the double rotations
    too. *)
Theorem X2_balance_reads_no_null_pointer
    (l r : tNode) (v : person) (h : Z) (Hl : hpos l) (Hr : hpos r) :
  balance_derefs (Node l r v h).
Proof. now apply balance_derefs_nodes. Qed.

Lemma X2_witness :
  balance_derefs
    (Node nullptr
          (Node nullptr (Node nullptr nullptr (liam "3") 1) (liam "2") 2)
          (liam "1") 3).
Proof.
  apply X2_balance_reads_no_null_pointer.
  - exact I.
  - simpl. lia.
Defined.

(** X3.  The rotations and [balance] move nodes but neither drop, add
    nor reorder records.  For a node whose two subtrees cache heights of
    at least 1, where [balance] finds every child it dereferences, the
    in-order sequence after [balance] is that of the node; and so it is
    after [rotateRight] when the node has a left child and after
    [rotateLeft] when it has a right child, whatever heights are
    cached. *)
Theorem X3_rebalancing_keeps_the_inorder_sequence
    (l r : tNode) (v : person) (h : Z) (Hl : hpos l) (Hr : hpos r) :
  balance_derefs (Node l r v h) /\
  inorder (balance (Node l r v h)) = inorder (Node l r v h) /\
  (has_left (Node l r v h) ->
   inorder (rotateRight (Node l r v h)) = inorder (Node l r v h)) /\
  (has_right (Node l r v h) ->
   inorder (rotateLeft (Node l r v h)) = inorder (Node l r v h)).
Proof.
  split; [now apply balance_derefs_nodes|].
  split; [apply inorder_balance|].
  split; intros _; [apply inorder_rotateRight|apply inorder_rotateLeft].
Qed.

(** A node that [balance] rotates to the left: its right subtree is two
    levels higher than the empty left one. *)
Definition right_heavy : tNode :=
  Node nullptr
       (Node nullptr (Node nullptr nullptr (liam "3") 1) (liam "2") 2)
       (liam "1") 3.

Lemma X3_witness :
  balance_derefs right_heavy /\
  inorder (balance right_heavy) = inorder right_heavy /\
  (has_left right_heavy ->
   inorder (rotateRight right_heavy) = inorder right_heavy) /\
  (has_right right_heavy ->
   inorder (rotateLeft right_heavy) = inorder right_heavy).
Proof.
  apply (X3_rebalancing_keeps_the_inorder_sequence
           nullptr
           (Node nullptr (Node nullptr nullptr (liam "3") 1) (liam "2") 2)
           (liam "1") 3).
  - exact I.
  - simpl. lia.
Defined.

(** X4.  Inserting a record whose key is not stored puts exactly that
    record into the in-order sequence, at the place its key gives it,
    writes nothing, and the tree holds one record more. *)
Theorem X4_insert_adds_exactly_the_record (T : tNode) (v : person)
    (HT : tree_ok T) (Hk : ~ In (number v) (keys T)) :
  inorder (fst (insert T v)) = ins_list v (inorder T) /\
  In v (inorder (fst (insert T v))) /\
  (forall p, In p (inorder T) -> In p (inorder (fst (insert T v)))) /\
  size (fst (insert T v)) = S (size T) /\
  snd (insert T v) = [].
Proof.
  destruct HT as [Hb Hp]. unfold insert.
  assert (E : inorder (fst (insertRec T v)) = ins_list v (inorder T))
    by now apply inorder_insertRec.
  assert (G : forall l, ~ In (number v) (map number l) ->
                        In v (ins_list v l) /\
                        (forall p, In p l -> In p (ins_list v l)) /\
                        List.length (ins_list v l) = S (List.length l)).
  { induction l as [|a l IH]; intros Hn.
    - simpl. auto.
    - simpl in Hn. simpl. destruct (number v <s number a) eqn:E1.
      + simpl. auto.
      + destruct (number a <s number v) eqn:E2.
        * destruct IH as (I1 & I2 & I3); [tauto|]. simpl.
          split; [auto|]. split; [|now rewrite I3].
          intros p [->|Hin]; auto.
        * exfalso. apply Hn. left. symmetry. now apply StrOrd.ltb_total. }
  destruct (G (inorder T) Hk) as (G1 & G2 & G3).
  split; [exact E|]. rewrite E. split; [exact G1|]. split; [exact G2|].
  split; [now rewrite !size_inorder, E, G3|].
  now apply output_insertRec_absent.
Qed.

Lemma X4_witness :
  inorder (fst (insert small_tree (lucas "25")))
    = ins_list (lucas "25") (inorder small_tree) /\
  In (lucas "25") (inorder (fst (insert small_tree (lucas "25")))) /\
  (forall p, In p (inorder small_tree) ->
             In p (inorder (fst (insert small_tree (lucas "25"))))) /\
  size (fst (insert small_tree (lucas "25"))) = S (size small_tree) /\
  snd (insert small_tree (lucas "25")) = [].
Proof.
  apply (X4_insert_adds_exactly_the_record small_tree (lucas "25")).
  - split.
    + unfold bst, sorted. vm_compute. repeat constructor.
    + vm_compute. intuition discriminate.
  - vm_compute. intuition discriminate.
Defined.

(** X5.  Removing a key that is stored takes exactly the record of that
    key out of the in-order sequence: no record of that key is left,
    every record of another key stays, in its order, and nothing is
    written. *)
Theorem X5_remove_deletes_exactly_the_key (T : tNode) (k : string)
    (HT : tree_ok T) (Hk : In k (keys T)) :
  inorder (fst (remove T k)) = del_list k (inorder T) /\
  ~ In k (keys (fst (remove T k))) /\
  (forall p, In p (inorder T) -> number p <> k ->
             In p (inorder (fst (remove T k)))) /\
  S (size (fst (remove T k))) = size T /\
  snd (remove T k) = [].
Proof.
  destruct HT as [Hb Hp]. unfold remove.
  assert (E : inorder (fst (removeRec T k)) = del_list k (inorder T))
    by now apply inorder_removeRec.
  split; [exact E|]. split; [unfold keys; rewrite E; apply del_list_not_In|].
  split.
  - intros p Hin Hne. rewrite E. unfold del_list. apply filter_In.
    split; [assumption|]. destruct (String.eqb_spec k (number p)); [|reflexivity].
    congruence.
  - split; [|now apply output_removeRec_present].
    rewrite !size_inorder, E. unfold keys in Hk. unfold bst in Hb.
    apply in_map_iff in Hk. destruct Hk as (a & Ha & Hin).
    apply in_split in Hin. destruct Hin as (l1 & l2 & El).
    rewrite El in *. subst k.
    rewrite (del_list_node (number a) l1 a l2 Hb eq_refl).
    rewrite !length_app. simpl. lia.
Qed.

Lemma X5_witness :
  inorder (fst (remove small_tree "2")) = del_list "2" (inorder small_tree) /\
  ~ In "2"%string (keys (fst (remove small_tree "2"))) /\
  (forall p, In p (inorder small_tree) -> number p <> "2"%string ->
             In p (inorder (fst (remove small_tree "2")))) /\
  S (size (fst (remove small_tree "2"))) = size small_tree /\
  snd (remove small_tree "2") = [].
Proof.
  apply (X5_remove_deletes_exactly_the_key small_tree "2").
  - split.
    + unfold bst, sorted. vm_compute. repeat constructor.
    + vm_compute. intuition discriminate.
  - vm_compute. tauto.
Defined.

Lemma retrieve_stored (T : tNode) (p : person) :
  tree_ok T -> In p (inorder T) -> retrieve T (number p) = p.
Proof.
  intros [Hb _] Hp. unfold retrieve.
  rewrite retrieveRec_lookup by assumption.
  apply in_split in Hp. destruct Hp as (l1 & l2 & El).
  unfold bst in Hb. rewrite El in *.
  apply sorted_app_iff in Hb. destruct Hb as (_ & _ & H1 & _).
  rewrite lookup_list_app_r by now apply Forall_gt_not_In.
  now apply lookup_list_here.
Qed.

(** X6.  Every record stored in a tree of the class is what [retrieve]
    returns for its key. *)
Theorem X6_retrieve_finds_every_stored_record (T : tNode) (p : person)
    (HT : tree_ok T) (Hp : In p (inorder T)) :
  retrieve T (number p) = p.
Proof. now apply retrieve_stored. Qed.

Lemma X6_witness : retrieve small_tree (number (liam "3")) = liam "3".
Proof.
  apply (X6_retrieve_finds_every_stored_record small_tree (liam "3")).
  - split.
    + unfold bst, sorted. vm_compute. repeat constructor.
    + vm_compute. intuition discriminate.
  - vm_compute. tauto.
Defined.

(** ** Removal by name and printing *)

Lemma removeRecFL_absent (fuel : nat) (node : tNode) (fn ln : string) :
  (size node < fuel)%nat ->
  Forall (fun p => same_name fn ln p = false) (inorder node) ->
  exists node', removeRecFL fuel node fn ln = Done node' /\
                inorder node' = inorder node.
Proof.
  revert node. induction fuel as [|fuel IH]; intros node Hs Hf; [lia|].
  destruct node as [|l r val h]; [exists nullptr; split; reflexivity|].
  simpl in Hs. rewrite inorder_node in Hf.
  apply Forall_app in Hf. destruct Hf as [Hl Hr].
  apply Forall_cons_iff in Hr. destruct Hr as [Hv Hr].
  destruct (IH l) as (l' & El & Il); [lia|assumption|].
  destruct (IH r) as (r' & Er & Ir); [lia|assumption|].
  rewrite removeRecFL_node, El, Er. cbn [bind]. rewrite Hv.
  eexists. split; [reflexivity|].
  now rewrite inorder_updateAndBalance, !inorder_node, Il, Ir.
Qed.

(** A run in which the names of the inner call change on the way.  The
    root matches and has two children; its successor, Liam Li with
    number 3, has a right child, Lucas Li with number 4, and takes over
    the content of that child when the inner call reaches it.  The inner
    call goes on with the names of Lucas Li and removes the Lucas Li
    with number 6 further up, which has neither the names asked for nor
    those of the successor.  Had the successor been a leaf, it would
    have been deleted and the next comparison would have read its
    strings. *)
Definition emma (num : string) : person := mkPerson "Emma" "Stone" num.

Definition successor_with_child : tNode :=
  Node (Node (Node nullptr nullptr (liam "0") 1) nullptr (liam "1") 2)
       (Node (Node nullptr (Node nullptr nullptr (lucas "4") 1) (liam "3") 2)
             (Node nullptr nullptr (lucas "6") 1)
             (emma "5") 3)
       (isabella "2") 4.

Definition successor_leaf : tNode :=
  Node (Node (Node nullptr nullptr (liam "0") 1) nullptr (liam "1") 2)
       (Node (Node nullptr nullptr (liam "3") 1)
             (Node nullptr nullptr (lucas "6") 1)
             (emma "5") 2)
       (isabella "2") 3.

Lemma removeFL_through_a_reference :
  (exists head',
     removeFL successor_with_child "Isabella" "Anderson" = Done head' /\
     inorder head'
     = [liam "0"; liam "1"; liam "3"; lucas "4"; emma "5"]) /\
  removeFL successor_leaf "Isabella" "Anderson" = Fault StaleReference.
Proof.
  split; [|reflexivity]. eexists. split; [vm_compute; reflexivity|reflexivity].
Qed.

(** X7.  When [removeFL] completes, no record of the resulting tree
    carries the two names, and the records that are left are records of
    the original tree in their original order: nothing is added or
    moved.  The runs that complete include those in which the names of
    an inner call change on the way; a run that reads a name of a
    deleted node has no result. *)
Theorem X7_removeFL_clears_the_name (head head' : tNode) (fn ln : string)
    (Hrun : removeFL head fn ln = Done head') :
  Forall (fun p => first_name p <> fn \/ last_name p <> ln) (inorder head') /\
  sublist (inorder head') (inorder head) /\
  (size head' <= size head)%nat.
Proof.
  unfold removeFL in Hrun. pose proof (removeRecFL_size _ _ _ _ _ Hrun) as Hs.
  apply removeRecFL_done in Hrun. destruct Hrun as [Hsub Hall].
  split; [|split; assumption].
  eapply Forall_impl; [|exact Hall]. intros p Hp. unfold same_name in Hp.
  apply andb_false_iff in Hp. destruct Hp as [Hp|Hp];
    apply String.eqb_neq in Hp; [left|right]; congruence.
Qed.

(** What [removeFL] returns for [successor_with_child]. *)
Definition successor_with_child_removed : tNode :=
  Node (Node (Node nullptr nullptr (liam "0") 1) nullptr (liam "1") 2)
       (Node (Node nullptr nullptr (lucas "4") 1) nullptr (emma "5") 2)
       (liam "3") 3.

Lemma X7_witness :
  Forall (fun p => first_name p <> "Isabella"%string
                   \/ last_name p <> "Anderson"%string)
         (inorder successor_with_child_removed) /\
  sublist (inorder successor_with_child_removed)
          (inorder successor_with_child) /\
  (size successor_with_child_removed <= size successor_with_child)%nat.
Proof.
  apply (X7_removeFL_clears_the_name
           successor_with_child successor_with_child_removed
           "Isabella" "Anderson").
  vm_compute. reflexivity.
Defined.

(** X8.  [removeFL] never stops for lack of fuel, and with two names
    that no record of the tree carries it completes and leaves the
    in-order sequence as it was. *)
Theorem X8_removeFL_of_an_absent_name (head : tNode) (fn ln : string)
    (Habsent : Forall (fun p => same_name fn ln p = false) (inorder head)) :
  removeFL head fn ln <> Fault FuelExhausted /\
  exists head', removeFL head fn ln = Done head' /\
                inorder head' = inorder head.
Proof.
  unfold removeFL. split.
  - apply removeRecFL_fuel. lia.
  - apply removeRecFL_absent; [lia|assumption].
Qed.

Lemma X8_witness :
  removeFL small_tree "Lucas" "Li" <> Fault FuelExhausted /\
  exists head', removeFL small_tree "Lucas" "Li" = Done head' /\
                inorder head' = inorder small_tree.
Proof.
  apply (X8_removeFL_of_an_absent_name small_tree "Lucas" "Li").
  vm_compute. repeat constructor.
Defined.

(** X9.  [printFN] writes the records of the in-order sequence whose
    first name is the one asked for, in that order, and completes on
    every tree; asked for the single space, the default argument of the
    helper, it writes every record, as [printAll] does. *)
Theorem X9_printFN_selects_by_first_name (head : tNode) (first : string) :
  (first <> " "%string ->
   printFN head first
   = Done (filter (fun p => String.eqb first (first_name p)) (inorder head))) /\
  printFN head " " = printAll head.
Proof.
  split.
  - intros Hne. rewrite printFN_inorder. f_equal.
    apply filter_ext. intros p. unfold selected.
    destruct (String.eqb_spec first " "); [contradiction|reflexivity].
  - now rewrite printFN_inorder, printAll_inorder, filter_all.
Qed.

(** ** The prime sizing utility *)

Lemma generate_loop_keeps (fuel : nat) (limit i : Z) (primes : list Z) (p : Z) :
  In p primes -> In p (generate_loop fuel limit i primes).
Proof.
  revert i primes. induction fuel as [|fuel IH]; intros i primes Hin; [assumption|].
  simpl. destruct (i <=? limit); [|assumption].
  apply IH. destruct (is_prime_flag primes i); [|assumption].
  apply in_or_app. now left.
Qed.

(** X10.  For a limit from 2 to [small_limit_max], the range in which
    [next_prime] calls it and in which neither a product
    [prime * prime] nor a step [i += 2] leaves the [int]s,
    [generate_small_primes] returns the primes up to the limit, each
    once, in ascending order, and nothing else. *)
Theorem X10_generate_small_primes_lists_the_primes (limit : Z)
    (Hl : 2 <= limit) (Hu : limit <= small_limit_max) :
  StronglySorted Z.lt (generate_small_primes limit) /\
  forall p, In p (generate_small_primes limit) <-> (Z.prime p /\ p <= limit).
Proof. now apply generate_small_primes_spec. Qed.

Lemma X10_witness :
  StronglySorted Z.lt (generate_small_primes 50) /\
  forall p, In p (generate_small_primes 50) <-> (Z.prime p /\ p <= 50).
Proof.
  apply (X10_generate_small_primes_lists_the_primes 50).
  - lia.
  - unfold small_limit_max. lia.
Defined.

(** X11.  The list of [generate_small_primes] holds 2 whatever the
    limit, also a limit below 2 (a negative one included), where 2 is
    above the limit: for every limit below 3 the list is exactly [2]. *)
Theorem X11_generate_small_primes_always_holds_2 (limit : Z) :
  In 2 (generate_small_primes limit) /\
  (limit < 3 -> generate_small_primes limit = [2]).
Proof.
  split.
  - apply generate_loop_keeps. now left.
  - intros Hl. unfold generate_small_primes.
    destruct (Z.to_nat limit) as [|fuel]; [reflexivity|]. simpl.
    destruct (Z.leb_spec 3 limit); [lia|reflexivity].
Qed.

Lemma is_prime_accepts (m : Z) (P : list Z) :
  (forall p, In p P -> 1 < p) -> Z.prime m -> is_prime m P = true.
Proof.
  intros HP Hm. pose proof (Z.prime_ge_2 m Hm) as H2. unfold is_prime.
  destruct (Z.leb_spec m 1); [lia|].
  destruct (Z.eqb_spec m 2); [reflexivity|].
  destruct (Z.rem m 2 =? 0) eqn:E2.
  { exfalso. apply (prime_no_small_divisor m 2 Hm); [lia|lia|].
    now apply rem_zero_divide. }
  destruct (is_prime_scan P (Z.sqrt m) m) eqn:Hf; [reflexivity|].
  apply is_prime_scan_false in Hf; [|assumption].
  destruct Hf as (p & Hin & Hle & Hd).
  pose proof (HP p Hin). pose proof (sqrt_lt_self m ltac:(lia)).
  exfalso. apply (prime_no_small_divisor m p Hm); [lia|lia|assumption].
Qed.

(** X12.  [is_prime] never rejects a prime: with any list of numbers
    above 1, complete or not, it returns true on every prime. *)
Theorem X12_is_prime_accepts_every_prime (num : Z) (primes : list Z)
    (Hlist : forall p, In p primes -> 1 < p) (Hnum : Z.prime num) :
  is_prime num primes = true.
Proof. now apply is_prime_accepts. Qed.

Lemma X12_witness : is_prime 3 [2; 4; 9] = true.
Proof.
  apply (X12_is_prime_accepts_every_prime 3 [2; 4; 9]).
  - simpl. intros p Hp. lia.
  - apply Z.prime_3.
Defined.

(** X13.  For an [int] and the list of [generate_small_primes] for a
    limit from 2 to [small_limit_max] that reaches the square root of
    the number, [is_prime] is exact: it returns true on the primes and
    only on them (0, 1, negative and even numbers included). *)
Theorem X13_is_prime_is_exact_with_enough_primes (num limit : Z)
    (Hn : INT_MIN <= num <= INT_MAX)
    (Hl : 2 <= limit) (Hu : limit <= small_limit_max)
    (Hs : Z.sqrt num <= limit) :
  is_prime num (generate_small_primes limit) = true <-> Z.prime num.
Proof.
  apply (is_prime_prime limit); [now apply generate_small_primes_spec|assumption].
Qed.

Lemma X13_witness :
  is_prime 91 (generate_small_primes 10) = true <-> Z.prime 91.
Proof.
  apply (X13_is_prime_is_exact_with_enough_primes 91 10).
  - unfold INT_MIN, INT_MAX. lia.
  - lia.
  - unfold small_limit_max. lia.
  - vm_compute. discriminate.
Defined.

(** X14.  The caveat written above [is_prime] is real: when every number
    of the list is a prime below an odd prime [p], the composite [p * p]
    passes as prime. *)
Theorem X14_is_prime_accepts_the_square_of_a_missing_prime
    (p : Z) (primes : list Z)
    (Hp : Z.prime p) (Hodd : 2 < p)
    (Hlist : forall q, In q primes -> Z.prime q /\ q < p) :
  is_prime (p * p) primes = true /\ ~ Z.prime (p * p).
Proof.
  split; [|apply Z.not_prime_square].
  unfold is_prime.
  destruct (Z.leb_spec (p * p) 1); [nia|].
  destruct (Z.eqb_spec (p * p) 2); [nia|].
  destruct (Z.rem (p * p) 2 =? 0) eqn:E2.
  { exfalso. apply rem_zero_divide in E2; [|lia].
    apply Z.divide_prime_mul in E2; [|apply Z.prime_2].
    assert (H2 : (2 | p)) by tauto.
    apply (prime_no_small_divisor p 2 Hp); [lia|lia|assumption]. }
  destruct (is_prime_scan primes (Z.sqrt (p * p)) (p * p)) eqn:Hf; [reflexivity|].
  apply is_prime_scan_false in Hf.
  - destruct Hf as (q & Hin & _ & Hd). destruct (Hlist q Hin) as [Hq Hlt].
    pose proof (Z.prime_ge_2 q Hq).
    apply Z.divide_prime_mul in Hd; [|assumption].
    exfalso. apply (prime_no_small_divisor p q Hp); [lia|lia|tauto].
  - intros q Hin. destruct (Hlist q Hin) as [Hq _].
    pose proof (Z.prime_ge_2 q Hq). lia.
Qed.

Lemma X14_witness : is_prime (3 * 3) [2] = true /\ ~ Z.prime (3 * 3).
Proof.
  apply (X14_is_prime_accepts_the_square_of_a_missing_prime 3 [2]).
  - apply Z.prime_3.
  - lia.
  - simpl. intros q [<-|[]]. split; [apply Z.prime_2|lia].
Defined.

(** X15.  On every [int], positive or not, [next_prime] with enough fuel
    for its loop returns the smallest prime that is not below its
    argument; that prime is itself an [int], so the increments of the
    loop never pass [INT_MAX]. *)
Theorem X15_next_prime_returns_the_smallest_prime (n : Z)
    (Hn : int_range n) :
  exists q, Z.prime q /\ n <= q <= INT_MAX /\
            (forall p, Z.prime p -> n <= p -> q <= p) /\
            exists fuel0, forall fuel, (fuel0 <= fuel)%nat ->
                                       next_prime fuel n = Done q.
Proof.
  destruct (next_prime_correct n) as (q & (Hq & Hle & Hmin) & Hmax & Hrun);
    [apply Hn|].
  exists q. split; [assumption|]. split; [lia|]. split; assumption.
Qed.

Lemma X15_witness :
  exists q, Z.prime q /\ 15 <= q <= INT_MAX /\
            (forall p, Z.prime p -> 15 <= p -> q <= p) /\
            exists fuel0, forall fuel, (fuel0 <= fuel)%nat ->
                                       next_prime fuel 15 = Done q.
Proof.
  apply (X15_next_prime_returns_the_smallest_prime 15).
  unfold int_range, INT_MIN, INT_MAX. lia.
Defined.

Lemma next_prime_loop_done (fuel : nat) (n q : Z) (P : list Z) :
  next_prime_loop fuel n P = Done q -> n <= q /\ is_prime q P = true.
Proof.
  revert n. induction fuel as [|fuel IH]; intros n H; [discriminate|].
  simpl in H. destruct (is_prime n P) eqn:E.
  - inversion H; subst. split; [lia|assumption].
  - apply IH in H. destruct H. split; [lia|assumption].
Qed.

Lemma next_prime_done_ge_2 (fuel : nat) (n q : Z) :
  next_prime fuel n = Done q -> 2 <= q /\ n <= q.
Proof.
  unfold next_prime. destruct (Z.leb_spec n 2) as [H2|H2].
  - intros H. inversion H; subst. lia.
  - intros H. apply next_prime_loop_done in H. destruct H as [Hle Hp].
    pose proof (first_candidate_bounds n) as Hb. unfold first_candidate in Hb.
    split; [|lia]. unfold is_prime in Hp.
    destruct (Z.leb_spec q 1); [discriminate|lia].
Qed.

(** X16.  [next_prime] is idempotent and monotone on the [int]s: run
    with enough fuel, its result is a fixed point, and a larger argument
    never gives a smaller prime. *)
Theorem X16_next_prime_is_idempotent_and_monotone (n m : Z)
    (Hn : int_range n) (Hm : int_range m) (Hnm : n <= m) :
  exists qn qm fuel0,
    qn <= qm /\
    forall fuel, (fuel0 <= fuel)%nat ->
      next_prime fuel n = Done qn /\ next_prime fuel m = Done qm /\
      next_prime fuel qn = Done qn.
Proof.
  destruct (next_prime_correct n) as (qn & (Hq & Hle & Hmin) & Hmax & f1 & Hr1);
    [apply Hn|].
  destruct (next_prime_correct m) as (qm & (Hq' & Hle' & Hmin') & Hmax' & f2 & Hr2);
    [apply Hm|].
  destruct (next_prime_correct qn) as (qq & (Hq2 & Hle2 & Hmin2) & _ & f3 & Hr3);
    [assumption|].
  assert (qq = qn) by (pose proof (Hmin2 qn Hq ltac:(lia)); lia). subst qq.
  exists qn, qm, (Nat.max f1 (Nat.max f2 f3)). split.
  - apply Hmin; [assumption|lia].
  - intros fuel Hf. repeat split; [apply Hr1|apply Hr2|apply Hr3]; lia.
Qed.

Lemma X16_witness :
  exists qn qm fuel0,
    qn <= qm /\
    forall fuel, (fuel0 <= fuel)%nat ->
      next_prime fuel 9 = Done qn /\ next_prime fuel 15 = Done qm /\
      next_prime fuel qn = Done qn.
Proof.
  apply (X16_next_prime_is_idempotent_and_monotone 9 15);
    unfold int_range, INT_MIN, INT_MAX; lia.
Defined.

(** ** The hash and the table *)

(** X17.  Where plain [char] is unsigned, and everywhere for a key whose
    bytes are all below 128, [hash] is the 64-bit FNV-1a hash of the
    bytes of the key. *)
Theorem X17_hash_is_fnv1a_on_seven_bit_keys (ct : char_type) (key : string)
    (Hkey : ct = UnsignedChar \/ Forall (fun b => b < 128) (raw_bytes key)) :
  hash ct key = fnv1a_64 (raw_bytes key).
Proof. now apply hash_loop_fnv1a. Qed.

Lemma X17_witness : hash SignedChar "Liam" = fnv1a_64 (raw_bytes "Liam").
Proof.
  apply (X17_hash_is_fnv1a_on_seven_bit_keys SignedChar "Liam").
  right. vm_compute. repeat constructor.
Defined.

(** ** The array of buckets *)

(** [hashTable::retrieve]: the bucket [table[hash(key) % len]]; [None]
    stands for an index outside the array. *)
Definition hashTable_retrieve {cldManage : Type} (ct : char_type)
    (h : hashTable cldManage) (key : string) : option cldManage :=
  nth_error (table h) (Z.to_nat (bucket_index ct h key)).

(** [l[i] = b]; nothing is written outside the list. *)
Fixpoint assign_nth {A : Type} (l : list A) (i : nat) (b : A) : list A :=
  match l, i with
  | [], _ => []
  | _ :: rest, O => b :: rest
  | a :: rest, S i' => a :: assign_nth rest i' b
  end.

(** A write through the reference that [retrieve] returns. *)
Definition hashTable_assign {cldManage : Type} (ct : char_type)
    (h : hashTable cldManage) (key : string) (b : cldManage)
  : hashTable cldManage :=
  mkHashTable (assign_nth (table h) (Z.to_nat (bucket_index ct h key)) b)
              (len h).

(** What the two template parameters of the source have to offer for
    [hashTable::printAll] and [hashTable::printFN] to compile. *)
Class Printable (cldManage : Type) : Type := {
  print_all : cldManage -> outcome (list person);
  print_fn : cldManage -> string -> outcome (list person)
}.

#[export] Instance AVL_Printable : Printable tNode :=
  {| print_all := printAll; print_fn := printFN |}.

(** The buckets one after the other, the first fault ending the run. *)
Fixpoint print_buckets {A : Type} (f : A -> outcome (list person))
    (buckets : list A) : outcome (list person) :=
  match buckets with
  | [] => Done []
  | b :: rest =>
      out <- f b ;;
      outs <- print_buckets f rest ;;
      Done (out ++ outs)
  end.

(** [hashTable::printAll] and [hashTable::printFN]: the buckets
    [table[0]] to [table[len - 1]], in this order. *)
Definition hashTable_printAll {A : Type} `{Printable A} (h : hashTable A)
  : outcome (list person) :=
  print_buckets print_all (firstn (Z.to_nat (len h)) (table h)).

Definition hashTable_printFN {A : Type} `{Printable A} (h : hashTable A)
    (first : string) : outcome (list person) :=
  print_buckets (fun b => print_fn b first) (firstn (Z.to_nat (len h)) (table h)).

#[export] Instance hashTable_Printable {A : Type} `{Printable A}
  : Printable (hashTable A) :=
  {| print_all := hashTable_printAll; print_fn := hashTable_printFN |}.

(** The array has [len] buckets and [len] is positive. *)
Definition table_ok {A : Type} (h : hashTable A) : Prop :=
  0 < len h /\ List.length (table h) = Z.to_nat (len h).

(** ** The directory of [main]: first name, then last name, then a tree *)

Definition phonebook : Type := hashTable (hashTable tNode).

(** [hashTable<hashTable<AVL>> table(11);] the inner tables are
    default-constructed, that is with the default argument 6. *)
Definition phonebook_new (fuel : nat) : outcome phonebook :=
  inner <- hashTable_new nullptr fuel 6 ;;
  hashTable_new inner fuel 11.

(** [table.retrieve(fn).retrieve(ln)]. *)
Definition phonebook_tree (ct : char_type) (book : phonebook)
    (fn ln : string) : option tNode :=
  match hashTable_retrieve ct book fn with
  | Some inner => hashTable_retrieve ct inner ln
  | None => None
  end.

(** The tree behind [table.retrieve(fn).retrieve(ln)] replaced. *)
Definition phonebook_set_tree (ct : char_type) (book : phonebook)
    (fn ln : string) (tree : tNode) : option phonebook :=
  match hashTable_retrieve ct book fn with
  | Some inner =>
      Some (hashTable_assign ct book fn (hashTable_assign ct inner ln tree))
  | None => None
  end.

(** [table.retrieve(temp.first_name).retrieve(temp.last_name).insert(temp);] *)
Definition phonebook_insert (ct : char_type) (book : phonebook)
    (temp : person) : option (phonebook * list string) :=
  match phonebook_tree ct book (first_name temp) (last_name temp) with
  | Some tree =>
      let (tree', out) := insert tree temp in
      match phonebook_set_tree ct book (first_name temp) (last_name temp) tree' with
      | Some book' => Some (book', out)
      | None => None
      end
  | None => None
  end.

(** [table.retrieve(fn).retrieve(ln).removeFL(fn, ln);] *)
Definition phonebook_removeFL (ct : char_type) (book : phonebook)
    (fn ln : string) : option (outcome phonebook) :=
  match phonebook_tree ct book fn ln with
  | Some tree =>
      match removeFL tree fn ln with
      | Done tree' =>
          match phonebook_set_tree ct book fn ln tree' with
          | Some book' => Some (Done book')
          | None => None
          end
      | Fault f => Some (Fault f)
      end
  | None => None
  end.

(** The updates [main] makes, and a run of them that neither leaves an
    array nor ends in a fault. *)
Inductive book_operation : Type :=
| BookInsert (temp : person)
| BookRemoveFL (fn ln : string).

Fixpoint phonebook_run (ct : char_type) (book : phonebook)
    (ops : list book_operation) : option phonebook :=
  match ops with
  | [] => Some book
  | BookInsert temp :: rest =>
      match phonebook_insert ct book temp with
      | Some (book', _) => phonebook_run ct book' rest
      | None => None
      end
  | BookRemoveFL fn ln :: rest =>
      match phonebook_removeFL ct book fn ln with
      | Some (Done book') => phonebook_run ct book' rest
      | _ => None
      end
  end.

(** All records of the directory, bucket by bucket. *)
Definition phonebook_records (book : phonebook) : list person :=
  flat_map (fun inner => flat_map inorder (table inner)) (table book).

(** Every array is as long as its [len], every tree is ordered, and
    every record sits in the tree that its two names select. *)
Definition book_inv (ct : char_type) (book : phonebook) : Prop :=
  table_ok book /\
  forall i inner, nth_error (table book) i = Some inner ->
    table_ok inner /\
    forall j tree, nth_error (table inner) j = Some tree ->
      tree_ok tree /\
      forall p, In p (inorder tree) ->
        i = Z.to_nat (bucket_index ct book (first_name p)) /\
        j = Z.to_nat (bucket_index ct inner (last_name p)).

Section TableLemmas.

Context {A : Type}.
Implicit Types (h : hashTable A) (l : list A) (b : A).

Lemma hash_loop_range (ct : char_type) (key : string) (acc : Z) :
  0 <= acc < ULL -> 0 <= hash_loop ct key acc < ULL.
Proof.
  revert acc. induction key as [|c key IH]; intros acc Ha; [assumption|].
  simpl. apply IH. apply Z.mod_pos_bound. reflexivity.
Qed.

Lemma bucket_index_range (ct : char_type) h (key : string) :
  0 < len h -> 0 <= bucket_index ct h key < len h.
Proof. intros Hl. unfold bucket_index. now apply Z.mod_pos_bound. Qed.

Lemma length_assign_nth l i b : List.length (assign_nth l i b) = List.length l.
Proof.
  revert i. induction l as [|a l IH]; intros [|i]; simpl; auto.
Qed.

Lemma nth_error_assign_same l i b :
  (i < List.length l)%nat -> nth_error (assign_nth l i b) i = Some b.
Proof.
  revert i. induction l as [|a l IH]; intros [|i] Hi; simpl in *; try lia.
  - reflexivity.
  - apply IH. lia.
Qed.

Lemma nth_error_assign_other l i j b :
  i <> j -> nth_error (assign_nth l i b) j = nth_error l j.
Proof.
  revert i j. induction l as [|a l IH]; intros [|i] [|j] Hne; simpl; auto;
    try contradiction.
Qed.

Lemma index_in_table (ct : char_type) h (key : string) :
  table_ok h -> (Z.to_nat (bucket_index ct h key) < List.length (table h))%nat.
Proof.
  intros [Hl Hlen]. pose proof (bucket_index_range ct h key Hl). lia.
Qed.

Lemma retrieve_in_table (ct : char_type) h (key : string) :
  table_ok h -> exists b, hashTable_retrieve ct h key = Some b.
Proof.
  intros Hok. unfold hashTable_retrieve.
  destruct (nth_error (table h) (Z.to_nat (bucket_index ct h key))) eqn:E; [eauto|].
  apply nth_error_None in E. pose proof (index_in_table ct h key Hok). lia.
Qed.

Lemma table_ok_assign (ct : char_type) h (key : string) b :
  table_ok h -> table_ok (hashTable_assign ct h key b).
Proof.
  intros [Hl Hlen]. split; [exact Hl|]. simpl. now rewrite length_assign_nth.
Qed.

Lemma hashTable_new_done b (fuel : nat) (e : Z) h :
  hashTable_new b fuel e = Done h ->
  2 <= len h /\ table h = repeat b (Z.to_nat (len h)).
Proof.
  unfold hashTable_new. intros H.
  destruct (next_prime fuel (sizing_argument e)) as [n|f] eqn:E; [|discriminate].
  cbn [bind] in H. inversion H; subst. simpl.
  apply next_prime_done_ge_2 in E. split; [lia|reflexivity].
Qed.

Lemma hashTable_new_ok b (fuel : nat) (e : Z) h :
  hashTable_new b fuel e = Done h -> table_ok h.
Proof.
  intros H. apply hashTable_new_done in H. destruct H as [H2 Ht].
  split; [lia|]. rewrite Ht at 1. apply repeat_length.
Qed.

Lemma nth_error_repeat_eq b (n i : nat) (x : A) :
  nth_error (repeat b n) i = Some x -> x = b.
Proof.
  intros H. apply nth_error_In in H. now apply repeat_spec in H.
Qed.

End TableLemmas.

(** X18.  Whatever count the constructor is given, among the [int]s
    for which the [double] it computes converts to an [int], if it
    completes, the table has at least 2 buckets, as many as [len] says,
    and [retrieve] with any key stays inside the array and returns a
    bucket that is still as default-constructed. *)
Theorem X18_retrieve_on_a_new_table
    {cldManage : Type} (bucket : cldManage) (fuel : nat) (e : Z)
    (h : hashTable cldManage)
    (He : INT_MIN <= e <= INT_MAX)
    (Hs : INT_MIN <= sizing_argument e <= INT_MAX)
    (Hnew : hashTable_new bucket fuel e = Done h) :
  2 <= len h /\ List.length (table h) = Z.to_nat (len h) /\
  forall ct key, hashTable_retrieve ct h key = Some bucket.
Proof.
  pose proof (hashTable_new_ok _ _ _ _ Hnew) as Hok.
  pose proof (hashTable_new_done _ _ _ _ Hnew) as [H2 Ht].
  split; [assumption|]. split; [apply Hok|].
  intros ct key. destruct (retrieve_in_table ct h key Hok) as [b Hb].
  rewrite Hb. f_equal. unfold hashTable_retrieve in Hb. rewrite Ht in Hb.
  now apply nth_error_repeat_eq in Hb.
Qed.

Lemma X18_witness :
  2 <= len (mkHashTable (repeat nullptr 17) 17) /\
  List.length (table (mkHashTable (repeat nullptr 17) 17))
    = Z.to_nat (len (mkHashTable (repeat nullptr 17) 17)) /\
  forall ct key,
    hashTable_retrieve ct (mkHashTable (repeat nullptr 17) 17) key = Some nullptr.
Proof.
  apply (X18_retrieve_on_a_new_table nullptr 2 11).
  - unfold INT_MIN, INT_MAX. lia.
  - unfold INT_MIN, INT_MAX. vm_compute. split; discriminate.
  - vm_compute. reflexivity.
Defined.

Section BookLemmas.

Variable ct : char_type.
Implicit Types (book : phonebook) (inner : hashTable tNode) (tree : tNode).

Lemma phonebook_new_inv (fuel : nat) book :
  phonebook_new fuel = Done book -> book_inv ct book.
Proof.
  unfold phonebook_new. intros H.
  destruct (hashTable_new nullptr fuel 6) as [inner0|f] eqn:Ei; [|discriminate].
  cbn [bind] in H.
  pose proof (hashTable_new_ok _ _ _ _ H) as Hok.
  pose proof (hashTable_new_done _ _ _ _ H) as [_ Ht].
  pose proof (hashTable_new_ok _ _ _ _ Ei) as Hoki.
  pose proof (hashTable_new_done _ _ _ _ Ei) as [_ Hti].
  split; [assumption|]. intros i inner Hi.
  rewrite Ht in Hi. apply nth_error_repeat_eq in Hi. subst inner.
  split; [assumption|]. intros j tree Hj.
  rewrite Hti in Hj. apply nth_error_repeat_eq in Hj. subst tree.
  split; [split; [apply sorted_nil|exact I]|]. intros p [].
Qed.

(** Replacing the tree that two names select by a tree whose records
    all carry names of that bucket keeps the invariant. *)
Lemma book_inv_set_tree book (fn ln : string) inner tree' book' :
  book_inv ct book ->
  hashTable_retrieve ct book fn = Some inner ->
  tree_ok tree' ->
  (forall p, In p (inorder tree') ->
     bucket_index ct book (first_name p) = bucket_index ct book fn /\
     bucket_index ct inner (last_name p) = bucket_index ct inner ln) ->
  phonebook_set_tree ct book fn ln tree' = Some book' ->
  book_inv ct book'.
Proof.
  intros [Hok Hinv] Hinner Htree Hplace Hset.
  unfold phonebook_set_tree in Hset. rewrite Hinner in Hset.
  inversion Hset; subst book'. clear Hset.
  unfold hashTable_retrieve in Hinner.
  destruct (Hinv _ _ Hinner) as [Hoki Hinvi].
  split; [now apply table_ok_assign|].
  intros i inner1 Hi. cbn [hashTable_assign table] in Hi.
  destruct (Nat.eq_dec (Z.to_nat (bucket_index ct book fn)) i) as [Ei|Ei].
  - subst i. rewrite nth_error_assign_same in Hi by now apply index_in_table.
    inversion Hi; subst inner1. clear Hi.
    split; [now apply table_ok_assign|].
    intros j tree Hj. cbn [hashTable_assign table] in Hj.
    destruct (Nat.eq_dec (Z.to_nat (bucket_index ct inner ln)) j) as [Ej|Ej].
    + subst j. rewrite nth_error_assign_same in Hj by now apply index_in_table.
      inversion Hj; subst tree. split; [assumption|].
      intros p Hp. destruct (Hplace p Hp) as [H1 H2].
      unfold bucket_index in *. cbn [hashTable_assign len]. now rewrite H1, H2.
    + rewrite nth_error_assign_other in Hj by assumption.
      destruct (Hinvi _ _ Hj) as [Ht Hp]. split; [assumption|].
      intros p Hin. apply Hp in Hin. exact Hin.
  - rewrite nth_error_assign_other in Hi by assumption.
    destruct (Hinv _ _ Hi) as [Hok1 Hinv1]. split; [assumption|].
    intros j tree Hj. destruct (Hinv1 _ _ Hj) as [Ht Hp].
    split; [assumption|]. intros p Hin. apply Hp in Hin. exact Hin.
Qed.

Lemma phonebook_tree_inv book (fn ln : string) tree :
  book_inv ct book -> phonebook_tree ct book fn ln = Some tree ->
  exists inner,
    hashTable_retrieve ct book fn = Some inner /\
    hashTable_retrieve ct inner ln = Some tree /\
    tree_ok tree /\
    forall p, In p (inorder tree) ->
      bucket_index ct book (first_name p) = bucket_index ct book fn /\
      bucket_index ct inner (last_name p) = bucket_index ct inner ln.
Proof.
  intros [Hok Hinv] Ht. unfold phonebook_tree in Ht.
  destruct (hashTable_retrieve ct book fn) as [inner|] eqn:Ei; [|discriminate].
  exists inner. split; [reflexivity|]. split; [assumption|].
  unfold hashTable_retrieve in Ei, Ht.
  destruct (Hinv _ _ Ei) as [Hoki Hinvi].
  destruct (Hinvi _ _ Ht) as [Htree Hp]. split; [assumption|].
  intros p Hin. destruct (Hp p Hin) as [H1 H2].
  pose proof (bucket_index_range ct book (first_name p) (proj1 Hok)).
  pose proof (bucket_index_range ct book fn (proj1 Hok)).
  pose proof (bucket_index_range ct inner (last_name p) (proj1 Hoki)).
  pose proof (bucket_index_range ct inner ln (proj1 Hoki)).
  split; lia.
Qed.

Lemma phonebook_tree_some book (fn ln : string) :
  book_inv ct book -> exists tree, phonebook_tree ct book fn ln = Some tree.
Proof.
  intros [Hok Hinv]. unfold phonebook_tree.
  destruct (retrieve_in_table ct book fn Hok) as [inner Hi]. rewrite Hi.
  apply retrieve_in_table. unfold hashTable_retrieve in Hi.
  now destruct (Hinv _ _ Hi).
Qed.

Lemma phonebook_insert_inv book (temp : person) book' (out : list string) :
  book_inv ct book -> phonebook_insert ct book temp = Some (book', out) ->
  book_inv ct book'.
Proof.
  intros Hinv H. unfold phonebook_insert in H.
  destruct (phonebook_tree ct book (first_name temp) (last_name temp))
    as [tree|] eqn:Et; [|discriminate].
  destruct (phonebook_tree_inv _ _ _ _ Hinv Et) as (inner & Hi & Hj & [Hb Hp] & Hpl).
  unfold insert in H. destruct (insertRec tree temp) as [tree' o] eqn:Ei.
  destruct (phonebook_set_tree ct book (first_name temp) (last_name temp) tree')
    as [b1|] eqn:Es; [|discriminate].
  inversion H; subst b1 o. clear H.
  apply (book_inv_set_tree book (first_name temp) (last_name temp) inner tree');
    auto.
  - replace tree' with (fst (insertRec tree temp)) by now rewrite Ei.
    split; [now apply bst_insertRec|now apply hpos_insertRec].
  - intros p Hin.
    replace tree' with (fst (insertRec tree temp)) in Hin by now rewrite Ei.
    rewrite inorder_insertRec in Hin by assumption.
    apply ins_list_In in Hin. destruct Hin as [->|Hin]; [split; reflexivity|].
    now apply Hpl.
Qed.

Lemma phonebook_removeFL_inv book (fn ln : string) book' :
  book_inv ct book -> phonebook_removeFL ct book fn ln = Some (Done book') ->
  book_inv ct book'.
Proof.
  intros Hinv H. unfold phonebook_removeFL in H.
  destruct (phonebook_tree ct book fn ln) as [tree|] eqn:Et; [|discriminate].
  destruct (phonebook_tree_inv _ _ _ _ Hinv Et) as (inner & Hi & Hj & [Hb Hp] & Hpl).
  destruct (removeFL tree fn ln) as [tree'|f] eqn:Er; [|discriminate].
  destruct (phonebook_set_tree ct book fn ln tree') as [b1|] eqn:Es; [|discriminate].
  inversion H; subst b1. clear H.
  unfold removeFL in Er.
  pose proof (removeRecFL_done _ _ _ _ _ Er) as [Hsub _].
  apply (book_inv_set_tree book fn ln inner tree'); auto.
  - split.
    + unfold bst. eapply sublist_sorted; eassumption.
    + eapply hpos_removeRecFL; eassumption.
  - intros p Hin. apply Hpl. eapply sublist_In; eassumption.
Qed.

Lemma phonebook_run_inv book (ops : list book_operation) book' :
  book_inv ct book -> phonebook_run ct book ops = Some book' ->
  book_inv ct book'.
Proof.
  revert book. induction ops as [|o ops IH]; intros book Hinv H.
  - inversion H; subst. assumption.
  - destruct o as [temp|fn ln]; cbn [phonebook_run] in H.
    + destruct (phonebook_insert ct book temp) as [[b1 out]|] eqn:E; [|discriminate].
      apply (IH b1); [|assumption]. eapply phonebook_insert_inv; eassumption.
    + destruct (phonebook_removeFL ct book fn ln) as [[b1|f]|] eqn:E;
        try discriminate.
      apply (IH b1); [|assumption]. eapply phonebook_removeFL_inv; eassumption.
Qed.

End BookLemmas.

Section BookContents.

Variable ct : char_type.
Implicit Types (book : phonebook) (inner : hashTable tNode) (tree : tNode).

Lemma In_flat_map_nth {A B : Type} (f : A -> list B) (l : list A) (y : B) :
  In y (flat_map f l) <-> exists i a, nth_error l i = Some a /\ In y (f a).
Proof.
  rewrite in_flat_map. split.
  - intros (a & Ha & Hy). apply In_nth_error in Ha. destruct Ha as [i Hi]. eauto.
  - intros (i & a & Hi & Hy). apply nth_error_In in Hi. eauto.
Qed.

Lemma In_phonebook_records book (p : person) :
  In p (phonebook_records book) <->
  exists i inner j tree,
    nth_error (table book) i = Some inner /\
    nth_error (table inner) j = Some tree /\ In p (inorder tree).
Proof.
  unfold phonebook_records. rewrite In_flat_map_nth. split.
  - intros (i & inner & Hi & Hp). apply In_flat_map_nth in Hp.
    destruct Hp as (j & tree & Hj & Hp). exists i, inner, j, tree. auto.
  - intros (i & inner & j & tree & Hi & Hj & Hp). exists i, inner.
    split; [assumption|]. apply In_flat_map_nth. eauto.
Qed.

(** A record of the directory is in the tree that its names select. *)
Lemma record_in_its_tree book (p : person) :
  book_inv ct book -> In p (phonebook_records book) ->
  exists tree, phonebook_tree ct book (first_name p) (last_name p) = Some tree /\
               tree_ok tree /\ In p (inorder tree).
Proof.
  intros [Hok Hinv] Hp. apply In_phonebook_records in Hp.
  destruct Hp as (i & inner & j & tree & Hi & Hj & Hp).
  destruct (Hinv _ _ Hi) as [Hoki Hinvi].
  destruct (Hinvi _ _ Hj) as [Ht Hpl]. destruct (Hpl p Hp) as [Ei Ej].
  exists tree. split; [|split; assumption].
  unfold phonebook_tree, hashTable_retrieve. rewrite <- Ei, Hi, <- Ej. exact Hj.
Qed.

Lemma tree_in_records book (fn ln : string) tree (p : person) :
  phonebook_tree ct book fn ln = Some tree -> In p (inorder tree) ->
  In p (phonebook_records book).
Proof.
  unfold phonebook_tree, hashTable_retrieve. intros Ht Hp.
  destruct (nth_error (table book) (Z.to_nat (bucket_index ct book fn)))
    as [inner|] eqn:Ei; [|discriminate].
  apply In_phonebook_records. eauto 8.
Qed.

Lemma phonebook_tree_after_set book (fn ln : string) tree' book' :
  book_inv ct book -> phonebook_set_tree ct book fn ln tree' = Some book' ->
  phonebook_tree ct book' fn ln = Some tree'.
Proof.
  intros [Hok Hinv] Hset. unfold phonebook_set_tree in Hset.
  destruct (hashTable_retrieve ct book fn) as [inner|] eqn:Ei; [|discriminate].
  inversion Hset; subst book'. unfold hashTable_retrieve in Ei.
  destruct (Hinv _ _ Ei) as [Hoki _].
  unfold phonebook_tree, hashTable_retrieve. cbn [hashTable_assign table].
  change (bucket_index ct (hashTable_assign ct book fn
                             (hashTable_assign ct inner ln tree')) fn)
    with (bucket_index ct book fn).
  rewrite nth_error_assign_same by now apply index_in_table.
  cbn [hashTable_assign table].
  change (bucket_index ct (hashTable_assign ct inner ln tree') ln)
    with (bucket_index ct inner ln).
  apply nth_error_assign_same. now apply index_in_table.
Qed.

(** Two other names whose indices differ from those of the tree that
    was replaced still select the tree they selected. *)
Lemma phonebook_tree_other_after_set book (fn ln fn' ln' : string)
    inner tree' book' :
  hashTable_retrieve ct book fn = Some inner ->
  phonebook_set_tree ct book fn ln tree' = Some book' ->
  bucket_index ct book fn' <> bucket_index ct book fn \/
  bucket_index ct inner ln' <> bucket_index ct inner ln ->
  table_ok book -> table_ok inner ->
  phonebook_tree ct book' fn' ln' = phonebook_tree ct book fn' ln'.
Proof.
  intros Ei Hset Hne Hok Hoki. unfold phonebook_set_tree in Hset.
  rewrite Ei in Hset. inversion Hset; subst book'.
  unfold phonebook_tree, hashTable_retrieve in *. cbn [hashTable_assign table].
  change (bucket_index ct (hashTable_assign ct book fn
                             (hashTable_assign ct inner ln tree')) fn')
    with (bucket_index ct book fn').
  pose proof (bucket_index_range ct book fn (proj1 Hok)).
  pose proof (bucket_index_range ct book fn' (proj1 Hok)).
  pose proof (bucket_index_range ct inner ln (proj1 Hoki)).
  pose proof (bucket_index_range ct inner ln' (proj1 Hoki)).
  destruct (Z.eq_dec (bucket_index ct book fn') (bucket_index ct book fn))
    as [E|E].
  - rewrite E, Ei.
    rewrite nth_error_assign_same by now apply index_in_table.
    cbn [hashTable_assign table].
    change (bucket_index ct (hashTable_assign ct inner ln tree') ln')
      with (bucket_index ct inner ln').
    apply nth_error_assign_other. destruct Hne as [Hne|Hne]; [contradiction|lia].
  - rewrite nth_error_assign_other by lia. reflexivity.
Qed.

End BookContents.

(** X19.  In every directory that [main]'s inserts and removals by name
    can build from the fresh one, each record is found where a client
    looks for it: the two [retrieve] calls with the record's own first
    and last name lead to an ordered tree that holds the record, and
    [retrieve] with its number returns it. *)
Theorem X19_every_record_is_found_by_its_names
    (ct : char_type) (fuel : nat) (fresh book : phonebook)
    (ops : list book_operation) (p : person)
    (Hnew : phonebook_new fuel = Done fresh)
    (Hrun : phonebook_run ct fresh ops = Some book)
    (Hp : In p (phonebook_records book)) :
  exists tree,
    phonebook_tree ct book (first_name p) (last_name p) = Some tree /\
    StronglySorted StrOrd.lt (keys tree) /\
    In p (inorder tree) /\
    retrieve tree (number p) = p.
Proof.
  assert (Hinv : book_inv ct book).
  { eapply phonebook_run_inv; [|eassumption]. eapply phonebook_new_inv; eassumption. }
  destruct (record_in_its_tree ct book p Hinv Hp) as (tree & Ht & Hok & Hin).
  exists tree. split; [assumption|]. split; [apply Hok|]. split; [assumption|].
  now apply retrieve_stored.
Qed.

Definition fresh_book : phonebook :=
  mkHashTable (repeat (mkHashTable (repeat nullptr 11) 11) 17) 17.

Definition sample_book_operations : list book_operation :=
  [BookInsert (liam "1"); BookInsert (lucas "3"); BookInsert (isabella "2");
   BookInsert (lucas "4"); BookRemoveFL "Isabella" "Anderson";
   BookInsert (liam "5")].

Definition sample_book : phonebook :=
  match phonebook_run SignedChar fresh_book sample_book_operations with
  | Some book => book
  | None => fresh_book
  end.

Lemma X19_witness :
  exists tree,
    phonebook_tree SignedChar sample_book
                   (first_name (lucas "4")) (last_name (lucas "4")) = Some tree /\
    StronglySorted StrOrd.lt (keys tree) /\
    In (lucas "4") (inorder tree) /\
    retrieve tree (number (lucas "4")) = lucas "4".
Proof.
  apply (X19_every_record_is_found_by_its_names
           SignedChar 2 fresh_book sample_book sample_book_operations (lucas "4")).
  - vm_compute. reflexivity.
  - vm_compute. reflexivity.
  - vm_compute. tauto.
Defined.

Section BookPrinting.

Variable ct : char_type.

Lemma print_buckets_done {A : Type} (f : A -> outcome (list person))
    (g : A -> list person) (l : list A) :
  (forall b, In b l -> f b = Done (g b)) ->
  print_buckets f l = Done (flat_map g l).
Proof.
  induction l as [|a l IH]; intros H; [reflexivity|].
  cbn [print_buckets flat_map]. rewrite (H a) by now left. cbn [bind].
  rewrite IH; [reflexivity|]. intros b Hb. apply H. now right.
Qed.

Lemma firstn_table {A : Type} (h : hashTable A) :
  table_ok h -> firstn (Z.to_nat (len h)) (table h) = table h.
Proof. intros [_ Hl]. rewrite <- Hl. apply firstn_all. Qed.

Lemma filter_flat_map {A B : Type} (f : B -> bool) (g : A -> list B) (l : list A) :
  filter f (flat_map g l) = flat_map (fun a => filter f (g a)) l.
Proof.
  induction l as [|a l IH]; [reflexivity|].
  cbn [flat_map]. now rewrite filter_app, IH.
Qed.

Lemma flat_map_all_nil {A B : Type} (g : A -> list B) (l : list A) :
  (forall a, In a l -> g a = []) -> flat_map g l = [].
Proof.
  induction l as [|a l IH]; intros H; [reflexivity|].
  cbn [flat_map]. rewrite (H a) by now left. apply IH.
  intros b Hb. apply H. now right.
Qed.

Lemma flat_map_single {A B : Type} (g : A -> list B) (l : list A) (i : nat) (a : A) :
  nth_error l i = Some a ->
  (forall j b, j <> i -> nth_error l j = Some b -> g b = []) ->
  flat_map g l = g a.
Proof.
  revert i. induction l as [|x l IH]; intros [|i] Hi Hother; try discriminate.
  - simpl in Hi. inversion Hi; subst x. cbn [flat_map].
    assert (E : flat_map g l = []).
    { apply flat_map_all_nil. intros b Hb.
      apply In_nth_error in Hb. destruct Hb as [j Hj].
      apply (Hother (S j) b); [lia|exact Hj]. }
    now rewrite E, app_nil_r.
  - simpl in Hi. cbn [flat_map]. rewrite (Hother O x) by (try reflexivity; lia).
    apply (IH i Hi). intros j b Hj Hb. apply (Hother (S j) b); [lia|exact Hb].
Qed.

Lemma inner_print_fn (inner : hashTable tNode) (first : string) :
  table_ok inner ->
  print_fn inner first
  = Done (flat_map (fun t => filter (selected first) (inorder t)) (table inner)).
Proof.
  intros Hok. cbn [print_fn hashTable_Printable]. unfold hashTable_printFN.
  rewrite firstn_table by assumption. apply print_buckets_done.
  intros t _. cbn [print_fn AVL_Printable]. apply printFN_inorder.
Qed.

Lemma inner_print_all (inner : hashTable tNode) :
  table_ok inner ->
  print_all inner = Done (flat_map inorder (table inner)).
Proof.
  intros Hok. cbn [print_all hashTable_Printable]. unfold hashTable_printAll.
  rewrite firstn_table by assumption. apply print_buckets_done.
  intros t _. cbn [print_all AVL_Printable]. apply printAll_inorder.
Qed.

Lemma book_print_all (book : phonebook) :
  book_inv ct book -> print_all book = Done (phonebook_records book).
Proof.
  intros [Hok Hinv]. cbn [print_all hashTable_Printable].
  unfold hashTable_printAll. rewrite firstn_table by assumption.
  apply print_buckets_done. intros inner Hin.
  apply In_nth_error in Hin. destruct Hin as [i Hi].
  apply inner_print_all. now destruct (Hinv _ _ Hi).
Qed.

Lemma book_print_fn (book : phonebook) (first : string) :
  book_inv ct book ->
  print_fn book first
  = Done (filter (selected first) (phonebook_records book)).
Proof.
  intros [Hok Hinv]. cbn [print_fn hashTable_Printable].
  unfold hashTable_printFN. rewrite firstn_table by assumption.
  unfold phonebook_records. rewrite filter_flat_map.
  apply print_buckets_done. intros inner Hin.
  apply In_nth_error in Hin. destruct Hin as [i Hi].
  rewrite filter_flat_map. apply inner_print_fn. now destruct (Hinv _ _ Hi).
Qed.

Lemma selected_first (first : string) (p : person) :
  first <> " "%string -> selected first p = String.eqb first (first_name p).
Proof.
  intros Hne. unfold selected.
  destruct (String.eqb_spec first " "); [contradiction|reflexivity].
Qed.

(** The bucket of a first name prints all that the whole directory
    prints for that name. *)
Lemma book_print_fn_bucket (book : phonebook) (first : string)
    (inner : hashTable tNode) :
  book_inv ct book -> first <> " "%string ->
  hashTable_retrieve ct book first = Some inner ->
  print_fn inner first = print_fn book first.
Proof.
  intros Hinv Hne Hi. rewrite book_print_fn by assumption.
  destruct Hinv as [Hok Hinv]. unfold hashTable_retrieve in Hi.
  rewrite inner_print_fn by now destruct (Hinv _ _ Hi).
  f_equal. unfold phonebook_records. rewrite filter_flat_map.
  symmetry.
  rewrite (flat_map_single
             (fun a => filter (selected first) (flat_map inorder (table a)))
             (table book) _ inner Hi).
  - apply filter_flat_map.
  - intros j b Hj Hb. destruct (Hinv _ _ Hb) as [_ Hinvb].
    rewrite filter_flat_map.
    assert (G : forall t, In t (table b) -> filter (selected first) (inorder t) = []).
    { intros t Ht. apply In_nth_error in Ht. destruct Ht as [k Hk].
      destruct (Hinvb _ _ Hk) as [_ Hpl].
      assert (F : forall l, (forall p, In p l -> In p (inorder t)) ->
                            filter (selected first) l = []).
      { induction l as [|p l IHl]; intros Hl; [reflexivity|].
        cbn [filter]. rewrite selected_first by assumption.
        destruct (String.eqb_spec first (first_name p)) as [E|E].
        - exfalso. destruct (Hpl p (Hl p (or_introl eq_refl))) as [Hidx _].
          apply Hj. rewrite Hidx, E. reflexivity.
        - apply IHl. intros q Hq. apply Hl. now right. }
      apply F. auto. }
    now apply flat_map_all_nil.
Qed.

End BookPrinting.

(** X20.  In a directory built by [main]'s updates, asking the bucket of
    a first name for that name, as [main] does with
    [table.retrieve("Liam").printFN("Liam")], writes exactly what asking
    the whole table writes: every record with that first name, and no
    other.  The name must not be the single space, which selects every
    record. *)
Theorem X20_the_bucket_of_a_first_name_holds_all_its_records
    (ct : char_type) (fuel : nat) (fresh book : phonebook)
    (ops : list book_operation) (first : string)
    (Hnew : phonebook_new fuel = Done fresh)
    (Hrun : phonebook_run ct fresh ops = Some book)
    (Hfirst : first <> " "%string) :
  exists inner,
    hashTable_retrieve ct book first = Some inner /\
    print_fn inner first = print_fn book first /\
    print_fn book first
    = Done (filter (fun p => String.eqb first (first_name p))
                   (phonebook_records book)) /\
    print_all book = Done (phonebook_records book).
Proof.
  assert (Hinv : book_inv ct book).
  { eapply phonebook_run_inv; [|eassumption]. eapply phonebook_new_inv; eassumption. }
  destruct (retrieve_in_table ct book first (proj1 Hinv)) as [inner Hi].
  exists inner. split; [assumption|].
  split; [now apply (book_print_fn_bucket ct)|].
  split; [|now apply (book_print_all ct)].
  rewrite (book_print_fn ct) by assumption. f_equal.
  apply filter_ext. intros p. now apply selected_first.
Qed.

Lemma X20_witness :
  exists inner,
    hashTable_retrieve SignedChar sample_book "Lucas" = Some inner /\
    print_fn inner "Lucas" = print_fn sample_book "Lucas" /\
    print_fn sample_book "Lucas"
    = Done (filter (fun p => String.eqb "Lucas" (first_name p))
                   (phonebook_records sample_book)) /\
    print_all sample_book = Done (phonebook_records sample_book).
Proof.
  apply (X20_the_bucket_of_a_first_name_holds_all_its_records
           SignedChar 2 fresh_book sample_book sample_book_operations "Lucas").
  - vm_compute. reflexivity.
  - vm_compute. reflexivity.
  - discriminate.
Defined.

Section BookUpdates.

Variable ct : char_type.

Lemma phonebook_set_tree_some (book : phonebook) (fn ln : string) (tree' : tNode) :
  table_ok book -> exists book', phonebook_set_tree ct book fn ln tree' = Some book'.
Proof.
  intros Hok. unfold phonebook_set_tree.
  destruct (retrieve_in_table ct book fn Hok) as [inner Hi]. rewrite Hi. eauto.
Qed.

(** After a tree has been replaced, a record of the directory is a
    record of the new tree or was in the directory before. *)
Lemma records_after_set (book : phonebook) (fn ln : string) (tree' : tNode)
    (book' : phonebook) (p : person) :
  phonebook_set_tree ct book fn ln tree' = Some book' ->
  In p (phonebook_records book') ->
  In p (inorder tree') \/ In p (phonebook_records book).
Proof.
  intros Hset Hp. unfold phonebook_set_tree in Hset.
  destruct (hashTable_retrieve ct book fn) as [inner|] eqn:Ei; [|discriminate].
  inversion Hset; subst book'. clear Hset. unfold hashTable_retrieve in Ei.
  apply In_phonebook_records in Hp.
  destruct Hp as (i & inner1 & j & tree & Hi & Hj & Hp).
  cbn [hashTable_assign table] in Hi.
  destruct (Nat.eq_dec (Z.to_nat (bucket_index ct book fn)) i) as [E|E].
  - subst i. assert (Hlt : (Z.to_nat (bucket_index ct book fn)
                            < List.length (table book))%nat).
    { apply nth_error_Some. now rewrite Ei. }
    rewrite nth_error_assign_same in Hi by assumption.
    inversion Hi; subst inner1. cbn [hashTable_assign table] in Hj.
    destruct (Nat.eq_dec (Z.to_nat (bucket_index ct inner ln)) j) as [E'|E'].
    + subst j. assert (Hlt' : (Z.to_nat (bucket_index ct inner ln)
                               < List.length (table inner))%nat).
      { destruct (Nat.lt_ge_cases (Z.to_nat (bucket_index ct inner ln))
                                  (List.length (table inner))) as [H|H];
          [assumption|].
        exfalso. apply nth_error_None in H.
        assert (Hn : nth_error (assign_nth (table inner)
                                  (Z.to_nat (bucket_index ct inner ln)) tree')
                               (Z.to_nat (bucket_index ct inner ln)) = None).
        { apply nth_error_None. rewrite length_assign_nth.
          now apply nth_error_None. }
        congruence. }
      rewrite nth_error_assign_same in Hj by assumption.
      inversion Hj; subst tree. now left.
    + rewrite nth_error_assign_other in Hj by assumption.
      right. apply In_phonebook_records. eauto 8.
  - rewrite nth_error_assign_other in Hi by assumption.
    right. apply In_phonebook_records. eauto 8.
Qed.

End BookUpdates.

(** X21.  On a directory built by [main]'s updates the insert statement
    of [main] never leaves an array; it changes the tree that the two
    names of the record select, by an ordered insertion of the record,
    and leaves every tree selected through another pair of indices as
    it was.  If the number was not in that tree, nothing is written and
    the record is then part of the directory and found by its number;
    otherwise the duplicate notice is written and the tree keeps its
    records. *)
Theorem X21_directory_insert_changes_one_tree
    (ct : char_type) (fuel : nat) (fresh book : phonebook)
    (ops : list book_operation) (temp : person)
    (Hnew : phonebook_new fuel = Done fresh)
    (Hrun : phonebook_run ct fresh ops = Some book) :
  exists inner tree tree' book' out,
    hashTable_retrieve ct book (first_name temp) = Some inner /\
    phonebook_tree ct book (first_name temp) (last_name temp) = Some tree /\
    phonebook_insert ct book temp = Some (book', out) /\
    phonebook_tree ct book' (first_name temp) (last_name temp) = Some tree' /\
    inorder tree' = ins_list temp (inorder tree) /\
    (forall fn' ln',
       bucket_index ct book fn' <> bucket_index ct book (first_name temp) \/
       bucket_index ct inner ln' <> bucket_index ct inner (last_name temp) ->
       phonebook_tree ct book' fn' ln' = phonebook_tree ct book fn' ln') /\
    (~ In (number temp) (keys tree) ->
       out = [] /\ retrieve tree' (number temp) = temp /\
       In temp (phonebook_records book')) /\
    (In (number temp) (keys tree) ->
       out = [already_present] /\ inorder tree' = inorder tree).
Proof.
  assert (Hinv : book_inv ct book).
  { eapply phonebook_run_inv; [|eassumption]. eapply phonebook_new_inv; eassumption. }
  destruct (phonebook_tree_some ct book (first_name temp) (last_name temp) Hinv)
    as [tree Ht].
  destruct (phonebook_tree_inv ct _ _ _ _ Hinv Ht)
    as (inner & Hi & Hj & [Hb Hp] & Hpl).
  destruct (phonebook_set_tree_some ct book (first_name temp) (last_name temp)
              (fst (insert tree temp)) (proj1 Hinv)) as [book' Hset].
  exists inner, tree, (fst (insert tree temp)), book', (snd (insert tree temp)).
  assert (Hins : phonebook_insert ct book temp
                 = Some (book', snd (insert tree temp))).
  { unfold phonebook_insert. rewrite Ht.
    destruct (insert tree temp) as [t' o] eqn:E. cbn [fst snd] in *.
    now rewrite Hset. }
  assert (Ht' : phonebook_tree ct book' (first_name temp) (last_name temp)
                = Some (fst (insert tree temp)))
    by now apply (phonebook_tree_after_set ct book).
  assert (Eio : inorder (fst (insert tree temp)) = ins_list temp (inorder tree))
    by now apply inorder_insertRec.
  split; [assumption|]. split; [assumption|]. split; [assumption|].
  split; [assumption|]. split; [assumption|]. split.
  - intros fn' ln' Hne.
    apply (phonebook_tree_other_after_set ct book (first_name temp)
             (last_name temp) fn' ln' inner (fst (insert tree temp)) book');
      auto; [apply Hinv|].
    destruct Hinv as [_ Hinv]. unfold hashTable_retrieve in Hi.
    now destruct (Hinv _ _ Hi).
  - split.
    + intros Hn. split; [now apply output_insertRec_absent|].
      assert (Hin : In temp (inorder (fst (insert tree temp)))).
      { rewrite Eio. clear - Hn. unfold keys in Hn.
        induction (inorder tree) as [|a l IH]; simpl; [now left|].
        simpl in Hn. destruct (number temp <s number a) eqn:E1; [now left|].
        destruct (number a <s number temp) eqn:E2.
        - right. apply IH. tauto.
        - exfalso. apply Hn. left. symmetry. now apply StrOrd.ltb_total. }
      split.
      * apply retrieve_stored; [|assumption].
        split; [now apply bst_insertRec|now apply hpos_insertRec].
      * eapply tree_in_records; eassumption.
    + intros Hin. split; [now apply output_insertRec_present|].
      rewrite Eio. now apply ins_list_present.
Qed.

Lemma X21_witness :
  exists inner tree tree' book' out,
    hashTable_retrieve SignedChar sample_book (first_name (lucas "3"))
      = Some inner /\
    phonebook_tree SignedChar sample_book
                   (first_name (lucas "3")) (last_name (lucas "3")) = Some tree /\
    phonebook_insert SignedChar sample_book (lucas "3") = Some (book', out) /\
    phonebook_tree SignedChar book'
                   (first_name (lucas "3")) (last_name (lucas "3")) = Some tree' /\
    inorder tree' = ins_list (lucas "3") (inorder tree) /\
    (forall fn' ln',
       bucket_index SignedChar sample_book fn'
         <> bucket_index SignedChar sample_book (first_name (lucas "3")) \/
       bucket_index SignedChar inner ln'
         <> bucket_index SignedChar inner (last_name (lucas "3")) ->
       phonebook_tree SignedChar book' fn' ln'
       = phonebook_tree SignedChar sample_book fn' ln') /\
    (~ In (number (lucas "3")) (keys tree) ->
       out = [] /\ retrieve tree' (number (lucas "3")) = lucas "3" /\
       In (lucas "3") (phonebook_records book')) /\
    (In (number (lucas "3")) (keys tree) ->
       out = [already_present] /\ inorder tree' = inorder tree).
Proof.
  apply (X21_directory_insert_changes_one_tree
           SignedChar 2 fresh_book sample_book sample_book_operations (lucas "3")).
  - vm_compute. reflexivity.
  - vm_compute. reflexivity.
Defined.

(** X22.  On a directory built by [main]'s updates, when the removal
    statement of [main] completes for two names, no record anywhere in
    the directory carries both names, and every record that is left was
    there before. *)
Theorem X22_directory_removal_clears_the_name
    (ct : char_type) (fuel : nat) (fresh book book' : phonebook)
    (ops : list book_operation) (fn ln : string)
    (Hnew : phonebook_new fuel = Done fresh)
    (Hrun : phonebook_run ct fresh ops = Some book)
    (Hrem : phonebook_removeFL ct book fn ln = Some (Done book')) :
  Forall (fun p => first_name p <> fn \/ last_name p <> ln)
         (phonebook_records book') /\
  (forall p, In p (phonebook_records book') -> In p (phonebook_records book)).
Proof.
  assert (Hinv : book_inv ct book).
  { eapply phonebook_run_inv; [|eassumption]. eapply phonebook_new_inv; eassumption. }
  pose proof (phonebook_removeFL_inv ct _ _ _ _ Hinv Hrem) as Hinv'.
  unfold phonebook_removeFL in Hrem.
  destruct (phonebook_tree ct book fn ln) as [tree|] eqn:Et; [|discriminate].
  destruct (removeFL tree fn ln) as [tree'|f] eqn:Er; [|discriminate].
  destruct (phonebook_set_tree ct book fn ln tree') as [b1|] eqn:Es; [|discriminate].
  inversion Hrem; subst b1. clear Hrem.
  unfold removeFL in Er. apply removeRecFL_done in Er. destruct Er as [Hsub Hall].
  pose proof (phonebook_tree_after_set ct book fn ln tree' book' Hinv Es) as Ht'.
  split.
  - apply Forall_forall. intros p Hp.
    destruct (String.eqb_spec (first_name p) fn) as [E1|E1]; [|now left].
    destruct (String.eqb_spec (last_name p) ln) as [E2|E2]; [|now right].
    exfalso.
    destruct (record_in_its_tree ct book' p Hinv' Hp) as (t & Ht & _ & Hin).
    rewrite E1, E2, Ht' in Ht. inversion Ht; subst t.
    rewrite Forall_forall in Hall. apply Hall in Hin.
    unfold same_name in Hin. rewrite <- E1, <- E2, !String.eqb_refl in Hin.
    discriminate.
  - intros p Hp.
    destruct (records_after_set ct book fn ln tree' book' p Es Hp) as [Hin|Hin];
      [|assumption].
    apply (tree_in_records ct book fn ln tree); [assumption|].
    eapply sublist_In; eassumption.
Qed.

Definition book_before_removal : phonebook :=
  match phonebook_run SignedChar fresh_book
          [BookInsert (liam "1"); BookInsert (lucas "3");
           BookInsert (isabella "2"); BookInsert (lucas "4")] with
  | Some book => book
  | None => fresh_book
  end.

Definition book_after_removal : phonebook :=
  match phonebook_removeFL SignedChar book_before_removal "Isabella" "Anderson" with
  | Some (Done book) => book
  | _ => fresh_book
  end.

Lemma X22_witness :
  Forall (fun p => first_name p <> "Isabella"%string
                   \/ last_name p <> "Anderson"%string)
         (phonebook_records book_after_removal) /\
  (forall p, In p (phonebook_records book_after_removal) ->
             In p (phonebook_records book_before_removal)).
Proof.
  apply (X22_directory_removal_clears_the_name
           SignedChar 2 fresh_book book_before_removal book_after_removal
           [BookInsert (liam "1"); BookInsert (lucas "3");
            BookInsert (isabella "2"); BookInsert (lucas "4")]
           "Isabella" "Anderson").
  - vm_compute. reflexivity.
  - vm_compute. reflexivity.
  - vm_compute. reflexivity.
Defined.

(** ** Cached heights and the real depth *)

(** No node caches a height below the depth of its subtree. *)
Fixpoint covers (node : tNode) : Prop :=
  match node with
  | nullptr => True
  | Node l r _ h => covers l /\ covers r /\ 1 + Z.max (depth l) (depth r) <= h
  end.

Section CachedHeights.

Implicit Types (node l r : tNode) (v : person) (h : Z).

Lemma covers_height node : covers node -> depth node <= height node.
Proof. destruct node as [|l r v h]; cbn [covers depth height]; [lia|tauto]. Qed.

Ltac covers_crush :=
  cbn [covers depth height rotateLeft rotateRight] in *; rewrite ?larger_max;
  repeat match goal with
         | H : _ /\ _ |- _ => destruct H
         end;
  repeat match goal with
         | H : covers ?t |- _ =>
             lazymatch goal with
             | _ : depth t <= height t |- _ => fail
             | _ => pose proof (covers_height t H)
             end
         end;
  cbn [depth height] in *;
  repeat split; try assumption; try lia.

Lemma covers_rotateRight y : covers y -> covers (rotateRight y).
Proof.
  destruct y as [|[|xl T2 xv xh] yr yv yh]; intros H; try exact H.
  covers_crush.
Qed.

Lemma covers_rotateLeft x : covers x -> covers (rotateLeft x).
Proof.
  destruct x as [|xl [|T2 yr yv yh] xv xh]; intros H; try exact H.
  covers_crush.
Qed.

(** In the double rotations the node in the middle may cache too small
    a height for a moment; the result does not. *)
Lemma covers_balance node : covers node -> covers (balance node).
Proof.
  destruct node as [|l r v h]; intros H; [exact I|]. unfold balance.
  destruct (getBalance (Node l r v h) >? 1).
  - destruct (getBalance l >=? 0); [now apply covers_rotateRight|].
    destruct l as [|ll [|lrl lrr lrv lrh] lv lh].
    + exact H.
    + now apply covers_rotateRight.
    + covers_crush.
  - destruct (getBalance (Node l r v h) <? -1); [|exact H].
    destruct (getBalance r <=? 0); [now apply covers_rotateLeft|].
    destruct r as [|[|rll rlr rlv rlh] rr rv rh].
    + exact H.
    + now apply covers_rotateLeft.
    + covers_crush.
Qed.

Lemma covers_updateAndBalance l r v h :
  covers l -> covers r -> covers (updateAndBalance (Node l r v h)).
Proof.
  intros Hl Hr. unfold updateAndBalance. apply covers_balance.
  pose proof (covers_height l Hl). pose proof (covers_height r Hr).
  cbn [covers]. rewrite larger_max. repeat split; auto; lia.
Qed.

Lemma covers_updateAndBalance_node node :
  covers node -> covers (updateAndBalance node).
Proof.
  destruct node as [|l r v h]; [auto|].
  intros (Hl & Hr & _). now apply covers_updateAndBalance.
Qed.

Lemma covers_insertRec node v : covers node -> covers (fst (insertRec node v)).
Proof.
  induction node as [|l IHl r IHr val h]; intros H.
  - cbn. lia.
  - pose proof H as (Hl & Hr & Hh). cbn [insertRec].
    destruct (number v <s number val).
    + destruct (insertRec l v) as [l' out]. cbn [fst] in *.
      apply covers_updateAndBalance; auto.
    + destruct (number val <s number v).
      * destruct (insertRec r v) as [r' out]. cbn [fst] in *.
        apply covers_updateAndBalance; auto.
      * exact H.
Qed.

Lemma covers_removeRec node k : covers node -> covers (fst (removeRec node k)).
Proof.
  revert k. induction node as [|l IHl r IHr val h]; intros k H; [exact I|].
  pose proof H as (Hl & Hr & Hh). rewrite removeRec_node.
  destruct (k <s number val).
  - specialize (IHl k Hl). destruct (removeRec l k) as [l' out].
    cbn [fst] in *. now apply covers_updateAndBalance.
  - destruct (number val <s k).
    + specialize (IHr k Hr). destruct (removeRec r k) as [r' out].
      cbn [fst] in *. now apply covers_updateAndBalance.
    + destruct l as [|ll lr lv lh].
      * cbn [fst]. now apply covers_updateAndBalance_node.
      * destruct r as [|rl rr rv rh].
        -- cbn [fst]. now apply covers_updateAndBalance_node.
        -- cbv zeta.
           specialize (IHr (number (val_of (findMin (Node rl rr rv rh)))) Hr).
           destruct (removeRec (Node rl rr rv rh) _) as [r' out].
           cbn [fst] in *. now apply covers_updateAndBalance.
Qed.

Lemma covers_removeRecFL fuel node fn ln node' :
  removeRecFL fuel node fn ln = Done node' -> covers node'.
Proof.
  apply (removeRecFL_returns covers).
  - exact I.
  - intros l r v h. apply covers_updateAndBalance.
  - apply covers_updateAndBalance_node.
Qed.

Lemma reachable_covers (head : tNode) : reachable head -> covers head.
Proof.
  induction 1 as [|head v H IH|head k H IH|head fn ln head' H IH E].
  - exact I.
  - now apply covers_insertRec.
  - now apply covers_removeRec.
  - unfold removeFL in E. eapply covers_removeRecFL; eassumption.
Qed.

End CachedHeights.

(** X23.  Whatever calls of [insert], [remove] and [removeFL] are made
    on the empty tree, if they complete, no node of the result caches a
    height below the real depth of its subtree; in particular the
    height cached at the root bounds the depth of the tree. *)
Theorem X23_cached_heights_never_fall_below_the_depth
    (ops : list operation) (head : tNode)
    (Hrun : apply_operations nullptr ops = Done head) :
  covers head /\ depth head <= height head.
Proof.
  assert (Hr : reachable head)
    by (eapply apply_operations_reachable; [constructor|eassumption]).
  pose proof (reachable_covers head Hr) as Hc.
  split; [assumption|now apply covers_height].
Qed.

(** Three inserts with ascending keys: [rotateLeft] leaves a root that
    caches the height 4 over two leaves. *)
Definition three_ascending : tNode :=
  Node (Node nullptr nullptr (liam "1") 1)
       (Node nullptr nullptr (liam "3") 1)
       (liam "2") 4.

Lemma X23_witness :
  covers three_ascending /\ depth three_ascending <= height three_ascending.
Proof.
  apply (X23_cached_heights_never_fall_below_the_depth
           [Insert (liam "1"); Insert (liam "2"); Insert (liam "3")]
           three_ascending).
  vm_compute. reflexivity.
Defined.

(** ** A key that is not stored *)

(** X30.  In a tree of the class, for a key that is not stored,
    [retrieve] returns the record [person()] and [remove] writes
    ["Node not found!"] and keeps the in-order sequence of the tree, so
    that no record is lost, added or moved; on a tree that obeys the
    balance invariant [remove] returns the tree as it was, node for
    node.  Neither function has a failing path. *)
Theorem X30_missing_key_is_reported_and_keeps_the_records (T : tNode) (k : string)
    (HT : tree_ok T) (Hk : ~ In k (keys T)) :
  retrieve T k = person_default /\
  snd (remove T k) = [node_not_found] /\
  inorder (fst (remove T k)) = inorder T /\
  (avl T -> fst (remove T k) = T).
Proof.
  destruct HT as [Hb Hp]. unfold retrieve, remove. split.
  - rewrite retrieveRec_lookup by assumption. now apply lookup_list_absent.
  - split; [now apply output_removeRec_absent|]. split.
    + rewrite inorder_removeRec by assumption. now apply del_list_absent.
    + intros Ha. now apply removeRec_absent_avl.
Qed.

Lemma X30_witness :
  retrieve small_tree "25" = person_default /\
  snd (remove small_tree "25") = [node_not_found] /\
  inorder (fst (remove small_tree "25")) = inorder small_tree /\
  (avl small_tree -> fst (remove small_tree "25") = small_tree).
Proof.
  apply (X30_missing_key_is_reported_and_keeps_the_records small_tree "25").
  - split.
    + unfold bst, sorted. vm_compute. repeat constructor.
    + vm_compute. intuition discriminate.
  - vm_compute. intuition discriminate.
Defined.

(** * The first program: a tree of [double]s *)

(** ** The order of [double] *)

Module FloatOrder.

Import Floats.PrimFloat Floats.SpecFloat Floats.FloatOps Floats.FloatAxioms.

Lemma SFltb_irrefl (x : spec_float) : SFltb x x = false.
Proof.
  unfold SFltb. destruct x as [s|s| |s m e]; simpl; try reflexivity.
  - now destruct s.
  - destruct s; rewrite Z.compare_refl, Pos.compare_cont_refl; reflexivity.
Qed.

Lemma SFltb_trans (x y z : spec_float) :
  SFltb x y = true -> SFltb y z = true -> SFltb x z = true.
Proof.
  unfold SFltb.
  destruct x as [sx|sx| |sx mx ex], y as [sy|sy| |sy my ey],
           z as [sz|sz| |sz mz ez]; simpl;
    try discriminate; try reflexivity;
    try (destruct sx; try discriminate; try reflexivity);
    try (destruct sy; try discriminate; try reflexivity);
    try (destruct sz; try discriminate; try reflexivity).
  all: fold (Pos.compare mx my); fold (Pos.compare my mz); fold (Pos.compare mx mz).
  all: destruct (Z.compare_spec ex ey); destruct (Z.compare_spec ey ez);
       destruct (Z.compare_spec ex ez); try discriminate; try reflexivity;
       try lia.
  all: destruct (Pos.compare_spec mx my); destruct (Pos.compare_spec my mz);
       destruct (Pos.compare_spec mx mz); simpl; try discriminate;
       try reflexivity; try lia.
Qed.

Lemma SFeqb_cases (x y : spec_float) :
  SFeqb x y = true ->
  x = y \/ exists s s', x = S754_zero s /\ y = S754_zero s'.
Proof.
  unfold SFeqb.
  destruct x as [sx|sx| |sx mx ex], y as [sy|sy| |sy my ey]; simpl;
    try discriminate; try (destruct sx; discriminate);
    try (destruct sy; discriminate).
  - right. eauto.
  - destruct sx, sy; try discriminate; now left.
  - fold (Pos.compare mx my).
    destruct sx, sy; try discriminate;
      destruct (Z.compare_spec ex ey); try discriminate;
      destruct (Pos.compare_spec mx my); try discriminate;
      subst; now left.
Qed.

Lemma SFeqb_ltb_l (x y z : spec_float) :
  SFeqb x y = true -> SFltb y z = true -> SFltb x z = true.
Proof.
  intros H. destruct (SFeqb_cases x y H) as [E|(s & s' & Ex & Ey)];
    subst; [auto|]. now destruct z.
Qed.

Lemma SFeqb_ltb_r (x y z : spec_float) :
  SFeqb x y = true -> SFltb z y = true -> SFltb z x = true.
Proof.
  intros H. destruct (SFeqb_cases x y H) as [E|(s & s' & Ex & Ey)];
    subst; [auto|]. now destruct z.
Qed.

Lemma SFeqb_not_ltb (x y : spec_float) :
  SFeqb x y = true -> SFltb x y = false /\ SFltb y x = false.
Proof.
  intros H. destruct (SFeqb_cases x y H) as [E|(s & s' & Ex & Ey)]; subst.
  - split; apply SFltb_irrefl.
  - split; reflexivity.
Qed.

(** Without a NaN, of two values one is below the other or they are
    equal. *)
Lemma SFcompare_total (x y : spec_float) :
  SFltb x y = false -> SFltb y x = false ->
  SFeqb x y = true \/ x = S754_nan \/ y = S754_nan.
Proof.
  unfold SFeqb, SFltb.
  destruct x as [sx|sx| |sx mx ex], y as [sy|sy| |sy my ey]; simpl;
    auto; try (destruct sx; discriminate); try (destruct sy; discriminate).
  - destruct sx, sy; auto; discriminate.
  - destruct sx, sy; try discriminate.
    all: fold (Pos.compare mx my); fold (Pos.compare my mx).
    all: destruct (Z.compare_spec ex ey); destruct (Z.compare_spec ey ex);
      try discriminate; try lia.
    all: destruct (Pos.compare_spec mx my); destruct (Pos.compare_spec my mx);
      simpl; try discriminate; try lia; auto.
Qed.


(** The same facts for the primitive [double]s. *)

Lemma double_ltb_irrefl (x : float) : ltb x x = false.
Proof. rewrite ltb_spec. apply SFltb_irrefl. Qed.

Lemma double_ltb_trans (x y z : float) :
  ltb x y = true -> ltb y z = true -> ltb x z = true.
Proof. rewrite !ltb_spec. apply SFltb_trans. Qed.

Lemma double_ltb_asym (x y : float) : ltb x y = true -> ltb y x = false.
Proof.
  intros H. destruct (ltb y x) eqn:E; [|reflexivity].
  rewrite <- (double_ltb_irrefl x). symmetry.
  now apply (double_ltb_trans x y x).
Qed.

Lemma double_eqb_ltb_l (x y z : float) :
  eqb x y = true -> ltb y z = true -> ltb x z = true.
Proof. rewrite eqb_spec, !ltb_spec. apply SFeqb_ltb_l. Qed.

Lemma double_eqb_ltb_r (x y z : float) :
  eqb x y = true -> ltb z y = true -> ltb z x = true.
Proof. rewrite eqb_spec, !ltb_spec. apply SFeqb_ltb_r. Qed.

Lemma double_eqb_not_ltb (x y : float) :
  eqb x y = true -> ltb x y = false /\ ltb y x = false.
Proof. rewrite eqb_spec, !ltb_spec. apply SFeqb_not_ltb. Qed.

Lemma Prim2SF_nan : Prim2SF nan = S754_nan.
Proof. reflexivity. Qed.

Lemma Prim2SF_nan_inv (x : float) : Prim2SF x = S754_nan -> x = nan.
Proof. intros H. rewrite <- (SF2Prim_Prim2SF x), H. reflexivity. Qed.

Lemma double_ltb_nan_l (x : float) : ltb nan x = false.
Proof. rewrite ltb_spec, Prim2SF_nan. reflexivity. Qed.

Lemma double_ltb_nan_r (x : float) : ltb x nan = false.
Proof.
  rewrite ltb_spec, Prim2SF_nan. unfold SFltb. now destruct (Prim2SF x).
Qed.

Lemma double_eqb_nan_l (x : float) : eqb nan x = false.
Proof. rewrite eqb_spec, Prim2SF_nan. reflexivity. Qed.

Lemma double_eqb_nan_r (x : float) : eqb x nan = false.
Proof.
  rewrite eqb_spec, Prim2SF_nan. unfold SFeqb. now destruct (Prim2SF x).
Qed.

Lemma double_eqb_refl_r (x y : float) : eqb x y = true -> eqb y y = true.
Proof.
  rewrite !eqb_spec. intros H.
  destruct (SFeqb_cases _ _ H) as [E|(s & s' & Ex & Ey)].
  - now rewrite E in H.
  - now rewrite Ey.
Qed.

(** Two values of which neither is below the other are equal, unless
    one of them is the NaN. *)
Lemma double_ltb_total (x y : float) :
  ltb x y = false -> ltb y x = false ->
  eqb x y = true \/ x = nan \/ y = nan.
Proof.
  rewrite !ltb_spec, eqb_spec. intros H1 H2.
  destruct (SFcompare_total _ _ H1 H2) as [H|[H|H]]; auto using Prim2SF_nan_inv.
Qed.

End FloatOrder.

(** ** The tree and its operations *)

Module Lab3_1_AVL.

Import Lab3_1.

Abbreviation double := Floats.PrimFloat.float.

Definition NAN : double := Floats.PrimFloat.nan.

Definition successful_insert : string := "Successful Insert!"%string.
Definition already_present : string := "Already present, no insert."%string.
Definition successful_find : string := "Successful Find!"%string.
Definition successful_remove : string := "Successful Remove!"%string.
Definition node_not_found : string := "Node not found!"%string.

(** [tNode(double b)]. *)
Definition new_tNode (b : double) : tNode double := Node nullptr nullptr b 1.

(** [temp->val] for the node that [findMin] returns. *)
Definition val_of (node : tNode double) : double :=
  match node with
  | Node _ _ v _ => v
  | nullptr => NAN
  end.

(** [AVL::height] and [AVL::getBalance]. *)
Definition height (node : tNode double) : Z :=
  match node with
  | nullptr => 0
  | Node _ _ _ h => h
  end.

Definition getBalance (node : tNode double) : Z :=
  match node with
  | nullptr => 0
  | Node l r _ _ => height l - height r
  end.

(** [AVL::rotateRight]: the height of [y], then the height of [x].  The
    source reads [y->left->right]; the function is the rotation of the
    nodes that have the left child and gives the node back elsewhere,
    where the source reads through a null pointer.  [balance] rotates
    only nodes that have the child as soon as the two subtrees cache
    heights of at least 1 (lemma [balance_derefs_nodes_1]). *)
Definition rotateRight (y : tNode double) : tNode double :=
  match y with
  | Node (Node xl T2 xv xh) yr yv yh =>
      let y' := Node T2 yr yv (larger (height T2) (height yr) + 1) in
      Node xl y' xv (larger (height xl) (height y') + 1)
  | _ => y
  end.

(** [AVL::rotateLeft]: the height of [y] is assigned first, from the
    height that [x] had on entry, and the height of [x] after it.  The
    source reads [x->right->left]; as for [rotateRight], the function
    is the rotation of the nodes that have the right child. *)
Definition rotateLeft (x : tNode double) : tNode double :=
  match x with
  | Node xl (Node T2 yr yv yh) xv xh =>
      let yh' := larger xh (height yr) + 1 in
      let x' := Node xl T2 xv (larger (height xl) (height T2) + 1) in
      Node x' yr yv yh'
  | _ => x
  end.

(** [AVL::balance]. *)
Definition balance (node : tNode double) : tNode double :=
  match node with
  | nullptr => nullptr
  | Node l r v h =>
      let balanceFactor := getBalance node in
      if balanceFactor >? 1 then
        if getBalance l >=? 0 then rotateRight node
        else rotateRight (Node (rotateLeft l) r v h)
      else if balanceFactor <? -1 then
        if getBalance r <=? 0 then rotateLeft node
        else rotateLeft (Node l (rotateRight r) v h)
      else node
  end.

(** The closing lines of [insertRec] and [removeRec]. *)
Definition updateAndBalance (node : tNode double) : tNode double :=
  match node with
  | nullptr => nullptr
  | Node l r v _ => balance (Node l r v (1 + larger (height l) (height r)))
  end.

(** [AVL::insertRec]: the new subtree and the lines written. *)
Fixpoint insertRec (node : tNode double) (v : double)
  : tNode double * list string :=
  match node with
  | nullptr => (new_tNode v, [successful_insert])
  | Node l r val h =>
      if Floats.PrimFloat.ltb v val then
        let (l', out) := insertRec l v in
        (updateAndBalance (Node l' r val h), out)
      else if Floats.PrimFloat.ltb val v then
        let (r', out) := insertRec r v in
        (updateAndBalance (Node l r' val h), out)
      else (node, [already_present])
  end.

(** [AVL::retrieveRec]: the value returned and the lines written. *)
Fixpoint retrieveRec (node : tNode double) (v : double)
  : double * list string :=
  match node with
  | nullptr => (NAN, [])
  | Node l r val _ =>
      if Floats.PrimFloat.eqb v val then (val, [successful_find])
      else if Floats.PrimFloat.ltb v val then retrieveRec l v
      else retrieveRec r v
  end.

(** [AVL::findMin]. *)
Fixpoint findMin (node : tNode double) : tNode double :=
  match node with
  | Node (Node _ _ _ _ as l) _ _ _ => findMin l
  | _ => node
  end.

(** [AVL::removeRec]. *)
Fixpoint removeRec (node : tNode double) (v : double)
  : tNode double * list string :=
  match node with
  | nullptr => (nullptr, [node_not_found])
  | Node l r val h =>
      if Floats.PrimFloat.ltb v val then
        let (l', out) := removeRec l v in
        (updateAndBalance (Node l' r val h), out)
      else if Floats.PrimFloat.ltb val v then
        let (r', out) := removeRec r v in
        (updateAndBalance (Node l r' val h), out)
      else
        match l, r with
        | nullptr, _ => (updateAndBalance r, [successful_remove])
        | _, nullptr => (updateAndBalance l, [successful_remove])
        | _, _ =>
            let temp := findMin r in
            let (r', out) := removeRec r (val_of temp) in
            (updateAndBalance (Node l r' (val_of temp) h), out)
        end
  end.

(** The public interface; the tree is its [head]. *)
Definition insert (head : tNode double) (v : double) := insertRec head v.
Definition retrieve (head : tNode double) (t : double) := retrieveRec head t.
Definition remove (head : tNode double) (t : double) := removeRec head t.

(** The two updates of the interface, and a run of them with all that
    it writes. *)
Inductive operation : Type :=
| Insert (v : double)
| Remove (t : double).

Fixpoint run (head : tNode double) (ops : list operation)
  : tNode double * list string :=
  match ops with
  | [] => (head, [])
  | Insert v :: rest =>
      let (head', out) := insert head v in
      let (last, outs) := run head' rest in
      (last, out ++ outs)
  | Remove t :: rest =>
      let (head', out) := remove head t in
      let (last, outs) := run head' rest in
      (last, out ++ outs)
  end.

(** [a] is below [b]: [a < b] holds for the two [double]s. *)
Definition below (a b : double) : Prop := Floats.PrimFloat.ltb a b = true.

(** The values increase strictly from left to right. *)
Definition ascending (l : list double) : Prop := StronglySorted below l.

(** The comparisons of [insertRec] and [removeRec] send [v] neither to
    the left nor to the right of [x]. *)
Definition neither (v x : double) : bool :=
  negb (Floats.PrimFloat.ltb v x) && negb (Floats.PrimFloat.ltb x v).

(** Insertion into an ascending list. *)
Fixpoint ins_list (v : double) (l : list double) : list double :=
  match l with
  | [] => [v]
  | a :: l' =>
      if Floats.PrimFloat.ltb v a then v :: l
      else if Floats.PrimFloat.ltb a v then a :: ins_list v l'
      else l
  end.

(** Every node caches a height of at least 1. *)
Fixpoint hpos (node : tNode double) : Prop :=
  match node with
  | nullptr => True
  | Node l r _ h => hpos l /\ hpos r /\ 1 <= h
  end.

(** [rotateRight(y)] reads [y->left->right], [rotateLeft(x)] reads
    [x->right->left]. *)
Definition has_left (y : tNode double) : Prop :=
  match y with
  | Node (Node _ _ _ _) _ _ _ => True
  | _ => False
  end.

Definition has_right (x : tNode double) : Prop :=
  match x with
  | Node _ (Node _ _ _ _) _ _ => True
  | _ => False
  end.

(** The rotations that [balance(node)] performs, each with the child
    it dereferences. *)
Definition balance_derefs (node : tNode double) : Prop :=
  match node with
  | nullptr => False
  | Node l r v h =>
      if getBalance node >? 1 then
        if getBalance l >=? 0 then has_left node
        else has_right l /\ has_left (Node (rotateLeft l) r v h)
      else if getBalance node <? -1 then
        if getBalance r <=? 0 then has_right node
        else has_left r /\ has_right (Node l (rotateRight r) v h)
      else True
  end.

End Lab3_1_AVL.

Module Lab3_1_AVL_facts.

Import Lab3_1 Lab3_1_AVL FloatOrder.

Arguments balance : simpl never.
Arguments updateAndBalance : simpl never.

Section Lists.

Implicit Types (l : list double) (v a x : double).

Lemma ascending_cons_iff a l :
  ascending (a :: l) <-> ascending l /\ Forall (below a) l.
Proof.
  split.
  - intros H. inversion H; subst. now split.
  - intros [H1 H2]. now constructor.
Qed.

Lemma ascending_app_iff l1 a l2 :
  ascending (l1 ++ a :: l2) <->
  ascending l1 /\ ascending l2 /\
  Forall (fun x => below x a) l1 /\ Forall (below a) l2.
Proof.
  induction l1 as [|b l1 IH]; simpl.
  - rewrite ascending_cons_iff. split.
    + intros [H1 H2]. repeat split; auto. constructor.
    + intros (_ & H1 & _ & H2). now split.
  - rewrite !ascending_cons_iff, IH, Forall_app, !Forall_cons_iff. split.
    + intros ((H1 & H2 & H3 & H4) & H5 & H6 & H7). repeat split; auto.
    + intros ((H1 & H2) & H3 & (H4 & H5) & H6). repeat split; auto.
      eapply Forall_impl; [|exact H6]. intros x Hx.
      now apply (double_ltb_trans b a x).
Qed.

Lemma ascending_without l1 a l2 :
  ascending (l1 ++ a :: l2) -> ascending (l1 ++ l2).
Proof.
  rewrite ascending_app_iff. intros (H1 & H2 & H3 & H4).
  destruct l2 as [|b l2]; [now rewrite app_nil_r|].
  apply ascending_app_iff. apply ascending_cons_iff in H2.
  destruct H2 as [H2 H5]. apply Forall_cons_iff in H4. destruct H4 as [H4 H6].
  repeat split; auto.
  eapply Forall_impl; [|exact H3]. intros x Hx.
  now apply (double_ltb_trans x a b).
Qed.

Lemma ins_list_In_1 v l x : In x (ins_list v l) -> x = v \/ In x l.
Proof.
  induction l as [|a l IH]; simpl.
  - intros [H|[]]. now left.
  - destruct (PrimFloat.ltb v a).
    + intros [H|H]; auto.
    + destruct (PrimFloat.ltb a v); [|auto].
      intros [H|H]; auto. destruct (IH H); auto.
Qed.

Lemma ascending_ins_list v l : ascending l -> ascending (ins_list v l).
Proof.
  induction l as [|a l IH]; intros H; simpl.
  - repeat constructor.
  - destruct (PrimFloat.ltb v a) eqn:E1.
    + apply ascending_cons_iff. split; [assumption|].
      apply ascending_cons_iff in H. destruct H as [_ H].
      constructor; [exact E1|].
      eapply Forall_impl; [|exact H]. intros x Hx.
      now apply (double_ltb_trans v a x).
    + destruct (PrimFloat.ltb a v) eqn:E2; [|assumption].
      apply ascending_cons_iff in H. destruct H as [H1 H2].
      apply ascending_cons_iff. split; [auto|].
      apply Forall_forall. intros x Hx. apply ins_list_In_1 in Hx.
      destruct Hx as [->|Hx]; [exact E2|].
      rewrite Forall_forall in H2. auto.
Qed.

Lemma ins_list_app_lt_1 v l1 a l2 :
  PrimFloat.ltb v a = true ->
  ins_list v (l1 ++ a :: l2) = ins_list v l1 ++ a :: l2.
Proof.
  intros E. induction l1 as [|b l1 IH]; simpl.
  - now rewrite E.
  - destruct (PrimFloat.ltb v b); [reflexivity|].
    destruct (PrimFloat.ltb b v); [|reflexivity]. now rewrite IH.
Qed.

Lemma ins_list_app_gt_1 v l1 a l2 :
  Forall (fun x => below x a) l1 -> PrimFloat.ltb a v = true ->
  ins_list v (l1 ++ a :: l2) = l1 ++ a :: ins_list v l2.
Proof.
  intros Hl E. induction l1 as [|b l1 IH]; simpl.
  - now rewrite (double_ltb_asym a v E), E.
  - apply Forall_cons_iff in Hl. destruct Hl as [Hb Hl].
    assert (Hbv : PrimFloat.ltb b v = true)
      by now apply (double_ltb_trans b a v).
    rewrite (double_ltb_asym b v Hbv), Hbv. now rewrite IH.
Qed.

Lemma ins_list_app_eq_1 v l1 a l2 :
  Forall (fun x => below x a) l1 ->
  PrimFloat.ltb v a = false -> PrimFloat.ltb a v = false ->
  ins_list v (l1 ++ a :: l2) = l1 ++ a :: l2.
Proof.
  intros Hl E1 E2. induction l1 as [|b l1 IH]; simpl.
  - now rewrite E1, E2.
  - apply Forall_cons_iff in Hl. destruct Hl as [Hb Hl].
    destruct (PrimFloat.ltb v b) eqn:E3.
    + rewrite (double_ltb_trans v b a E3 Hb) in E1. discriminate.
    + destruct (PrimFloat.ltb b v); [|reflexivity]. now rewrite IH.
Qed.

Lemma neither_above v l :
  Forall (below v) l -> existsb (neither v) l = false.
Proof.
  induction 1 as [|x l Hx _ IH]; [reflexivity|].
  simpl. unfold neither at 1. unfold below in Hx. now rewrite Hx, IH.
Qed.

Lemma neither_under v l :
  Forall (fun x => below x v) l -> existsb (neither v) l = false.
Proof.
  induction 1 as [|x l Hx _ IH]; [reflexivity|].
  simpl. unfold neither at 1. unfold below in Hx.
  now rewrite Hx, andb_false_r, IH.
Qed.

Lemma Forall_below_trans a b l :
  below a b -> Forall (below b) l -> Forall (below a) l.
Proof.
  intros H Hl. eapply Forall_impl; [|exact Hl]. intros x Hx.
  now apply (double_ltb_trans a b x).
Qed.

Lemma Forall_under_trans a b l :
  below a b -> Forall (fun x => below x a) l -> Forall (fun x => below x b) l.
Proof.
  intros H Hl. eapply Forall_impl; [|exact Hl]. intros x Hx.
  now apply (double_ltb_trans x a b).
Qed.



End Lists.

Section Rebalancing.

Implicit Types (node l r : tNode double) (v : double) (h : Z).

Lemma inorder_rotateRight_1 y : inorder (rotateRight y) = inorder y.
Proof.
  destruct y as [|[|xl T2 xv xh] yr yv yh]; simpl; try reflexivity.
  now rewrite <- app_assoc.
Qed.

Lemma inorder_rotateLeft_1 x : inorder (rotateLeft x) = inorder x.
Proof.
  destruct x as [|xl [|T2 yr yv yh] xv xh]; simpl; try reflexivity.
  now rewrite <- app_assoc.
Qed.

Lemma inorder_balance_1 node : inorder (balance node) = inorder node.
Proof.
  destruct node as [|l r v h]; [reflexivity|]. unfold balance.
  destruct (getBalance (Node l r v h) >? 1).
  - destruct (getBalance l >=? 0); rewrite inorder_rotateRight_1; [reflexivity|].
    simpl. now rewrite inorder_rotateLeft_1.
  - destruct (getBalance (Node l r v h) <? -1); [|reflexivity].
    destruct (getBalance r <=? 0); rewrite inorder_rotateLeft_1; [reflexivity|].
    simpl. now rewrite inorder_rotateRight_1.
Qed.

Lemma inorder_updateAndBalance_1 node :
  inorder (updateAndBalance node) = inorder node.
Proof.
  destruct node as [|l r v h]; [reflexivity|].
  unfold updateAndBalance. now rewrite inorder_balance_1.
Qed.

Lemma height_nonneg_1 node : hpos node -> 0 <= height node.
Proof. destruct node; simpl; lia. Qed.

Lemma hpos_rotateRight_1 y : hpos y -> hpos (rotateRight y).
Proof.
  destruct y as [|[|xl T2 xv xh] yr yv yh]; simpl; auto.
  intros ((Hxl & HT2 & Hxh) & Hyr & Hyh).
  pose proof (height_nonneg_1 _ Hxl). pose proof (height_nonneg_1 _ HT2).
  pose proof (height_nonneg_1 _ Hyr). rewrite !larger_max.
  repeat split; auto; lia.
Qed.

Lemma hpos_rotateLeft_1 x : hpos x -> hpos (rotateLeft x).
Proof.
  destruct x as [|xl [|T2 yr yv yh] xv xh]; simpl; auto.
  intros (Hxl & (HT2 & Hyr & Hyh) & Hxh).
  pose proof (height_nonneg_1 _ Hxl). pose proof (height_nonneg_1 _ HT2).
  pose proof (height_nonneg_1 _ Hyr). rewrite !larger_max.
  repeat split; auto; lia.
Qed.

Lemma hpos_balance_1 node : hpos node -> hpos (balance node).
Proof.
  destruct node as [|l r v h]; [auto|]. intros H. unfold balance.
  destruct (getBalance (Node l r v h) >? 1).
  - destruct (getBalance l >=? 0); apply hpos_rotateRight_1; [assumption|].
    simpl in *. intuition auto using hpos_rotateLeft_1.
  - destruct (getBalance (Node l r v h) <? -1); [|assumption].
    destruct (getBalance r <=? 0); apply hpos_rotateLeft_1; [assumption|].
    simpl in *. intuition auto using hpos_rotateRight_1.
Qed.

Lemma hpos_updateAndBalance_1 l r v h :
  hpos l -> hpos r -> hpos (updateAndBalance (Node l r v h)).
Proof.
  intros Hl Hr. unfold updateAndBalance. apply hpos_balance_1. cbn [hpos].
  pose proof (height_nonneg_1 _ Hl). pose proof (height_nonneg_1 _ Hr).
  rewrite larger_max. repeat split; auto; lia.
Qed.

Lemma hpos_updateAndBalance_node_1 node :
  hpos node -> hpos (updateAndBalance node).
Proof.
  destruct node as [|l r v h]; [auto|].
  intros (Hl & Hr & _). now apply hpos_updateAndBalance_1.
Qed.

Lemma balance_derefs_nodes_1 l r v h :
  hpos l -> hpos r -> balance_derefs (Node l r v h).
Proof.
  intros Hl Hr. unfold balance_derefs.
  pose proof (height_nonneg_1 _ Hl) as Gl. pose proof (height_nonneg_1 _ Hr) as Gr.
  destruct (Z.gtb_spec (getBalance (Node l r v h)) 1) as [Hb|Hb].
  - destruct l as [|ll lr lv lh]; simpl in *; [lia|].
    destruct Hl as (Hll & Hlr & Hlh).
    destruct (Z.geb_spec (height ll - height lr) 0) as [Hc|Hc]; [exact I|].
    pose proof (height_nonneg_1 _ Hll).
    destruct lr as [|lrl lrr lrv lrh]; simpl in *; [lia|]. auto.
  - destruct (Z.ltb_spec (getBalance (Node l r v h)) (-1)) as [Hd|Hd]; [|exact I].
    destruct r as [|rl rr rv rh]; simpl in *; [lia|].
    destruct Hr as (Hrl & Hrr & Hrh).
    destruct (Z.leb_spec (height rl - height rr) 0) as [Hc|Hc]; [exact I|].
    pose proof (height_nonneg_1 _ Hrr).
    destruct rl as [|rll rlr rlv rlh]; simpl in *; [lia|]. auto.
Qed.

End Rebalancing.

Section Operations.

Implicit Types (node l r : tNode double) (v : double) (h : Z).

Lemma ascending_node l r val h :
  ascending (inorder (Node l r val h)) <->
  ascending (inorder l) /\ ascending (inorder r) /\
  Forall (fun x => below x val) (inorder l) /\ Forall (below val) (inorder r).
Proof. simpl. apply ascending_app_iff. Qed.

Lemma inorder_insertRec_1 node v :
  ascending (inorder node) ->
  inorder (fst (insertRec node v)) = ins_list v (inorder node).
Proof.
  induction node as [|l IHl r IHr val h]; intros Hs; [reflexivity|].
  apply ascending_node in Hs. destruct Hs as (Hl & Hr & Hlv & Hrv).
  cbn [insertRec]. destruct (PrimFloat.ltb v val) eqn:E1.
  - destruct (insertRec l v) as [l' out] eqn:El. cbn [fst].
    rewrite inorder_updateAndBalance_1. cbn [inorder].
    specialize (IHl Hl). cbn [fst] in IHl.
    now rewrite IHl, ins_list_app_lt_1.
  - destruct (PrimFloat.ltb val v) eqn:E2.
    + destruct (insertRec r v) as [r' out] eqn:Er. cbn [fst].
      rewrite inorder_updateAndBalance_1. cbn [inorder].
      specialize (IHr Hr). cbn [fst] in IHr.
      now rewrite IHr, ins_list_app_gt_1.
    + cbn [fst inorder]. now rewrite ins_list_app_eq_1.
Qed.


Lemma hpos_insertRec_1 node v : hpos node -> hpos (fst (insertRec node v)).
Proof.
  induction node as [|l IHl r IHr val h]; intros H.
  - simpl. repeat split; lia.
  - destruct H as (Hl & Hr & Hh). cbn [insertRec].
    destruct (PrimFloat.ltb v val).
    + destruct (insertRec l v) as [l' out]. cbn [fst] in *.
      apply hpos_updateAndBalance_1; auto.
    + destruct (PrimFloat.ltb val v).
      * destruct (insertRec r v) as [r' out]. cbn [fst] in *.
        apply hpos_updateAndBalance_1; auto.
      * cbn [fst hpos]. auto.
Qed.

Lemma one_line_insertRec node v : List.length (snd (insertRec node v)) = 1%nat.
Proof.
  induction node as [|l IHl r IHr val h]; [reflexivity|].
  cbn [insertRec]. destruct (PrimFloat.ltb v val).
  - now destruct (insertRec l v).
  - destruct (PrimFloat.ltb val v); [|reflexivity].
    now destruct (insertRec r v).
Qed.

Lemma removeRec_node_1 l r val h v :
  removeRec (Node l r val h) v
  = if PrimFloat.ltb v val then
      let (l', out) := removeRec l v in
      (updateAndBalance (Node l' r val h), out)
    else if PrimFloat.ltb val v then
      let (r', out) := removeRec r v in
      (updateAndBalance (Node l r' val h), out)
    else
      match l, r with
      | nullptr, _ => (updateAndBalance r, [successful_remove])
      | _, nullptr => (updateAndBalance l, [successful_remove])
      | _, _ =>
          let temp := findMin r in
          let (r', out) := removeRec r (val_of temp) in
          (updateAndBalance (Node l r' (val_of temp) h), out)
      end.
Proof. reflexivity. Qed.

Lemma one_line_removeRec node v : List.length (snd (removeRec node v)) = 1%nat.
Proof.
  revert v. induction node as [|l IHl r IHr val h]; intros v; [reflexivity|].
  rewrite removeRec_node_1. destruct (PrimFloat.ltb v val).
  - specialize (IHl v). now destruct (removeRec l v).
  - destruct (PrimFloat.ltb val v).
    + specialize (IHr v). now destruct (removeRec r v).
    + destruct l; [reflexivity|]. destruct r; [reflexivity|].
      cbv zeta.
      match goal with
      | |- context [removeRec ?t ?k] =>
          specialize (IHr k); destruct (removeRec t k)
      end.
      exact IHr.
Qed.

Lemma hpos_removeRec_1 node v : hpos node -> hpos (fst (removeRec node v)).
Proof.
  revert v. induction node as [|l IHl r IHr val h]; intros v H; [exact I|].
  destruct H as (Hl & Hr & Hh). rewrite removeRec_node_1.
  destruct (PrimFloat.ltb v val).
  - specialize (IHl v Hl). destruct (removeRec l v). cbn [fst] in *.
    now apply hpos_updateAndBalance_1.
  - destruct (PrimFloat.ltb val v).
    + specialize (IHr v Hr). destruct (removeRec r v). cbn [fst] in *.
      now apply hpos_updateAndBalance_1.
    + destruct l as [|ll lr lv lh].
      { cbn [fst]. now apply hpos_updateAndBalance_node_1. }
      destruct r as [|rl rr rv rh].
      { cbn [fst]. now apply hpos_updateAndBalance_node_1. }
      cbv zeta.
      match goal with
      | |- context [removeRec ?t ?k] =>
          specialize (IHr k Hr); destruct (removeRec t k)
      end.
      cbn [fst] in *. now apply hpos_updateAndBalance_1.
Qed.

(** Removing the value of the leftmost node removes the head of the
    in-order sequence. *)
Lemma removeRec_findMin node :
  node <> nullptr -> ascending (inorder node) ->
  exists node',
    removeRec node (val_of (findMin node)) = (node', [successful_remove]) /\
    inorder node = val_of (findMin node) :: inorder node'.
Proof.
  induction node as [|l IHl r IHr val h]; intros Hne Hs; [contradiction|].
  apply ascending_node in Hs. destruct Hs as (Hl & Hr & Hlv & Hrv).
  destruct l as [|ll lr lv lh].
  - cbn [findMin val_of]. rewrite removeRec_node_1.
    rewrite double_ltb_irrefl. exists (updateAndBalance r). split; [reflexivity|].
    now rewrite inorder_updateAndBalance_1.
  - assert (Hn : Node ll lr lv lh <> nullptr) by discriminate.
    destruct (IHl Hn Hl) as (l' & El & Ei).
    change (findMin (Node (Node ll lr lv lh) r val h))
      with (findMin (Node ll lr lv lh)).
    set (m := val_of (findMin (Node ll lr lv lh))) in *.
    assert (Hm : PrimFloat.ltb m val = true).
    { rewrite Ei in Hlv. apply Forall_cons_iff in Hlv. apply Hlv. }
    rewrite removeRec_node_1, Hm, El.
    exists (updateAndBalance (Node l' r val h)). split; [reflexivity|].
    rewrite inorder_updateAndBalance_1.
    change (inorder (Node (Node ll lr lv lh) r val h))
      with (inorder (Node ll lr lv lh) ++ val :: inorder r).
    now rewrite Ei.
Qed.

(** What [removeRec] writes and what it takes out. *)
Lemma removeRec_spec node v :
  ascending (inorder node) ->
  (snd (removeRec node v) = [node_not_found] /\
   inorder (fst (removeRec node v)) = inorder node /\
   existsb (neither v) (inorder node) = false) \/
  (snd (removeRec node v) = [successful_remove] /\
   exists (l1 : list double) (x : double) (l2 : list double),
     inorder node = l1 ++ x :: l2 /\
     inorder (fst (removeRec node v)) = l1 ++ l2 /\
     neither v x = true).
Proof.
  induction node as [|l IHl r IHr val h]; intros Hs.
  - left. repeat split.
  - pose proof Hs as Hs'.
    apply ascending_node in Hs. destruct Hs as (Hl & Hr & Hlv & Hrv).
    rewrite removeRec_node_1. destruct (PrimFloat.ltb v val) eqn:E1.
    + destruct (IHl Hl) as [(Ho & Hi & He)|(Ho & l1 & x & l2 & Hi & Hi' & Hx)];
        destruct (removeRec l v) as [l' out]; cbn [fst snd] in *;
        rewrite inorder_updateAndBalance_1; cbn [inorder].
      * left. split; [assumption|]. split; [now rewrite Hi|].
        assert (Hn : neither v val = false)
          by (unfold neither; now rewrite E1).
        rewrite existsb_app, He. cbn [existsb orb]. rewrite Hn. cbn [orb].
        apply neither_above. now apply (Forall_below_trans v val).
      * right. split; [assumption|].
        exists l1, x, (l2 ++ val :: inorder r).
        rewrite Hi, Hi', <- !app_assoc. now repeat split.
    + destruct (PrimFloat.ltb val v) eqn:E2.
      * destruct (IHr Hr) as [(Ho & Hi & He)|(Ho & l1 & x & l2 & Hi & Hi' & Hx)];
          destruct (removeRec r v) as [r' out]; cbn [fst snd] in *;
          rewrite inorder_updateAndBalance_1; cbn [inorder].
        -- left. split; [assumption|]. split; [now rewrite Hi|].
           assert (Hn : neither v val = false)
             by (unfold neither; now rewrite E1, E2).
           rewrite existsb_app. cbn [existsb]. rewrite He, Hn. cbn [orb].
           rewrite orb_false_r.
           apply neither_under. now apply (Forall_under_trans val v).
        -- right. split; [assumption|].
           exists (inorder l ++ val :: l1), x, l2.
           rewrite Hi, Hi', <- !app_assoc. now repeat split.
      * right.
        assert (Hv : neither v val = true)
          by (unfold neither; now rewrite E1, E2).
        destruct l as [|ll lr lv lh].
        { cbn [fst snd]. split; [reflexivity|].
          exists [], val, (inorder r).
          rewrite inorder_updateAndBalance_1. now repeat split. }
        destruct r as [|rl rr rv rh].
        { cbn [fst snd]. split; [reflexivity|].
          exists (inorder (Node ll lr lv lh)), val, [].
          rewrite inorder_updateAndBalance_1, app_nil_r. now repeat split. }
        assert (Hn : Node rl rr rv rh <> nullptr) by discriminate.
        destruct (removeRec_findMin _ Hn Hr) as (r' & Er & Ei).
        cbv zeta. rewrite Er. cbn [fst snd]. split; [reflexivity|].
        exists (inorder (Node ll lr lv lh)), val, (inorder (Node rl rr rv rh)).
        rewrite inorder_updateAndBalance_1.
        split; [reflexivity|]. split; [|assumption].
        change (inorder (Node (Node ll lr lv lh) r'
                              (val_of (findMin (Node rl rr rv rh))) h))
          with (inorder (Node ll lr lv lh)
                ++ val_of (findMin (Node rl rr rv rh)) :: inorder r').
        now rewrite <- Ei.
Qed.

Lemma ascending_removeRec node v :
  ascending (inorder node) -> ascending (inorder (fst (removeRec node v))).
Proof.
  intros Hs.
  destruct (removeRec_spec node v Hs)
    as [(_ & Hi & _)|(_ & l1 & x & l2 & Hi & Hi' & _)].
  - now rewrite Hi.
  - rewrite Hi'. rewrite Hi in Hs. now apply ascending_without in Hs.
Qed.

Lemma ascending_insertRec node v :
  ascending (inorder node) -> ascending (inorder (fst (insertRec node v))).
Proof.
  intros Hs. rewrite inorder_insertRec_1 by assumption.
  now apply ascending_ins_list.
Qed.

(** What [retrieveRec] finds in an ascending tree. *)
Lemma retrieveRec_found node v :
  ascending (inorder node) ->
  existsb (PrimFloat.eqb v) (inorder node) = true ->
  snd (retrieveRec node v) = [successful_find] /\
  PrimFloat.eqb v (fst (retrieveRec node v)) = true /\
  In (fst (retrieveRec node v)) (inorder node).
Proof.
  induction node as [|l IHl r IHr val h]; intros Hs He; [discriminate|].
  apply ascending_node in Hs. destruct Hs as (Hl & Hr & Hlv & Hrv).
  cbn [retrieveRec inorder] in *. rewrite existsb_app in He. cbn [existsb] in He.
  destruct (PrimFloat.eqb v val) eqn:E0.
  - cbn [fst snd]. repeat split; [assumption|]. apply in_or_app. right. now left.
  - cbn [orb] in He. destruct (PrimFloat.ltb v val) eqn:E1.
    + assert (Hr0 : existsb (PrimFloat.eqb v) (inorder r) = false).
      { destruct (existsb (PrimFloat.eqb v) (inorder r)) eqn:Ex; [|reflexivity].
        apply existsb_exists in Ex. destruct Ex as (x & Hx & Ex).
        rewrite Forall_forall in Hrv. specialize (Hrv x Hx).
        pose proof (double_ltb_trans v val x E1 Hrv) as Hvx.
        destruct (double_eqb_not_ltb v x Ex) as [Hc _]. congruence. }
      rewrite Hr0, orb_false_r in He.
      destruct (IHl Hl He) as (H1 & H2 & H3). repeat split; auto.
      apply in_or_app. now left.
    + assert (Hl0 : existsb (PrimFloat.eqb v) (inorder l) = false).
      { destruct (existsb (PrimFloat.eqb v) (inorder l)) eqn:Ex; [|reflexivity].
        apply existsb_exists in Ex. destruct Ex as (x & Hx & Ex).
        rewrite Forall_forall in Hlv. specialize (Hlv x Hx).
        pose proof (double_eqb_ltb_l v x val Ex Hlv). congruence. }
      rewrite Hl0 in He. cbn [orb] in He.
      destruct (IHr Hr He) as (H1 & H2 & H3). repeat split; auto.
      apply in_or_app. right. now right.
Qed.

Lemma retrieveRec_sound node v :
  (snd (retrieveRec node v) = [successful_find] /\
   PrimFloat.eqb v (fst (retrieveRec node v)) = true /\
   In (fst (retrieveRec node v)) (inorder node)) \/
  retrieveRec node v = (NAN, []).
Proof.
  induction node as [|l IHl r IHr val h]; [now right|].
  cbn [retrieveRec inorder]. destruct (PrimFloat.eqb v val) eqn:E0.
  - left. cbn [fst snd]. repeat split; [assumption|].
    apply in_or_app. right. now left.
  - destruct (PrimFloat.ltb v val).
    + destruct IHl as [(H1 & H2 & H3)|H]; [left|now right].
      repeat split; auto. apply in_or_app. now left.
    + destruct IHr as [(H1 & H2 & H3)|H]; [left|now right].
      repeat split; auto. apply in_or_app. right. now right.
Qed.

Lemma run_invariant head ops :
  ascending (inorder head) -> hpos head ->
  ascending (inorder (fst (run head ops))) /\ hpos (fst (run head ops)) /\
  List.length (snd (run head ops)) = List.length ops.
Proof.
  revert head. induction ops as [|[v|t] ops IH]; intros head Hs Hp.
  - now repeat split.
  - cbn [run]. unfold insert.
    pose proof (ascending_insertRec head v Hs) as Hs'.
    pose proof (hpos_insertRec_1 head v Hp) as Hp'.
    pose proof (one_line_insertRec head v) as Ho.
    destruct (insertRec head v) as [h' out]. cbn [fst snd] in *.
    destruct (IH h' Hs' Hp') as (H1 & H2 & H3).
    destruct (run h' ops) as [h'' outs]. cbn [fst snd] in *.
    repeat split; auto. rewrite length_app. cbn [List.length]. lia.
  - cbn [run]. unfold remove.
    pose proof (ascending_removeRec head t Hs) as Hs'.
    pose proof (hpos_removeRec_1 head t Hp) as Hp'.
    pose proof (one_line_removeRec head t) as Ho.
    destruct (removeRec head t) as [h' out]. cbn [fst snd] in *.
    destruct (IH h' Hs' Hp') as (H1 & H2 & H3).
    destruct (run h' ops) as [h'' outs]. cbn [fst snd] in *.
    repeat split; auto. rewrite length_app. cbn [List.length]. lia.
Qed.

End Operations.

End Lab3_1_AVL_facts.

(** ** The tree of the first program: what its operations do *)

Section FirstProgram.

Import Floats.PrimFloat Lab3_1 Lab3_1_AVL Lab3_1_AVL_facts FloatOrder.




Definition three_doubles : tNode double :=
  Node (new_tNode 1%float) (new_tNode 3%float) 2%float 2.


(** X26.  [AVL::retrieve] of the first program on a tree whose in-order
    values ascend.  If a stored value is equal to the given one, the
    success line is written and the result is a stored value equal to
    the given one.  If none is, nothing is written and the result is
    the NaN.  So the test [result == result] of [main] succeeds exactly
    when an equal value is stored. *)
Theorem X26_double_retrieve_finds_an_equal_value
    (head : tNode double) (t : double)
    (Hs : ascending (inorder head)) :
  (existsb (PrimFloat.eqb t) (inorder head) = true ->
     snd (retrieve head t) = [successful_find] /\
     PrimFloat.eqb t (fst (retrieve head t)) = true /\
     In (fst (retrieve head t)) (inorder head)) /\
  (existsb (PrimFloat.eqb t) (inorder head) = false ->
     retrieve head t = (NAN, [])) /\
  PrimFloat.eqb (fst (retrieve head t)) (fst (retrieve head t))
  = existsb (PrimFloat.eqb t) (inorder head).
Proof.
  unfold retrieve.
  assert (Hnot : existsb (PrimFloat.eqb t) (inorder head) = false ->
                 retrieveRec head t = (NAN, [])).
  { intros He.
    destruct (retrieveRec_sound head t) as [(_ & H2 & H3)|H]; [|assumption].
    assert (Hc : existsb (PrimFloat.eqb t) (inorder head) = true)
      by (apply existsb_exists; eauto).
    congruence. }
  split; [now apply retrieveRec_found|]. split; [assumption|].
  destruct (existsb (PrimFloat.eqb t) (inorder head)) eqn:He.
  - destruct (retrieveRec_found head t Hs He) as (_ & H2 & _).
    now apply (double_eqb_refl_r t).
  - rewrite (Hnot eq_refl). reflexivity.
Qed.

Lemma X26_witness :
  (existsb (PrimFloat.eqb 3%float) (inorder three_doubles) = true ->
     snd (retrieve three_doubles 3%float) = [successful_find] /\
     PrimFloat.eqb 3%float (fst (retrieve three_doubles 3%float)) = true /\
     In (fst (retrieve three_doubles 3%float)) (inorder three_doubles)) /\
  (existsb (PrimFloat.eqb 3%float) (inorder three_doubles) = false ->
     retrieve three_doubles 3%float = (NAN, [])) /\
  PrimFloat.eqb (fst (retrieve three_doubles 3%float))
                (fst (retrieve three_doubles 3%float))
  = existsb (PrimFloat.eqb 3%float) (inorder three_doubles).
Proof.
  apply (X26_double_retrieve_finds_an_equal_value three_doubles 3%float).
  repeat constructor.
Defined.

(** X27.  The NaN in the tree of the first program.  Looking it up
    finds nothing in any tree.  Inserting it into a tree that is not
    empty is reported as a duplicate and changes nothing, and so is
    every insert into a tree whose root holds it.  Removing it from a
    tree of one node removes that node, whatever its value.  The
    comparisons send a value neither left nor right of another exactly
    when the two are equal or one of them is the NaN. *)
Theorem X27_double_nan_is_never_ordered :
  (forall head : tNode double, retrieve head NAN = (NAN, [])) /\
  (forall (l r : tNode double) (val : double) (h : Z),
     insert (Node l r val h) NAN = (Node l r val h, [already_present])) /\
  (forall (l r : tNode double) (h : Z) (v : double),
     insert (Node l r NAN h) v = (Node l r NAN h, [already_present])) /\
  (forall (val : double) (h : Z),
     remove (Node nullptr nullptr val h) NAN = (nullptr, [successful_remove])) /\
  (forall v x : double,
     neither v x = true <-> PrimFloat.eqb v x = true \/ v = NAN \/ x = NAN).
Proof.
  unfold insert, retrieve, remove, NAN. repeat split.
  - intros head. induction head as [|l IHl r IHr val h]; [reflexivity|].
    cbn [retrieveRec]. now rewrite double_eqb_nan_l, double_ltb_nan_l.
  - intros l r val h. cbn [insertRec].
    now rewrite double_ltb_nan_l, double_ltb_nan_r.
  - intros l r h v. cbn [insertRec].
    now rewrite double_ltb_nan_l, double_ltb_nan_r.
  - intros val h. rewrite removeRec_node_1.
    now rewrite double_ltb_nan_l, double_ltb_nan_r.
  - unfold neither. intros H. apply andb_true_iff in H. destruct H as [H1 H2].
    apply negb_true_iff in H1, H2. now apply double_ltb_total.
  - unfold neither. intros [H|[->| ->]].
    + destruct (double_eqb_not_ltb v x H) as [-> ->]. reflexivity.
    + now rewrite double_ltb_nan_l, double_ltb_nan_r.
    + now rewrite double_ltb_nan_l, double_ltb_nan_r.
Qed.

(** X28.  Whatever inserts and removes the first program makes from the
    empty tree, the in-order values ascend, every node caches a height
    of at least 1, each operation has written exactly one line, and
    [printInOrder] on a tree that is not empty writes the values in
    ascending order. *)
Theorem X28_double_runs_keep_the_order (ops : list operation) :
  ascending (inorder (fst (run nullptr ops))) /\
  hpos (fst (run nullptr ops)) /\
  List.length (snd (run nullptr ops)) = List.length ops /\
  (fst (run nullptr ops) <> nullptr ->
   printInOrder (fst (run nullptr ops))
   = Done (inorder (fst (run nullptr ops)))).
Proof.
  destruct (run_invariant nullptr ops) as (H1 & H2 & H3).
  - constructor.
  - exact I.
  - repeat split; auto. intros Hne. unfold printInOrder.
    now apply Lab3_1_facts.printHelp_completes_on_a_node.
Qed.

(** X29.  In the first program, when the two subtrees of a node cache
    heights of at least 1, every rotation that [balance] performs on
    the node finds the child it dereferences; the in-order sequence is
    the same after [balance], and the closing lines of [insertRec] and
    [removeRec] leave cached heights of at least 1. *)
Theorem X29_double_balance_reads_no_null_pointer
    (l r : tNode double) (v : double) (h : Z)
    (Hl : hpos l) (Hr : hpos r) :
  balance_derefs (Node l r v h) /\
  inorder (balance (Node l r v h)) = inorder (Node l r v h) /\
  hpos (updateAndBalance (Node l r v h)).
Proof.
  split; [now apply balance_derefs_nodes_1|].
  split; [apply inorder_balance_1|now apply hpos_updateAndBalance_1].
Qed.

(** A node that [balance] rotates to the right: its left subtree is two
    levels higher than the empty right one. *)
Definition left_heavy : tNode double :=
  Node (Node (new_tNode 1%float) nullptr 2%float 2) nullptr 3%float 3.

Lemma X29_witness :
  balance_derefs left_heavy /\
  inorder (balance left_heavy) = inorder left_heavy /\
  hpos (updateAndBalance left_heavy).
Proof.
  apply (X29_double_balance_reads_no_null_pointer
           (Node (new_tNode 1%float) nullptr 2%float 2) nullptr 3%float 3).
  - simpl. repeat split; lia.
  - exact I.
Defined.

End FirstProgram.
